(** * Version-interval candidate generation

    A shallow embedding of the two candidate generators of the repository,
    [generate_candidates] (scripts/verify_versions.py) and
    [get_version_candidates] (scripts/test_ver.py), together with a model of
    the part of [packaging.version] they call: [parse], [Version.release],
    [Version.is_prerelease], [str] and the ordering of [Version] objects.
    The string functions of the test harness that compute directory names
    and the text of the answer file (JavaTest, CPPTest, PythonTest) are
    embedded after them.

    Conventions.
    - A Python [str] is a Rocq [string]; a character is its code point, so
      the model covers strings whose code points are below 256.
    - A Python [int] that is a release component, an epoch or a segment
      number is an [N] (the grammar only produces non-negative numbers); the
      one subtraction that may go below zero, the component gap, is in [Z].
    - A raised exception is the [Raise] constructor of [result]; [getitem],
      [setitem], [min], [max] and [parse] raise as in Python.
    - [packaging.version.parse] is the one of packaging 22 and later: it
      raises [InvalidVersion] on a string that is not a PEP 440 version.
    - [int] and [str] are those of unbounded integers, with no limit on the
      number of digits.
    - The candidates are collected in a [gset string]; [elements] lists a
      set in an order of its own, as the iteration over a Python [set]
      does.  [sorted] is a merge sort.
    - [print] calls are not modelled. *)

From Stdlib Require Import ZArith NArith Ascii String List.
From stdpp Require Import base decidable option list gmap strings sorting.

(** ** Exceptions *)

Inductive exn := InvalidVersion | IndexError | ValueError.

Inductive result (A : Type) :=
  | Ok (a : A)
  | Raise (e : exn).
Arguments Ok {A} a.
Arguments Raise {A} e.

#[global] Instance result_ret : MRet result := λ A a, Ok a.
#[global] Instance result_bind : MBind result := λ A B f m,
  match m with Ok a => f a | Raise e => Raise e end.

(** [l[i]] for [0 <= i]: IndexError when out of range. *)
Definition getitem {A} (l : list A) (i : nat) : result A :=
  match l !! i with Some x => Ok x | None => Raise IndexError end.

(** [l[i] = x] for [0 <= i]: IndexError when out of range. *)
Definition setitem {A} (l : list A) (i : nat) (x : A) : result (list A) :=
  if decide (i < length l)%nat then Ok (<[i:=x]> l) else Raise IndexError.

(** ** Characters and integers *)

Definition chars (s : string) : list ascii := list_ascii_of_string s.

Definition code (c : ascii) : N := N_of_ascii c.

Definition is_digit (c : ascii) : bool :=
  ((48 <=? code c) && (code c <=? 57))%N.
Definition is_upper (c : ascii) : bool :=
  ((65 <=? code c) && (code c <=? 90))%N.
Definition is_lower (c : ascii) : bool :=
  ((97 <=? code c) && (code c <=? 122))%N.
Definition is_alnum (c : ascii) : bool := is_digit c || is_lower c.
(** [\s] on code points below 256. *)
Definition is_space (c : ascii) : bool :=
  bool_decide (code c ∈ [9; 10; 11; 12; 13; 28; 29; 30; 31; 32; 133; 160]%N).
(** [[-_\.]] *)
Definition is_sep (c : ascii) : bool :=
  bool_decide (c = "-"%char ∨ c = "_"%char ∨ c = "."%char).
Definition lower_char (c : ascii) : ascii :=
  if is_upper c then ascii_of_N (code c + 32) else c.

Definition digit_val (c : ascii) : N := (code c - 48)%N.
Definition digit_char (d : N) : ascii := ascii_of_N (48 + d).

(** [int(ds)] on a string of decimal digits. *)
Definition int_of_digits (ds : list ascii) : N :=
  foldl (λ acc c, 10 * acc + digit_val c)%N 0%N ds.

(** [str(n)] for a non-negative [int]: decimal, most significant digit
    first, no leading zero. *)
Fixpoint str_N_go (fuel : nat) (n : N) (acc : list ascii) : list ascii :=
  match fuel with
  | O => acc
  | S fuel' =>
      let acc' := digit_char (n mod 10) :: acc in
      if (n <? 10)%N then acc' else str_N_go fuel' (n / 10) acc'
  end.
Definition str_N (n : N) : list ascii :=
  str_N_go (S (N.to_nat (N.log2 n))) n [].

(** ["sep".join(parts)] *)
Fixpoint join (sep : list ascii) (parts : list (list ascii)) : list ascii :=
  match parts with
  | [] => []
  | [p] => p
  | p :: ps => p ++ sep ++ join sep ps
  end.

(** [".".join(map(str, parts))] *)
Definition join_dots (parts : list N) : string :=
  string_of_list_ascii (join (chars ".") (str_N <$> parts)).

(** ** Orderings

    Python compares tuples and strings lexicographically, a proper prefix
    being the smaller one.  [Infinity] and [NegativeInfinity] are the two
    sentinels of [packaging._structures]. *)

Class Cmp (A : Type) := cmp : A → A → comparison.

#[global] Instance N_Cmp : Cmp N := N.compare.
#[global] Instance ascii_Cmp : Cmp ascii := λ a b, N.compare (code a) (code b).

Fixpoint list_cmp {A} `{Cmp A} (l1 l2 : list A) : comparison :=
  match l1, l2 with
  | [], [] => Eq
  | [], _ :: _ => Lt
  | _ :: _, [] => Gt
  | x :: l1', y :: l2' =>
      match cmp x y with Eq => list_cmp l1' l2' | c => c end
  end.
#[global] Instance list_Cmp {A} `{Cmp A} : Cmp (list A) := list_cmp.

#[global] Instance prod_Cmp {A B} `{Cmp A, Cmp B} : Cmp (A * B) := λ p q,
  match cmp p.1 q.1 with Eq => cmp p.2 q.2 | c => c end.

Inductive ext (A : Type) :=
  | NegativeInfinity
  | Fin (a : A)
  | Infinity.
Arguments NegativeInfinity {A}.
Arguments Fin {A} a.
Arguments Infinity {A}.

#[global] Instance ext_Cmp {A} `{Cmp A} : Cmp (ext A) := λ x y,
  match x, y with
  | NegativeInfinity, NegativeInfinity => Eq
  | NegativeInfinity, _ => Lt
  | _, NegativeInfinity => Gt
  | Infinity, Infinity => Eq
  | Infinity, _ => Gt
  | _, Infinity => Lt
  | Fin a, Fin b => cmp a b
  end.

(** ** packaging.version *)

Module Packaging.

Inductive pre_letter := PreA | PreB | PreRC.

(** A part of a local version label: [int(part)] when [part.isdigit()],
    the lower-cased part otherwise. *)
Inductive local_seg :=
  | LInt (n : N)
  | LStr (s : list ascii).

(** The fields of a [Version] object.  [post] and [dev] hold the number of
    the segment (the letter is always "post", "dev"). *)
Record Version := mkVersion {
  epoch : N;
  release : list N;
  pre : option (pre_letter * N);
  post : option N;
  dev : option N;
  local : option (list local_seg)
}.

Definition is_prerelease (v : Version) : bool :=
  bool_decide (is_Some (dev v)) || bool_decide (is_Some (pre v)).

Definition pre_letter_str (l : pre_letter) : list ascii :=
  match l with
  | PreA => chars "a"
  | PreB => chars "b"
  | PreRC => chars "rc"
  end.

(** *** Ordering: [_cmpkey]

    The key is the one of packaging 22 to 25; later releases encode the same
    order with integer ranks. *)

Fixpoint dropwhile {A} (p : A → bool) (l : list A) : list A :=
  match l with
  | x :: l' => if p x then dropwhile p l' else l
  | [] => []
  end.

(** The release without its trailing zeros. *)
Definition strip_zeros (rel : list N) : list N :=
  reverse (dropwhile (λ x, (x =? 0)%N) (reverse rel)).

Definition local_key (s : local_seg) : ext N * list ascii :=
  match s with
  | LInt i => (Fin i, [])
  | LStr s => (NegativeInfinity, s)
  end.

Definition key_t : Type :=
  N * list N * ext (list ascii * N) * ext N * ext N
  * ext (list (ext N * list ascii)).

Definition _cmpkey (v : Version) : key_t :=
  let _release := strip_zeros (release v) in
  let _pre :=
    match pre v, post v, dev v with
    | None, None, Some _ => NegativeInfinity
    | None, _, _ => Infinity
    | Some (l, n), _, _ => Fin (pre_letter_str l, n)
    end in
  let _post := match post v with None => NegativeInfinity | Some n => Fin n end in
  let _dev := match dev v with None => Infinity | Some n => Fin n end in
  let _local :=
    match local v with
    | None => NegativeInfinity
    | Some segs => Fin (local_key <$> segs)
    end in
  (epoch v, _release, _pre, _post, _dev, _local).

Definition Vcmp (v w : Version) : comparison := cmp (_cmpkey v) (_cmpkey w).

(** [v < w] and [v <= w] as propositions, [v < w] and [v > w] as the tests
    of the code. *)
Definition Vlt (v w : Version) : Prop := Vcmp v w = Lt.
Definition Vle (v w : Version) : Prop := Vcmp v w ≠ Gt.
Definition Vltb (v w : Version) : bool := bool_decide (Vcmp v w = Lt).
Definition Vgtb (v w : Version) : bool := bool_decide (Vcmp v w = Gt).

(** *** [__str__] *)

Definition str_seg (s : local_seg) : list ascii :=
  match s with
  | LInt n => str_N n
  | LStr s => s
  end.

Definition str_chars (v : Version) : list ascii :=
  (if (epoch v =? 0)%N then [] else str_N (epoch v) ++ chars "!")
  ++ join (chars ".") (str_N <$> release v)
  ++ match pre v with
     | Some (l, n) => pre_letter_str l ++ str_N n
     | None => []
     end
  ++ match post v with Some n => chars ".post" ++ str_N n | None => [] end
  ++ match dev v with Some n => chars ".dev" ++ str_N n | None => [] end
  ++ match local v with
     | Some segs => chars "+" ++ join (chars ".") (str_seg <$> segs)
     | None => []
     end.

Definition str (v : Version) : string := string_of_list_ascii (str_chars v).

(** *** [parse]: the grammar of [VERSION_PATTERN]

    The pattern is matched case-insensitively between leading and trailing
    white space.  With D = [0-9]+, S = an optional one of "-", "_", "." :
<<
    version = "v"? (D "!")? release pre? post? dev? ("+" local)?
    release = D ("." D)...
    pre     = S ("alpha"|"a"|"beta"|"b"|"preview"|"pre"|"c"|"rc") S D?
    post    = "-" D  |  S ("post"|"rev"|"r") S D?
    dev     = S "dev" S D?
    local   = [a-z0-9]+ (("-"|"_"|".") [a-z0-9]+)...
>>
    Every choice of the pattern is settled by the next characters, so the
    match is computed left to right, each optional group taken when it
    matches. *)

Fixpoint span_digits (cs : list ascii) : list ascii * list ascii :=
  match cs with
  | c :: cs' =>
      if is_digit c
      then let '(ds, r) := span_digits cs' in (c :: ds, r)
      else ([], cs)
  | [] => ([], [])
  end.

Definition strip_space (cs : list ascii) : list ascii :=
  reverse (dropwhile is_space (reverse (dropwhile is_space cs))).

Definition parse_epoch (cs : list ascii) : N * list ascii :=
  match span_digits cs with
  | (d :: ds, c :: r) =>
      if bool_decide (c = "!"%char) then (int_of_digits (d :: ds), r)
      else (0%N, cs)
  | _ => (0%N, cs)
  end.

Definition starts_with_digit (cs : list ascii) : bool :=
  match cs with c :: _ => is_digit c | [] => false end.

(** [cur] holds the digits read so far of the current component. *)
Fixpoint parse_release_go (cur cs : list ascii) : list N * list ascii :=
  match cs with
  | c :: cs' =>
      if is_digit c then parse_release_go (cur ++ [c]) cs'
      else if bool_decide (c = "."%char) && starts_with_digit cs'
      then let '(rel, r) := parse_release_go [] cs' in
           (int_of_digits cur :: rel, r)
      else ([int_of_digits cur], cs)
  | [] => ([int_of_digits cur], [])
  end.

Definition parse_release (cs : list ascii) : option (list N * list ascii) :=
  if starts_with_digit cs then Some (parse_release_go [] cs) else None.

Fixpoint strip_prefix (w cs : list ascii) : option (list ascii) :=
  match w, cs with
  | [], _ => Some cs
  | a :: w', c :: cs' => if decide (a = c) then strip_prefix w' cs' else None
  | _ :: _, [] => None
  end.

(** The first alternative of [(w1|w2|...)] that matches. *)
Fixpoint match_alt {T} (alts : list (string * T)) (cs : list ascii)
    : option (T * list ascii) :=
  match alts with
  | [] => None
  | (w, t) :: alts' =>
      match strip_prefix (chars w) cs with
      | Some r => Some (t, r)
      | None => match_alt alts' cs
      end
  end.

Definition skip_sep (cs : list ascii) : list ascii :=
  match cs with
  | c :: r => if is_sep c then r else cs
  | [] => []
  end.

(** [[-_\.]?(w1|w2|...)[-_\.]?([0-9]+)?], the number read as 0 when it is
    absent ([_parse_letter_version]). *)
Definition parse_letter {T} (alts : list (string * T)) (cs : list ascii)
    : option (T * N * list ascii) :=
  match match_alt alts (skip_sep cs) with
  | Some (t, r) =>
      let '(ds, r') := span_digits (skip_sep r) in
      Some (t, int_of_digits ds, r')
  | None => None
  end.

Definition pre_alts : list (string * pre_letter) :=
  [("alpha", PreA); ("a", PreA); ("beta", PreB); ("b", PreB);
   ("preview", PreRC); ("pre", PreRC); ("c", PreRC); ("rc", PreRC)]%string.

Definition parse_pre (cs : list ascii)
    : option (pre_letter * N) * list ascii :=
  match parse_letter pre_alts cs with
  | Some (l, n, r) => (Some (l, n), r)
  | None => (None, cs)
  end.

Definition parse_post_letter (cs : list ascii) : option N * list ascii :=
  match parse_letter [("post", ()); ("rev", ()); ("r", ())]%string cs with
  | Some (_, n, r) => (Some n, r)
  | None => (None, cs)
  end.

Definition parse_post (cs : list ascii) : option N * list ascii :=
  match cs with
  | c :: r =>
      if bool_decide (c = "-"%char) && starts_with_digit r
      then let '(ds, r') := span_digits r in (Some (int_of_digits ds), r')
      else parse_post_letter cs
  | [] => parse_post_letter cs
  end.

Definition parse_dev (cs : list ascii) : option N * list ascii :=
  match parse_letter [("dev", ())]%string cs with
  | Some (_, n, r) => (Some n, r)
  | None => (None, cs)
  end.

(** The parts of a local label, [None] when it does not match
    [[a-z0-9]+(?:[-_\.][a-z0-9]+)*]. *)
Fixpoint split_local (cur cs : list ascii) : option (list (list ascii)) :=
  match cs with
  | [] => if cur is [] then None else Some [cur]
  | c :: cs' =>
      if is_alnum c then split_local (cur ++ [c]) cs'
      else if is_sep c
      then (if cur is [] then None else (cur ::.) <$> split_local [] cs')
      else None
  end.

Definition local_segment (part : list ascii) : local_seg :=
  if forallb is_digit part then LInt (int_of_digits part) else LStr part.

Definition parse_local (cs : list ascii) : option (list local_seg) :=
  fmap (M := list) local_segment <$> split_local [] cs.

(** The text before the first [+] and, when there is one, the text after
    it. *)
Fixpoint split_plus (cs : list ascii) : list ascii * option (list ascii) :=
  match cs with
  | [] => ([], None)
  | c :: cs' =>
      if bool_decide (c = "+"%char) then ([], Some cs')
      else let '(m, l) := split_plus cs' in (c :: m, l)
  end.

Definition parse_chars (cs : list ascii) : result Version :=
  let cs := lower_char <$> strip_space cs in
  let cs := match cs with
            | c :: r => if bool_decide (c = "v"%char) then r else cs
            | [] => cs
            end in
  let '(main, loc) := split_plus cs in
  let '(ep, cs1) := parse_epoch main in
  match parse_release cs1 with
  | None => Raise InvalidVersion
  | Some (rel, cs2) =>
      let '(pr, cs3) := parse_pre cs2 in
      let '(po, cs4) := parse_post cs3 in
      let '(de, cs5) := parse_dev cs4 in
      let lo := match loc with
                | None => Some None
                | Some l => Some <$> parse_local l
                end in
      match cs5, lo with
      | [], Some lo => Ok (mkVersion ep rel pr po de lo)
      | _, _ => Raise InvalidVersion
      end
  end.

(** [packaging.version.parse]: raises [InvalidVersion] on a string that is
    not a version. *)
Definition parse_version (s : string) : result Version :=
  parse_chars (chars s).

End Packaging.

Import Packaging.

(** ** The code shared by the two scripts

    Both files start with the same lines: the versions are read from the
    two keys of every record, grouped by their first release component,
    and the minimum and maximum of every group are taken. *)

(** A record of the input: a [dict] from field names to strings (fields
    that hold something else than a string are outside the model). *)
Abbreviation entry := (gmap string string).

Definition keys : list string := ["deprecated_in"; "removed_in"]%string.

(** Monadic left fold: a [for] loop whose body may raise. *)
Fixpoint foldlM {A B} (f : A → B → result A) (a : A) (l : list B) : result A :=
  match l with
  | [] => Ok a
  | x :: l' => a' ← f a x; foldlM f a' l'
  end.

(** The body of the inner loop: [entry.get(key)], the truth test of the
    string, and the [try] whose [except] swallows every exception. *)
Definition extract_key (entry : entry) (versions : list Version) (key : string)
    : list Version :=
  match entry !! key with
  | Some v_str =>
      if bool_decide (v_str = ""%string) then versions
      else match parse_version v_str with
           | Ok v => if is_prerelease v then versions else versions ++ [v]
           | Raise _ => versions
           end
  | None => versions
  end.

Definition extract_versions (data : list entry) : list Version :=
  foldl (λ versions entry, foldl (extract_key entry) versions keys) [] data.

Definition get_major (v : Version) : N :=
  match release v with
  | x :: _ => x
  | [] => 0%N
  end.

(** [by_major]: a [dict] from the major component to the list of the
    versions that have it. *)
Definition group_by_major (versions : list Version) : gmap N (list Version) :=
  foldl (λ (by_major : gmap N (list Version)) v,
    let major := get_major v in
    let by_major :=
      if bool_decide (is_Some (by_major !! major)) then by_major
      else <[major := []]> by_major in
    alter (λ group, group ++ [v]) major by_major) ∅ versions.

(** [min(group)] and [max(group)]: the running minimum is replaced when
    [y < m], the running maximum when [y > m]; ValueError on an empty
    list. *)
Definition py_min (group : list Version) : result Version :=
  match group with
  | [] => Raise ValueError
  | x :: rest => Ok (foldl (λ m y, if Vltb y m then y else m) x rest)
  end.

Definition py_max (group : list Version) : result Version :=
  match group with
  | [] => Raise ValueError
  | x :: rest => Ok (foldl (λ m y, if Vgtb y m then y else m) x rest)
  end.

(** The loop [for i in range(len(parts)-1, -1, -1)] of both files, started
    with [n = len(parts)]: the first positive component from the right is
    decremented in place and the loop left. *)
Fixpoint find_lower (parts : list N) (n : nat) : result (option (list N)) :=
  match n with
  | O => Ok None
  | S i =>
      x ← getitem parts i;
      if (0 <? x)%N
      then parts' ← setitem parts i (x - 1)%N; Ok (Some parts')
      else find_lower parts i
  end.

(** [list(v.release) + [0]*(len_max - len(v.release))] *)
Definition pad (rel : list N) (len_max : nat) : list N :=
  rel ++ replicate (len_max - length rel) 0%N.

(** [if pre_min: candidates.add(pre_min)]: a Python string is true when it
    is not empty, [None] is false. *)
Definition add_if_true (s : option string) (c : gset string) : gset string :=
  match s with
  | Some s => if bool_decide (s = ""%string) then c else {[s]} ∪ c
  | None => c
  end.

(** ** scripts/verify_versions.py *)

Module VerifyVersions.

(** Lines 52-75: [pre_min], [None] when no component is positive; the test
    [parts[0] == 0] after the loop reads the first component. *)
Definition pre_min_of (min_v : Version) : result (option string) :=
  let parts := release min_v in
  found ← find_lower parts (length parts);
  match found with
  | Some parts' => Ok (Some (join_dots parts'))
  | None => _ ← getitem parts 0; Ok None
  end.

(** The loop [for i in range(len_max)], at index [i] with [n] rounds left. *)
Fixpoint find_mid (p_min p_max : list N) (len_max i n : nat)
    : result (option (list N)) :=
  match n with
  | O => Ok None
  | S n' =>
      a ← getitem p_min i;
      b ← getitem p_max i;
      if bool_decide (a ≠ b) then
        let diff := (Z.of_N b - Z.of_N a)%Z in
        if (1 <? diff)%Z then
          let new_val := Z.to_N (Z.of_N a + diff `div` 2) in
          Ok (Some (take i p_min ++ [new_val] ++ replicate (len_max - i - 1) 0%N))
        else
          Ok (Some (take (i + 1) p_min ++ [5%N]))
      else find_mid p_min p_max len_max (S i) n'
  end.

(** [while len(mid_parts) > 3 and mid_parts[-1] == 0: mid_parts.pop()] *)
Fixpoint trim_zeros (fuel : nat) (mid_parts : list N) : list N :=
  match fuel with
  | O => mid_parts
  | S fuel' =>
      if bool_decide (3 < length mid_parts)%nat
         && bool_decide (last mid_parts = Some 0%N)
      then trim_zeros fuel' (removelast mid_parts)
      else mid_parts
  end.

(** Lines 81-120: the string [mid_v] that is added, [None] when nothing
    is. *)
Definition mid_of (min_v max_v : Version) : result (option string) :=
  if Vltb min_v max_v then
    let len_max := length (release min_v) `max` length (release max_v) in
    let p_min := pad (release min_v) len_max in
    let p_max := pad (release max_v) len_max in
    mid_parts ← find_mid p_min p_max len_max 0 len_max;
    match mid_parts with
    | Some (x :: l) =>
        Ok (Some (join_dots (trim_zeros (length (x :: l)) (x :: l))))
    | _ => Ok None
    end
  else Ok None.

(** Lines 34-120: the body of [for major, group in by_major.items()]. *)
Definition group_step (final_candidates : gset string)
    (item : N * list Version) : result (gset string) :=
  let group := item.2 in
  if group is [] then Ok final_candidates else
  min_v ← py_min group;
  max_v ← py_max group;
  let final_candidates := {[str min_v]} ∪ final_candidates in
  let final_candidates := {[str max_v]} ∪ final_candidates in
  pre_min ← pre_min_of min_v;
  let final_candidates := add_if_true pre_min final_candidates in
  mid_v ← mid_of min_v max_v;
  Ok (from_option (λ s, {[s]} ∪ final_candidates) final_candidates mid_v).

(** [sorted(l, key=lambda x: parse_version(x))]: the keys are computed
    first, then the list is sorted on them. *)
Definition with_key (x : string) : result (Version * string) :=
  k ← parse_version x; Ok (k, x).

Definition key_le (a b : Version * string) : Prop := Vle a.1 b.1.

Definition sorted_by_version (l : list string) : result (list string) :=
  keyed ← foldlM (λ acc x, kx ← with_key x; Ok (acc ++ [kx])) [] l;
  Ok ((merge_sort key_le keyed).*2).

(** Lines 7-122.  The groups are visited in the order of [map_to_list]; the
    set that is built does not depend on it. *)
Definition generate_candidates (data : list entry) : result (list string) :=
  let versions := extract_versions data in
  if versions is [] then Ok [] else
  let by_major := group_by_major versions in
  final_candidates ← foldlM group_step ∅ (map_to_list by_major);
  sorted_by_version (elements final_candidates).

End VerifyVersions.

(** ** scripts/test_ver.py *)

Module TestVer.

(** Lines 40-65: [pre_min], [None] when the release is empty or no component
    is positive. *)
Definition pre_min_of (min_v : Version) : result (option string) :=
  match release min_v with
  | [] => Ok None
  | _ :: _ =>
      let parts := release min_v in
      found ← find_lower parts (length parts);
      match found with
      | Some parts' => Ok (Some (join_dots parts'))
      | None => Ok None
      end
  end.

(** The loop that looks for [diff_index]; [None] stands for [-1]. *)
Fixpoint find_diff_index (min_parts max_parts : list N) (i n : nat)
    : result (option nat) :=
  match n with
  | O => Ok None
  | S n' =>
      a ← getitem min_parts i;
      b ← getitem max_parts i;
      if bool_decide (a ≠ b) then Ok (Some i)
      else find_diff_index min_parts max_parts (S i) n'
  end.

(** Lines 74-187: the string [mid_ver] that is added, [None] when nothing
    is.  In the branch of a gap of at most 1 (lines 108-187) the script
    builds [temp_parts], tests the gap again and only passes: nothing is
    added to the candidates. *)
Definition mid_of (min_v max_v : Version) : result (option string) :=
  if Vltb min_v max_v then
    let len_max := length (release min_v) `max` length (release max_v) in
    let min_parts := pad (release min_v) len_max in
    let max_parts := pad (release max_v) len_max in
    diff_index ← find_diff_index min_parts max_parts 0 len_max;
    match diff_index with
    | None => Ok None
    | Some diff_index =>
        let current_parts := min_parts in
        val_min ← getitem min_parts diff_index;
        val_max ← getitem max_parts diff_index;
        if (1 <? Z.of_N val_max - Z.of_N val_min)%Z then
          current_parts ←
            setitem current_parts diff_index ((val_min + val_max) `div` 2)%N;
          current_parts ←
            foldlM (λ cp k, setitem cp k 0%N) current_parts
                   (seq (diff_index + 1) (len_max - (diff_index + 1)));
          Ok (Some (join_dots current_parts))
        else Ok None
    end
  else Ok None.

(** Lines 32-187: the body of [for major, group in by_major.items()]. *)
Definition group_step (candidates : gset string)
    (item : N * list Version) : result (gset string) :=
  let group := item.2 in
  if group is [] then Ok candidates else
  min_v ← py_min group;
  max_v ← py_max group;
  pre_min ← pre_min_of min_v;
  let candidates := add_if_true pre_min candidates in
  let candidates := {[str max_v]} ∪ candidates in
  mid_ver ← mid_of min_v max_v;
  Ok (from_option (λ s, {[s]} ∪ candidates) candidates mid_ver).

(** Lines 7-200.  The last line is [sorted(list(candidates))]: the order of
    Python strings. *)
Definition get_version_candidates (data : list entry) : result (list string) :=
  let versions := extract_versions data in
  if versions is [] then Ok [] else
  let by_major := group_by_major versions in
  candidates ← foldlM group_step ∅ (map_to_list by_major);
  Ok (merge_sort String.le (elements candidates)).

End TestVer.

Import VerifyVersions TestVer.

(** ** The harness: directory names, Maven coordinates, the answer

    The string functions of JavaTest/create_envs.py, JavaTest/run_eval.py
    and CPPTest/run_eval.py; [sanitize_dirname] is also the function of that
    name of PythonTest/create_envs.py and PythonTest/run_eval.py.  A
    directory under [ENV_BASE] is modelled by its name, a file that is
    written by its text. *)

(** [s.find(sub)]: the lowest index at which [sub] occurs in [s], [None]
    for -1. *)
Fixpoint find_from (sub s : list ascii) : option nat :=
  if bool_decide (sub `prefix_of` s) then Some 0%nat
  else match s with
       | [] => None
       | _ :: s' => S <$> find_from sub s'
       end.

Definition py_find (s sub : string) : option nat :=
  find_from (chars sub) (chars s).

(** [sub in s] *)
Definition py_in (sub s : string) : bool :=
  bool_decide (is_Some (py_find s sub)).

(** [s.replace(old, new)] for a non-empty [old]: the occurrences of [old]
    are found from left to right and do not overlap.  [skip] counts the
    characters of the occurrence just replaced that are still to be passed
    over. *)
Fixpoint replace_from (old new : list ascii) (skip : nat) (s : list ascii)
    : list ascii :=
  match s with
  | [] => []
  | c :: s' =>
      match skip with
      | S skip' => replace_from old new skip' s'
      | O =>
          if bool_decide (old `prefix_of` s)
          then new ++ replace_from old new (length old - 1) s'
          else c :: replace_from old new 0 s'
      end
  end.

(** [s.replace(old, new)]; for an empty [old], [new] is put before every
    character and at the end. *)
Definition replace_chars (s old new : list ascii) : list ascii :=
  match old with
  | [] => new ++ flat_map (λ c, c :: new) s
  | _ :: _ => replace_from old new 0 s
  end.

Definition py_replace (s old new : string) : string :=
  string_of_list_ascii (replace_chars (chars s) (chars old) (chars new)).

(** [s.split(sep)] for a separator of one character. *)
Fixpoint split_on (sep : ascii) (s : list ascii) : list (list ascii) :=
  match s with
  | [] => [[]]
  | c :: s' =>
      if bool_decide (c = sep) then [] :: split_on sep s'
      else match split_on sep s' with
           | p :: ps => (c :: p) :: ps
           | [] => [[c]]
           end
  end.

Definition py_split (s : string) (sep : ascii) : list string :=
  string_of_list_ascii <$> split_on sep (chars s).

(** [s.split(sep)] for a non-empty string [sep]: the occurrences of [sep]
    are found from left to right and do not overlap; [skip] is as in
    [replace_from]. *)
Fixpoint split_from (sep : list ascii) (skip : nat) (s : list ascii)
    : list (list ascii) :=
  match s with
  | [] => [[]]
  | c :: s' =>
      match skip with
      | S skip' => split_from sep skip' s'
      | O =>
          if bool_decide (sep `prefix_of` s)
          then [] :: split_from sep (length sep - 1) s'
          else match split_from sep 0 s' with
               | p :: ps => (c :: p) :: ps
               | [] => [[c]]
               end
      end
  end.

Definition py_split_str (s sep : string) : list string :=
  string_of_list_ascii <$> split_from (chars sep) 0 (chars s).

(** The string of one line feed. *)
Definition newline : string := String "010"%char EmptyString.

(** The characters that are not allowed in a Windows path, in the order of
    the string the functions below go through: less-than, greater-than,
    colon, double quote, slash, backslash, bar, question mark, star. *)
Definition invalid : list ascii :=
  chars "<>:" ++ ["034"%char] ++ chars "/\|?*".

(** [for char in invalid: name = name.replace(char, '-')] *)
Definition sanitize_dirname (name : string) : string :=
  foldl (λ name char, py_replace name (String char EmptyString) "-")
        name invalid.

(** [str(x)] for a field that may be [None]. *)
Definition str_field (x : option string) : string :=
  match x with
  | Some s => s
  | None => "None"
  end.

(** *** JavaTest/create_envs.py *)

Module JavaCreateEnvs.

Definition sanitize_path_component (s : option string) : string :=
  match s with
  | None => "unknown"
  | Some s =>
      py_replace
        (string_of_list_ascii
           ((λ c, if bool_decide (c ∈ invalid) then "-"%char else c)
              <$> chars s))
        " " "_"
  end.

(** The name of the directory under [ENV_BASE]. *)
Definition env_dir_for (entry : entry) : string :=
  let java_version := default "system"%string (entry !! "java_version"%string) in
  let library := sanitize_path_component (entry !! "library"%string) in
  let version := sanitize_path_component (entry !! "version"%string) in
  "java-" +:+ java_version +:+ "-" +:+ library +:+ "-" +:+ version.

Definition parse_maven_coord (coord : string) : result (string * string) :=
  match py_split coord ":" with
  | [group_id; artifact_id] => Ok (group_id, artifact_id)
  | _ => Raise ValueError
  end.

End JavaCreateEnvs.

(** *** JavaTest/run_eval.py *)

Module JavaRunEval.

(** The name of the directory under [ENV_BASE]; [None] when the record has
    no [library]: [sanitize_dirname(None)] raises AttributeError. *)
Definition env_dir_for (entry : entry) : option string :=
  let java_version := default "system"%string (entry !! "java_version"%string) in
  library ← sanitize_dirname <$> entry !! "library"%string;
  let version := entry !! "version"%string in
  Some ("java-" +:+ java_version +:+ "-" +:+ library +:+ "-"
        +:+ str_field version).

(** The text written to Main.java. *)
Definition write_answer_main (starting_code solution : string) : string :=
  py_replace (py_replace starting_code "// SOLUTION_START" solution)
             "// SOLUTION_END" "".

End JavaRunEval.

(** *** CPPTest/run_eval.py *)

Module CppRunEval.

(** Lines 54-63 of [evaluate_entry]: the text [full_code] that is written
    to test.cpp. *)
Definition full_code (starting_code solution : string) : result string :=
  if py_in "// SOLUTION_START" starting_code
     && py_in "// SOLUTION_END" starting_code
  then
    let parts := py_split_str starting_code "// SOLUTION_START" in
    prefix ← getitem parts 0;
    behind ← getitem parts 1;
    suffix ← getitem (py_split_str behind "// SOLUTION_END") 1;
    Ok (prefix +:+ newline +:+ solution +:+ newline +:+ suffix)
  else
    Ok (py_replace (py_replace starting_code "// SOLUTION_START" solution)
                   "// SOLUTION_END" "").

End CppRunEval.

(** ** Vocabulary of the statements *)

(** *** Versions *)

(** The version a dotted string of integers spells. *)
Definition plain (parts : list N) : Version :=
  mkVersion 0 parts None None None None.

(** What [parse] guarantees of its result: the release is not empty, and a
    local label is a non-empty list of numbers and of lower-case
    alphanumeric words that are not numbers. *)
Definition wf_seg (s : local_seg) : Prop :=
  match s with
  | LInt _ => True
  | LStr p => p ≠ [] ∧ forallb is_alnum p = true ∧ forallb is_digit p = false
  end.

Definition wf_version (v : Version) : Prop :=
  release v ≠ []
  ∧ ∀ segs, local v = Some segs → segs ≠ [] ∧ Forall wf_seg segs.

(** A final release: well formed and not a pre-release. *)
Definition final (v : Version) : Prop :=
  wf_version v ∧ pre v = None ∧ dev v = None.

(** The order of the releases of two versions, trailing zeros apart. *)
Definition rel_cmp (v w : Version) : comparison :=
  list_cmp (strip_zeros (release v)) (strip_zeros (release w)).

(** The laws of a comparison that decides a total order. *)
Class CmpSpec (A : Type) `{Cmp A} : Prop := {
  cmp_eq x y : cmp x y = Eq ↔ x = y;
  cmp_antisym x y : cmp y x = CompOpp (cmp x y);
  cmp_trans x y z : cmp x y = Lt → cmp y z = Lt → cmp x z = Lt
}.

(** *** The working set and its groups *)

(** A version of the working set: read from a non-empty field of a record
    and not a pre-release. *)
Definition parsed_from (data : list entry) (v : Version) : Prop :=
  ∃ entry key s,
    entry ∈ data ∧ key ∈ keys ∧ entry !! key = Some s ∧ s ≠ ""%string
    ∧ parse_version s = Ok v ∧ is_prerelease v = false.

(** The major-version groups of an input. *)
Definition groups (data : list entry) : gmap N (list Version) :=
  group_by_major (extract_versions data).

Definition good_group (item : N * list Version) : Prop :=
  item.2 ≠ [] ∧ ∀ v, v ∈ item.2 → final v.

(** *** The candidates of a group *)

Inductive kind := BelowMin | GroupMin | GroupMax | Midpoint.

(** [s] is the candidate of kind [k] that verify_versions.py computes for
    the group. *)
Definition vv_candidate (k : kind) (group : list Version) (s : string) : Prop :=
  ∃ m M, py_min group = Ok m ∧ py_max group = Ok M ∧
    match k with
    | BelowMin => VerifyVersions.pre_min_of m = Ok (Some s)
    | GroupMin => s = str m
    | GroupMax => s = str M
    | Midpoint => VerifyVersions.mid_of m M = Ok (Some s)
    end.

(** [s] is the candidate of kind [k] that test_ver.py computes for the
    group; it has no candidate of kind [GroupMin]. *)
Definition tv_candidate (k : kind) (group : list Version) (s : string) : Prop :=
  ∃ m M, py_min group = Ok m ∧ py_max group = Ok M ∧
    match k with
    | BelowMin => TestVer.pre_min_of m = Ok (Some s)
    | GroupMin => False
    | GroupMax => s = str M
    | Midpoint => TestVer.mid_of m M = Ok (Some s)
    end.

(** [parts'] is [parts] with its last positive component among the first
    [n] decremented. *)
Definition lowered (parts : list N) (n : nat) (parts' : list N) : Prop :=
  ∃ i x, (i < n)%nat ∧ parts !! i = Some x ∧ (0 < x)%N
    ∧ (∀ j y, (i < j < n)%nat → parts !! j = Some y → y = 0%N)
    ∧ parts' = <[i := (x - 1)%N]> parts.

(** *** Midpoints *)

(** The releases of the group minimum and maximum, zero-padded to the same
    length. *)
Definition len_max (m M : Version) : nat :=
  length (release m) `max` length (release M).
Definition padded (v : Version) (len : nat) : list N := pad (release v) len.

(** The zero-padded releases [p] and [q] first differ at index [k], where
    they hold [a] and [b]. *)
Definition first_diff (p q : list N) (k : nat) (a b : N) : Prop :=
  take k p = take k q ∧ p !! k = Some a ∧ q !! k = Some b ∧ a ≠ b.

(** The midpoint at the depth of the gap: the components before [k], the
    component halfway between [a] and [b], zeros after. *)
Definition halfway_parts (p : list N) (len k : nat) (a b : N) : list N :=
  take k p ++ [(a + (b - a) `div` 2)%N] ++ replicate (len - k - 1) 0%N.

(** The midpoint one level deeper: the components up to and including [k],
    then a component 5. *)
Definition deeper_parts (p : list N) (k : nat) : list N :=
  take (k + 1) p ++ [5%N].

(** The releases of [m] and [M], zero-padded, first differ at a gap of
    more than 1. *)
Definition gap_exceeds_one (m M : Version) : Prop :=
  ∃ k a b,
    first_diff (padded m (len_max m M)) (padded M (len_max m M)) k a b
    ∧ (1 < Z.of_N b - Z.of_N a)%Z.

(** *** Inputs *)

(** A record with both fields. *)
Definition record (deprecated removed : string) : entry :=
  {[ "deprecated_in"%string := deprecated; "removed_in"%string := removed ]}.

(** The string is read as a pre-release. *)
Definition is_prerelease_str (s : string) : bool :=
  match parse_version s with
  | Ok v => is_prerelease v
  | Raise _ => false
  end.

(** The record without its fields that hold a pre-release. *)
Definition drop_prerelease (e : entry) : entry :=
  filter (λ kv, is_prerelease_str kv.2 = false) e.

(** *** The text [str] writes

    These notions serve the proof that [parse] reads the text of a final
    release back. *)

Definition horner (acc : N) (c : ascii) : N := (10 * acc + digit_val c)%N.

(** The characters of the text: digits, lower-case letters, and the three
    marks. *)
Definition is_plain (c : ascii) : bool :=
  is_alnum c || bool_decide (c = "."%char ∨ c = "!"%char ∨ c = "+"%char).

(** The characters before the local label. *)
Definition is_mainc (c : ascii) : bool :=
  is_digit c || bool_decide (c ∈ chars ".!post").

(** The release segment ends before [rest]. *)
Definition release_stop (rest : list ascii) : bool :=
  match rest with
  | [] => true
  | c :: r =>
      negb (is_digit c) && negb (bool_decide (c = "."%char) && starts_with_digit r)
  end.

Definition good_part (p : list ascii) : Prop :=
  p ≠ [] ∧ forallb is_alnum p = true.

Definition post_chars (po : option N) : list ascii :=
  match po with Some n => chars ".post" ++ str_N n | None => [] end.

(** The text of a final release before its local label. *)
Definition main_chars (e : N) (rel : list N) (po : option N) : list ascii :=
  (if (e =? 0)%N then [] else str_N e ++ chars "!")
  ++ join (chars ".") (str_N <$> rel)
  ++ match po with Some n => chars ".post" ++ str_N n | None => [] end.

Definition local_chars (lo : option (list local_seg)) : list ascii :=
  match lo with
  | Some segs => chars "+" ++ join (chars ".") (str_seg <$> segs)
  | None => []
  end.

Ltac ascii_cases c := destruct c as [[] [] [] [] [] [] [] []].

(** *** Ties *)

#[global] Instance pre_letter_eq_dec : EqDecision pre_letter.
Proof. solve_decision. Defined.
#[global] Instance local_seg_eq_dec : EqDecision local_seg.
Proof. solve_decision. Defined.
#[global] Instance Version_eq_dec : EqDecision Version.
Proof. solve_decision. Defined.


(** *** Strings of the harness *)

Definition space : ascii := " "%char.

(** What [sanitize_dirname] does to one character. *)
Definition sanitize_char (c : ascii) : ascii :=
  if bool_decide (c ∈ invalid) then "-"%char else c.

(** * Proofs *)

(** ** Decimal digits *)

Lemma digit_char_digit d :
  (d < 10)%N → is_digit (digit_char d) = true ∧ digit_val (digit_char d) = d.
Proof.
  intros Hd. destruct d as [|p]; [by vm_compute|].
  do 4 (try destruct p as [p|p|]); try lia; by vm_compute.
Qed.

Lemma str_N_go_spec fuel n acc :
  (n < 2 ^ N.of_nat (S fuel))%N →
  ∃ ds, str_N_go (S fuel) n acc = ds ++ acc ∧ ds ≠ []
        ∧ forallb is_digit ds = true
        ∧ ∀ a, foldl horner a ds = (a * 10 ^ N.of_nat (length ds) + n)%N.
Proof.
  revert n acc. induction fuel as [|fuel IH]; intros n acc Hn.
  - assert (n < 10)%N as Hlt by (simpl in Hn; lia).
    destruct (digit_char_digit n Hlt) as [Hd Hv].
    exists [digit_char n]. simpl.
    rewrite N.mod_small by done.
    apply N.ltb_lt in Hlt as ->. rewrite Hd.
    split_and!; [done..|]. intros a. unfold horner. simpl. rewrite Hv. lia.
  - cbn [str_N_go]. destruct (n <? 10)%N eqn:Hlt.
    + apply N.ltb_lt in Hlt. destruct (digit_char_digit n Hlt) as [Hd Hv].
      exists [digit_char n]. rewrite N.mod_small by done. simpl. rewrite Hd.
      split_and!; [done..|]. intros a. unfold horner. simpl. rewrite Hv. lia.
    + apply N.ltb_ge in Hlt.
      assert (n `mod` 10 < 10)%N as Hm by (apply N.mod_lt; lia).
      destruct (digit_char_digit _ Hm) as [Hd Hv].
      destruct (IH (n / 10)%N (digit_char (n `mod` 10) :: acc)) as (ds & Heq & Hne & Hall & Hval).
      { apply N.Div0.div_lt_upper_bound.
        rewrite Nat2N.inj_succ, N.pow_succ_r' in Hn. lia. }
      exists (ds ++ [digit_char (n `mod` 10)]).
      rewrite <- app_assoc. split; [exact Heq|].
      split; [by destruct ds|].
      split; [rewrite forallb_app, Hall; simpl; by rewrite Hd|].
      intros a. rewrite foldl_app, Hval. simpl. unfold horner at 1.
      rewrite Hv, length_app, Nat2N.inj_add, N.pow_add_r. simpl.
      pose proof (N.div_mod n 10). lia.
Qed.

Lemma str_N_spec n :
  str_N n ≠ [] ∧ forallb is_digit (str_N n) = true
  ∧ int_of_digits (str_N n) = n.
Proof.
  destruct (str_N_go_spec (N.to_nat (N.log2 n)) n []) as (ds & Heq & Hne & Hall & Hval).
  { rewrite Nat2N.inj_succ, N2Nat.id.
    destruct (decide (n = 0%N)) as [->|Hn]; [done|].
    apply N.log2_spec. lia. }
  unfold str_N. rewrite Heq, app_nil_r. split_and!; [done..|].
  unfold int_of_digits. change (foldl horner 0%N ds = n). rewrite Hval. lia.
Qed.

Lemma str_N_nonempty n : str_N n ≠ [].
Proof. apply str_N_spec. Qed.
Lemma str_N_digits n : forallb is_digit (str_N n) = true.
Proof. apply str_N_spec. Qed.
Lemma int_of_digits_str_N n : int_of_digits (str_N n) = n.
Proof. apply str_N_spec. Qed.

Lemma is_digit_facts c :
  is_digit c = true →
  is_alnum c = true ∧ is_sep c = false ∧ c ≠ "!"%char ∧ c ≠ "+"%char
  ∧ c ≠ "."%char ∧ c ≠ "-"%char ∧ c ≠ "v"%char.
Proof. ascii_cases c; vm_compute; intros; by split_and!. Qed.

Lemma is_alnum_facts c :
  is_alnum c = true → is_plain c = true ∧ is_sep c = false ∧ c ≠ "+"%char.
Proof. ascii_cases c; vm_compute; intros; by split_and!. Qed.

Lemma is_plain_facts c :
  is_plain c = true → is_space c = false ∧ lower_char c = c.
Proof. ascii_cases c; vm_compute; intros; by split_and!. Qed.

Lemma forallb_digit_alnum ds :
  forallb is_digit ds = true → forallb is_alnum ds = true.
Proof.
  rewrite !forallb_forall. intros H c Hc. by apply is_digit_facts, H.
Qed.
Lemma forallb_alnum_plain ds :
  forallb is_alnum ds = true → forallb is_plain ds = true.
Proof.
  rewrite !forallb_forall. intros H c Hc. by apply is_alnum_facts, H.
Qed.

(** ** The scanner *)

Lemma span_digits_app ds rest :
  forallb is_digit ds = true → starts_with_digit rest = false →
  span_digits (ds ++ rest) = (ds, rest).
Proof.
  intros Hds Hrest. induction ds as [|d ds IH]; simpl in *.
  - destruct rest as [|c r]; [done|]. simpl in *. by rewrite Hrest.
  - apply andb_true_iff in Hds as [-> Hds]. by rewrite IH.
Qed.

Lemma span_digits_all ds :
  forallb is_digit ds = true → span_digits ds = (ds, []).
Proof.
  intros. rewrite <- (app_nil_r ds) at 1. by apply span_digits_app.
Qed.

Lemma dropwhile_head {A} (p : A → bool) l :
  (∀ x, head l = Some x → p x = false) → dropwhile p l = l.
Proof. destruct l as [|x l]; [done|]. intros H. simpl. by rewrite H. Qed.

Lemma strip_space_plain cs :
  forallb is_plain cs = true → strip_space cs = cs.
Proof.
  rewrite forallb_forall. intros H. unfold strip_space.
  rewrite (dropwhile_head _ cs).
  - rewrite dropwhile_head; [apply reverse_involutive|].
    intros x Hx. rewrite head_reverse in Hx. apply last_Some_elem_of in Hx.
    apply is_plain_facts, H. by apply list_elem_of_In.
  - intros x Hx. apply is_plain_facts, H. apply list_elem_of_In.
    destruct cs; simplify_eq/=. left.
Qed.

Lemma lower_plain cs :
  forallb is_plain cs = true → lower_char <$> cs = cs.
Proof.
  induction cs as [|c cs IH]; [done|]. intros H. simpl in H.
  apply andb_true_iff in H as [Hc Hcs].
  rewrite fmap_cons, IH by done. f_equal. by apply is_plain_facts.
Qed.

Lemma split_plus_none cs :
  "+"%char ∉ cs → split_plus cs = (cs, None).
Proof.
  induction cs as [|c cs IH]; [done|]. intros [Hc Hcs]%not_elem_of_cons.
  simpl. rewrite bool_decide_eq_false_2 by done. by rewrite IH.
Qed.

Lemma split_plus_some cs l :
  "+"%char ∉ cs → split_plus (cs ++ "+"%char :: l) = (cs, Some l).
Proof.
  induction cs as [|c cs IH]; [done|]. intros [Hc Hcs]%not_elem_of_cons.
  simpl. rewrite bool_decide_eq_false_2 by done. by rewrite IH.
Qed.

(** ** The release segment *)

Lemma parse_release_go_digits cur ds rest :
  forallb is_digit ds = true →
  parse_release_go cur (ds ++ rest) = parse_release_go (cur ++ ds) rest.
Proof.
  revert cur. induction ds as [|d ds IH]; intros cur Hds; simpl in *.
  - by rewrite app_nil_r.
  - apply andb_true_iff in Hds as [-> Hds]. rewrite IH by done.
    by rewrite <- app_assoc.
Qed.

Lemma parse_release_go_stop cur rest :
  release_stop rest = true →
  parse_release_go cur rest = ([int_of_digits cur], rest).
Proof.
  destruct rest as [|c r]; [done|]. simpl.
  intros [Hc Hd]%andb_true_iff. apply negb_true_iff in Hc, Hd.
  by rewrite Hc, Hd.
Qed.

Lemma parse_release_go_dot cur d tl :
  is_digit d = true →
  parse_release_go cur ("."%char :: d :: tl)
  = (int_of_digits cur :: (parse_release_go [] (d :: tl)).1,
     (parse_release_go [] (d :: tl)).2).
Proof.
  intros Hd. cbn [parse_release_go].
  assert (is_digit "." = false) as -> by done.
  rewrite bool_decide_eq_true_2 by done. cbn [starts_with_digit andb].
  rewrite Hd. by destruct (parse_release_go _ tl).
Qed.

Lemma parse_release_go_join rel x rest :
  release_stop rest = true →
  parse_release_go [] (join (chars ".") (str_N <$> x :: rel) ++ rest)
  = (x :: rel, rest).
Proof.
  intros Hrest. revert x. induction rel as [|y rel IH]; intros x.
  - simpl. rewrite parse_release_go_digits by apply str_N_digits. simpl.
    rewrite parse_release_go_stop by done. by rewrite int_of_digits_str_N.
  - change (join (chars ".") (str_N <$> x :: y :: rel))
      with (str_N x ++ "."%char :: join (chars ".") (str_N <$> y :: rel)).
    rewrite <- app_assoc.
    rewrite parse_release_go_digits by apply str_N_digits.
    rewrite <- app_comm_cons.
    pose proof (str_N_spec y) as (Hne & Hdig & _).
    assert (∃ d tl, join (chars ".") (str_N <$> y :: rel) ++ rest = d :: tl
                    ∧ is_digit d = true) as (d & tl & Heq & Hd).
    { destruct (str_N y) as [|d ds] eqn:Hy; [done|].
      simpl in Hdig. apply andb_true_iff in Hdig as [Hd _].
      destruct rel; simpl; rewrite Hy; simpl; eauto. }
    specialize (IH y). rewrite Heq in IH |- *.
    rewrite parse_release_go_dot, IH by done. simpl.
    by rewrite int_of_digits_str_N.
Qed.

Lemma parse_release_go_nonempty cur cs : (parse_release_go cur cs).1 ≠ [].
Proof.
  revert cur. induction cs as [|c cs IH]; intros cur; simpl; [done|].
  repeat case_match; simpl; try done; apply IH.
Qed.

(** ** The local label *)

Lemma split_local_alnum cur p rest :
  forallb is_alnum p = true →
  split_local cur (p ++ rest) = split_local (cur ++ p) rest.
Proof.
  revert cur. induction p as [|c p IH]; intros cur Hp; simpl in *.
  - by rewrite app_nil_r.
  - apply andb_true_iff in Hp as [-> Hp]. rewrite IH by done.
    by rewrite <- app_assoc.
Qed.

Lemma split_local_dot p rest :
  p ≠ [] →
  split_local p ("."%char :: rest) = (p ::.) <$> split_local [] rest.
Proof. by destruct p. Qed.

Lemma split_local_join parts :
  parts ≠ [] → Forall good_part parts →
  split_local [] (join (chars ".") parts) = Some parts.
Proof.
  induction parts as [|p parts IH]; [done|]. intros _ Hall.
  apply Forall_cons in Hall as [[Hp Halnum] Hall].
  destruct parts as [|q parts].
  - simpl. rewrite <- (app_nil_r p) at 1. rewrite split_local_alnum by done.
    simpl. by destruct p.
  - change (join (chars ".") (p :: q :: parts))
      with (p ++ "."%char :: join (chars ".") (q :: parts)).
    rewrite split_local_alnum, app_nil_l, split_local_dot by done.
    by rewrite IH.
Qed.

Lemma split_local_good cur cs parts :
  forallb is_alnum cur = true →
  split_local cur cs = Some parts →
  parts ≠ [] ∧ Forall good_part parts.
Proof.
  revert cur parts. induction cs as [|c cs IH]; intros cur parts Hcur; simpl.
  - destruct cur as [|a cur]; [done|]. intros [= <-].
    split; [done|]. by repeat constructor.
  - destruct (is_alnum c) eqn:Hc.
    + apply IH. rewrite forallb_app, Hcur. simpl. by rewrite Hc.
    + destruct (is_sep c); [|done]. destruct cur as [|a cur]; [done|].
      destruct (split_local [] cs) as [ps|] eqn:Hps; [|done].
      intros [= <-]. destruct (IH [] ps eq_refl Hps) as [_ Hall].
      split; [done|]. constructor; [done|exact Hall].
Qed.

Lemma local_segment_wf p : good_part p → wf_seg (local_segment p).
Proof.
  intros [Hne Hal]. unfold local_segment.
  destruct (forallb is_digit p) eqn:Hd; simpl; done.
Qed.

Lemma local_segment_str_seg s : wf_seg s → local_segment (str_seg s) = s.
Proof.
  destruct s as [n|p]; simpl; unfold local_segment.
  - intros _. by rewrite str_N_digits, int_of_digits_str_N.
  - by intros (_ & _ & ->).
Qed.

Lemma str_seg_good s : wf_seg s → good_part (str_seg s).
Proof.
  destruct s as [n|p]; simpl.
  - intros _. split; [apply str_N_nonempty|].
    apply forallb_digit_alnum, str_N_digits.
  - by intros (? & ? & _).
Qed.

Lemma parse_local_join segs :
  segs ≠ [] → Forall wf_seg segs →
  parse_local (join (chars ".") (str_seg <$> segs)) = Some segs.
Proof.
  intros Hne Hall. unfold parse_local.
  rewrite split_local_join.
  - simpl. f_equal. rewrite <- list_fmap_compose.
    induction Hall as [|s segs Hs Hall IH]; [done|]. simpl.
    rewrite local_segment_str_seg by done. f_equal.
    destruct segs; [done|]. by apply IH.
  - by destruct segs.
  - apply Forall_fmap. eapply Forall_impl; [done|]. apply str_seg_good.
Qed.

(** ** Reading the text of a final release back *)

Lemma is_mainc_facts c :
  is_mainc c = true → is_plain c = true ∧ c ≠ "+"%char.
Proof. ascii_cases c; vm_compute; intros; by split_and!. Qed.

Lemma forallb_digit_mainc ds :
  forallb is_digit ds = true → forallb is_mainc ds = true.
Proof.
  rewrite !forallb_forall. intros H c Hc. unfold is_mainc. by rewrite H.
Qed.

Lemma forallb_join (p : ascii → bool) sep parts :
  forallb p sep = true → Forall (λ x, forallb p x = true) parts →
  forallb p (join sep parts) = true.
Proof.
  intros Hsep. induction 1 as [|x parts Hx Hall IH]; [done|].
  destruct parts as [|y parts]; [done|].
  change (join sep (x :: y :: parts)) with (x ++ sep ++ join sep (y :: parts)).
  by rewrite !forallb_app, Hx, Hsep, IH.
Qed.

Lemma release_chars_mainc rel :
  forallb is_mainc (join (chars ".") (str_N <$> rel)) = true.
Proof.
  apply forallb_join; [done|]. apply Forall_fmap, Forall_forall.
  intros x _. apply forallb_digit_mainc, str_N_digits.
Qed.

Lemma post_chars_mainc po : forallb is_mainc (post_chars po) = true.
Proof.
  destruct po as [n|]; [|done]. unfold post_chars.
  rewrite forallb_app, (forallb_digit_mainc (str_N n)) by apply str_N_digits.
  done.
Qed.

Lemma main_chars_mainc e rel po : forallb is_mainc (main_chars e rel po) = true.
Proof.
  unfold main_chars. fold (post_chars po).
  rewrite !forallb_app, release_chars_mainc, post_chars_mainc.
  destruct (e =? 0)%N; [done|].
  rewrite forallb_app, (forallb_digit_mainc (str_N e)) by apply str_N_digits.
  done.
Qed.

Lemma str_N_cons n : ∃ d ds, str_N n = d :: ds ∧ is_digit d = true.
Proof.
  pose proof (str_N_spec n) as (Hne & Hdig & _).
  destruct (str_N n) as [|d ds]; [done|]. simpl in Hdig.
  apply andb_true_iff in Hdig as [Hd _]. eauto.
Qed.

Lemma release_chars_cons x rel :
  ∃ tl, join (chars ".") (str_N <$> x :: rel) = str_N x ++ tl
        ∧ (tl = [] ∨ ∃ tl', tl = "."%char :: tl').
Proof.
  destruct rel as [|y rel].
  - exists []. simpl. rewrite app_nil_r. eauto.
  - eexists. split; [reflexivity|]. right. eauto.
Qed.

Lemma post_chars_stop po : release_stop (post_chars po) = true.
Proof. by destruct po. Qed.

Lemma post_chars_head po :
  post_chars po = [] ∨ ∃ tl, post_chars po = "."%char :: tl.
Proof. destruct po; [right|left]; eauto. Qed.

Lemma parse_epoch_main e rel po :
  rel ≠ [] →
  parse_epoch (main_chars e rel po)
  = (e, join (chars ".") (str_N <$> rel) ++ post_chars po).
Proof.
  intros Hrel. unfold main_chars. fold (post_chars po).
  destruct rel as [|x rel]; [done|].
  destruct (e =? 0)%N eqn:He.
  - apply N.eqb_eq in He as ->. rewrite app_nil_l.
    destruct (release_chars_cons x rel) as (tl & -> & Htl).
    rewrite <- app_assoc. unfold parse_epoch.
    rewrite span_digits_app; [| apply str_N_digits |].
    + destruct (str_N_cons x) as (d & ds & -> & _).
      destruct Htl as [->|[tl' ->]]; simpl.
      * by destruct (post_chars_head po) as [->|[? ->]].
      * done.
    + destruct Htl as [->|[tl' ->]]; [|done].
      by destruct (post_chars_head po) as [->|[? ->]].
  - rewrite <- app_assoc. unfold parse_epoch.
    rewrite span_digits_app; [| apply str_N_digits | done].
    destruct (str_N_cons e) as (d & ds & Heq & _). rewrite Heq.
    simpl. rewrite <- Heq. by rewrite int_of_digits_str_N.
Qed.

Lemma parse_release_main rel po :
  rel ≠ [] →
  parse_release (join (chars ".") (str_N <$> rel) ++ post_chars po)
  = Some (rel, post_chars po).
Proof.
  intros Hrel. destruct rel as [|x rel]; [done|]. unfold parse_release.
  rewrite parse_release_go_join by apply post_chars_stop.
  destruct (release_chars_cons x rel) as (tl & -> & _).
  destruct (str_N_cons x) as (d & ds & -> & Hd). simpl. by rewrite Hd.
Qed.

Lemma parse_pre_post_chars po : parse_pre (post_chars po) = (None, post_chars po).
Proof. by destruct po. Qed.

Lemma skip_sep_digits n : skip_sep (str_N n) = str_N n.
Proof.
  destruct (str_N_cons n) as (d & ds & -> & Hd). simpl.
  apply is_digit_facts in Hd as (_ & -> & _). done.
Qed.

Lemma parse_post_post_chars po : parse_post (post_chars po) = (po, []).
Proof.
  destruct po as [n|]; [|done]. unfold post_chars, parse_post.
  change (chars ".post" ++ str_N n)
    with ("."%char :: "p"%char :: "o"%char :: "s"%char :: "t"%char :: str_N n).
  cbn beta iota. rewrite bool_decide_eq_false_2 by done. cbn [andb].
  unfold parse_post_letter, parse_letter.
  change (match_alt _ _) with (Some ((), str_N n)).
  cbn beta iota. rewrite skip_sep_digits, span_digits_all by apply str_N_digits.
  by rewrite int_of_digits_str_N.
Qed.

Lemma local_chars_plain lo :
  (∀ segs, lo = Some segs → segs ≠ [] ∧ Forall wf_seg segs) →
  forallb is_plain (local_chars lo) = true.
Proof.
  destruct lo as [segs|]; [|done]. intros H.
  destruct (H segs eq_refl) as [_ Hall]. unfold local_chars.
  rewrite forallb_app. simpl. apply forallb_join; [done|].
  apply Forall_fmap. eapply Forall_impl; [done|]. intros s Hs.
  apply forallb_alnum_plain, str_seg_good, Hs.
Qed.

Lemma split_plus_main e rel po lo :
  split_plus (main_chars e rel po ++ local_chars lo)
  = (main_chars e rel po,
     (λ segs, join (chars ".") (str_seg <$> segs)) <$> lo).
Proof.
  assert ("+"%char ∉ main_chars e rel po) as Hno.
  { intros Hin. pose proof (main_chars_mainc e rel po) as H.
    rewrite forallb_forall in H. apply list_elem_of_In, H in Hin.
    by apply is_mainc_facts in Hin as [_ ?]. }
  destruct lo as [segs|]; simpl.
  - by apply split_plus_some.
  - rewrite app_nil_r. by apply split_plus_none.
Qed.

Lemma str_chars_final v :
  pre v = None → dev v = None →
  str_chars v = main_chars (epoch v) (release v) (post v) ++ local_chars (local v).
Proof.
  intros Hpre Hdev. unfold str_chars, main_chars, local_chars.
  rewrite Hpre, Hdev. simpl. by rewrite <- !app_assoc.
Qed.

Lemma main_chars_head e rel po :
  rel ≠ [] → ∃ d tl, main_chars e rel po = d :: tl ∧ is_digit d = true.
Proof.
  intros Hrel. unfold main_chars. destruct (e =? 0)%N.
  - destruct rel as [|x rel]; [done|].
    destruct (release_chars_cons x rel) as (tl & -> & _).
    destruct (str_N_cons x) as (d & ds & -> & Hd). simpl. eauto.
  - destruct (str_N_cons e) as (d & ds & -> & Hd). simpl. eauto.
Qed.

(** [parse(str(v))] is [v] for a final release. *)
Lemma parse_str v :
  wf_version v → pre v = None → dev v = None →
  parse_version (str v) = Ok v.
Proof.
  intros [Hrel Hloc] Hpre Hdev. unfold parse_version, str, chars.
  rewrite list_ascii_of_string_of_list_ascii.
  rewrite (str_chars_final v Hpre Hdev). unfold parse_chars.
  assert (forallb is_plain (main_chars (epoch v) (release v) (post v)
                            ++ local_chars (local v)) = true) as Hplain.
  { rewrite forallb_app, local_chars_plain by done.
    rewrite andb_true_r. rewrite forallb_forall. intros c Hc.
    pose proof (main_chars_mainc (epoch v) (release v) (post v)) as H.
    rewrite forallb_forall in H. by apply is_mainc_facts, H. }
  rewrite strip_space_plain, lower_plain by done.
  destruct (main_chars_head (epoch v) (release v) (post v) Hrel)
    as (d & tl & Hhd & Hd).
  assert (∀ rest, match main_chars (epoch v) (release v) (post v) ++ rest with
          | c :: r => if bool_decide (c = "v"%char) then r else
                      main_chars (epoch v) (release v) (post v) ++ rest
          | [] => main_chars (epoch v) (release v) (post v) ++ rest
          end = main_chars (epoch v) (release v) (post v) ++ rest) as ->.
  { intros rest. rewrite Hhd. simpl.
    apply is_digit_facts in Hd. rewrite bool_decide_eq_false_2; [done|].
    by destruct Hd as (_ & _ & _ & _ & _ & _ & ?). }
  rewrite split_plus_main, parse_epoch_main, parse_release_main by done.
  rewrite parse_pre_post_chars, parse_post_post_chars. cbn.
  destruct v as [e rel pr po de lo]; simpl in *. subst pr de.
  destruct lo as [segs|]; simpl; [|done].
  destruct (Hloc segs eq_refl) as [Hne Hall].
  by rewrite parse_local_join.
Qed.

Lemma parse_release_nonempty cs rel r :
  parse_release cs = Some (rel, r) → rel ≠ [].
Proof.
  unfold parse_release. case_match; [|done]. intros [= Heq].
  pose proof (parse_release_go_nonempty [] cs) as Hne.
  by rewrite Heq in Hne.
Qed.

Lemma parse_local_wf l lo :
  Some <$> parse_local l = Some lo →
  ∀ segs, lo = Some segs → segs ≠ [] ∧ Forall wf_seg segs.
Proof.
  intros H segs ->. apply fmap_Some in H as (? & H & ?). simplify_eq.
  unfold parse_local in H. apply fmap_Some in H as (parts & H & ->).
  apply split_local_good in H as [Hne Hall]; [|done].
  split; [by destruct parts|].
  apply Forall_fmap. eapply Forall_impl; [done|]. apply local_segment_wf.
Qed.

(** A version read by [parse] is well formed. *)
Lemma parse_chars_wf cs v : parse_chars cs = Ok v → wf_version v.
Proof.
  unfold parse_chars. intros H.
  repeat case_match; simplify_eq/=;
    (split; simpl;
     [by eapply parse_release_nonempty
     | first [done | by eapply parse_local_wf]]).
Qed.

Lemma parse_version_wf s v : parse_version s = Ok v → wf_version v.
Proof. apply parse_chars_wf. Qed.

(** A dotted string of integers is read back as the release it spells. *)
Lemma parse_join_dots parts :
  parts ≠ [] →
  parse_version (join_dots parts) = Ok (mkVersion 0 parts None None None None).
Proof.
  intros Hne.
  assert (join_dots parts = str (mkVersion 0 parts None None None None)) as ->.
  { unfold join_dots, str, str_chars. simpl. by rewrite !app_nil_r. }
  by apply parse_str.
Qed.

(** ** Release tuples without their trailing zeros *)

Lemma dropwhile_snoc {A} (p : A → bool) l x :
  dropwhile p (l ++ [x])
  = match dropwhile p l with
    | [] => if p x then [] else [x]
    | r => r ++ [x]
    end.
Proof.
  induction l as [|y l IH]; simpl; [done|].
  destruct (p y); [exact IH|done].
Qed.

Lemma strip_zeros_cons x l :
  strip_zeros (x :: l)
  = match strip_zeros l with
    | [] => if (x =? 0)%N then [] else [x]
    | s => x :: s
    end.
Proof.
  unfold strip_zeros. rewrite reverse_cons, dropwhile_snoc.
  destruct (dropwhile _ (reverse l)) as [|y r] eqn:Hd.
  - rewrite reverse_nil. by destruct (x =? 0)%N.
  - rewrite reverse_app, reverse_singleton. simpl.
    destruct (reverse (y :: r)) eqn:Hr; [|done].
    apply (f_equal reverse) in Hr. by rewrite reverse_involutive in Hr.
Qed.

Lemma strip_zeros_snoc_zero l : strip_zeros (l ++ [0%N]) = strip_zeros l.
Proof. unfold strip_zeros. by rewrite reverse_app. Qed.

Lemma strip_zeros_replicate l k :
  strip_zeros (l ++ replicate k 0%N) = strip_zeros l.
Proof.
  induction k as [|k IH]; [by rewrite app_nil_r|].
  rewrite replicate_S_end, app_assoc, strip_zeros_snoc_zero. exact IH.
Qed.

Lemma strip_zeros_pad l n : strip_zeros (pad l n) = strip_zeros l.
Proof. apply strip_zeros_replicate. Qed.

Lemma list_cmp_strip_cons x a b :
  list_cmp (strip_zeros (x :: a)) (strip_zeros (x :: b))
  = list_cmp (strip_zeros a) (strip_zeros b).
Proof.
  rewrite !strip_zeros_cons.
  destruct (strip_zeros a) as [|a0 sa], (strip_zeros b) as [|b0 sb];
    destruct (x =? 0)%N; simpl; unfold cmp, N_Cmp;
    rewrite ?N.compare_refl; done.
Qed.

(** The order of two releases is settled at the first index where they
    differ. *)
Lemma list_cmp_strip_first_diff i a b x y :
  take i a = take i b → a !! i = Some x → b !! i = Some y → x ≠ y →
  list_cmp (strip_zeros a) (strip_zeros b) = (x ?= y)%N.
Proof.
  revert a b. induction i as [|i IH]; intros [|a0 a] [|b0 b] Ht Ha Hb Hne;
    simplify_eq/=.
  - rewrite !strip_zeros_cons.
    destruct (x ?= y)%N eqn:Hc.
    + by apply N.compare_eq_iff in Hc.
    + assert (x < y)%N as Hlt by (by apply N.compare_lt_iff).
      assert ((y =? 0)%N = false) as Hy by (apply N.eqb_neq; lia).
      destruct (strip_zeros a), (strip_zeros b), (x =? 0)%N; rewrite ?Hy;
        simpl; unfold cmp, N_Cmp; rewrite ?Hc; done.
    + assert (y < x)%N as Hlt by (by apply N.compare_gt_iff).
      assert ((x =? 0)%N = false) as Hx by (apply N.eqb_neq; lia).
      destruct (strip_zeros a), (strip_zeros b), (y =? 0)%N; rewrite ?Hx;
        simpl; unfold cmp, N_Cmp; rewrite ?Hc; done.
  - rewrite list_cmp_strip_cons. by apply IH.
Qed.

(** ** The order of versions *)

Lemma cmp_pair {A B} `{Cmp A, Cmp B} (a c : A) (b d : B) :
  cmp (a, b) (c, d) = match cmp a c with Eq => cmp b d | x => x end.
Proof. done. Qed.

Lemma Vcmp_epoch v w :
  (epoch v ?= epoch w)%N ≠ Eq → Vcmp v w = (epoch v ?= epoch w)%N.
Proof.
  unfold Vcmp, _cmpkey, key_t. cbv zeta. rewrite !cmp_pair.
  change (cmp (epoch v) (epoch w)) with (epoch v ?= epoch w)%N.
  by destruct (epoch v ?= epoch w)%N.
Qed.

Lemma Vcmp_release v w :
  epoch v = epoch w → rel_cmp v w ≠ Eq → Vcmp v w = rel_cmp v w.
Proof.
  unfold Vcmp, _cmpkey, key_t. cbv zeta. rewrite !cmp_pair.
  change (cmp (epoch v) (epoch w)) with (epoch v ?= epoch w)%N.
  change (cmp (strip_zeros (release v)) (strip_zeros (release w)))
    with (rel_cmp v w).
  intros ->. rewrite N.compare_refl. by destruct (rel_cmp v w).
Qed.

Lemma Vcmp_release_Eq v w :
  epoch v = epoch w → Vcmp v w = Lt → rel_cmp v w ≠ Gt.
Proof.
  intros He Hlt Hgt. rewrite Vcmp_release in Hlt by (done || by rewrite Hgt).
  by rewrite Hgt in Hlt.
Qed.

Lemma Vlt_epoch v w : (epoch v < epoch w)%N → Vlt v w.
Proof.
  intros H. apply N.compare_lt_iff in H. unfold Vlt.
  rewrite Vcmp_epoch; [done|by rewrite H].
Qed.

Lemma Vlt_release v w : epoch v = epoch w → rel_cmp v w = Lt → Vlt v w.
Proof.
  intros He H. unfold Vlt. rewrite Vcmp_release; [done..|by rewrite H].
Qed.

Lemma Vltb_Vlt v w : Vltb v w = true ↔ Vlt v w.
Proof. unfold Vltb, Vlt. apply bool_decide_eq_true. Qed.

(** ** Reading the versions *)

Lemma extract_key_spec (entry : entry) vs key v :
  v ∈ extract_key entry vs key
  ↔ v ∈ vs ∨ ∃ s, entry !! key = Some s ∧ s ≠ ""%string
                  ∧ parse_version s = Ok v ∧ is_prerelease v = false.
Proof.
  unfold extract_key. destruct (entry !! key) as [s|] eqn:Hs.
  - case_bool_decide as Hne.
    { split; [auto|]. intros [?|(? & ? & ? & _)]; [done|congruence]. }
    destruct (parse_version s) as [w|e] eqn:Hp.
    + destruct (is_prerelease w) eqn:Hw.
      * split; [auto|]. intros [?|(? & ? & _ & ? & ?)]; [done|congruence].
      * rewrite elem_of_app, list_elem_of_singleton. split.
        -- intros [?| ->]; [by left|]. right. by exists s.
        -- intros [?|(? & ? & _ & ? & ?)]; [by left|]. right. congruence.
    + split; [auto|]. intros [?|(? & ? & _ & ? & ?)]; [done|congruence].
  - split; [auto|]. intros [?|(? & ? & _)]; [done|congruence].
Qed.

Lemma extract_entry_spec (entry : entry) vs ks v :
  v ∈ foldl (extract_key entry) vs ks
  ↔ v ∈ vs ∨ ∃ key s, key ∈ ks ∧ entry !! key = Some s ∧ s ≠ ""%string
                      ∧ parse_version s = Ok v ∧ is_prerelease v = false.
Proof.
  revert vs. induction ks as [|k ks IH]; intros vs; simpl.
  - split; [auto|]. intros [?|(? & ? & []%elem_of_nil & _)]; done.
  - rewrite IH, extract_key_spec. split.
    + intros [[?|(s & ?)]|(key & s & ? & ?)]; [by left|right..].
      * exists k, s. split; [left|done].
      * exists key, s. split; [by right|done].
    + intros [?|(key & s & [->|?]%elem_of_cons & ?)]; [by do 2 left| |].
      * left. right. by exists s.
      * right. by exists key, s.
Qed.

Lemma extract_versions_spec data v :
  v ∈ extract_versions data ↔ parsed_from data v.
Proof.
  unfold extract_versions, parsed_from.
  induction data as [|e data IH] using rev_ind.
  - simpl. split; [by intros ?%elem_of_nil|].
    by intros (? & ? & ? & ?%elem_of_nil & _).
  - rewrite foldl_app. cbn [foldl]. rewrite extract_entry_spec, IH. split.
    + intros [(e' & k & s & ? & ?)|(k & s & ? & ?)].
      * exists e', k, s. split; [|done]. apply elem_of_app. by left.
      * exists e, k, s. split; [|done]. apply elem_of_app. right. left.
    + intros (e' & k & s & [?| ->%list_elem_of_singleton]%elem_of_app & ?).
      * left. by exists e', k, s.
      * right. by exists k, s.
Qed.

Lemma not_prerelease_final v :
  wf_version v → is_prerelease v = false → final v.
Proof.
  unfold is_prerelease, final. intros Hwf [H1 H2]%orb_false_iff.
  apply bool_decide_eq_false in H1, H2.
  split_and!; [done|..]; apply eq_None_not_Some; done.
Qed.

Lemma extract_versions_final data v : v ∈ extract_versions data → final v.
Proof.
  intros (e & k & s & _ & _ & _ & _ & Hp & Hpre)%extract_versions_spec.
  apply not_prerelease_final; [by eapply parse_version_wf|done].
Qed.

(** ** Grouping *)

Lemma group_by_major_snoc vs v :
  group_by_major (vs ++ [v])
  = alter (λ group, group ++ [v]) (get_major v)
      (if bool_decide (is_Some (group_by_major vs !! get_major v))
       then group_by_major vs
       else <[get_major v := []]> (group_by_major vs)).
Proof. unfold group_by_major. by rewrite foldl_app. Qed.

Lemma group_by_major_spec vs major g :
  group_by_major vs !! major = Some g →
  g ≠ [] ∧ ∀ v, v ∈ g → v ∈ vs ∧ get_major v = major.
Proof.
  revert major g. induction vs as [|w vs IH] using rev_ind; intros major g.
  - unfold group_by_major. simpl. by rewrite lookup_empty.
  - rewrite group_by_major_snoc.
    destruct (decide (get_major w = major)) as [<-|Hne].
    + rewrite lookup_alter_eq. case_bool_decide as Hsome.
      * destruct Hsome as [g0 Hg0]. rewrite Hg0. simpl. intros [= <-].
        destruct (IH _ _ Hg0) as [_ Hin]. split; [by destruct g0|].
        intros v [Hv| ->%list_elem_of_singleton]%elem_of_app.
        -- destruct (Hin v Hv). split; [|done]. apply elem_of_app. by left.
        -- split; [|done]. apply elem_of_app. right. by left.
      * rewrite lookup_insert_eq. simpl. intros [= <-]. split; [done|].
        intros v ->%list_elem_of_singleton. split; [|done].
        apply elem_of_app. right. by left.
    + rewrite lookup_alter_ne by done. case_bool_decide.
      * intros Hg. destruct (IH _ _ Hg) as [? Hin]. split; [done|].
        intros v Hv. destruct (Hin v Hv). split; [|done].
        apply elem_of_app. by left.
      * rewrite lookup_insert_ne by done.
        intros Hg. destruct (IH _ _ Hg) as [? Hin]. split; [done|].
        intros v Hv. destruct (Hin v Hv). split; [|done].
        apply elem_of_app. by left.
Qed.

Lemma groups_spec data major g :
  groups data !! major = Some g →
  g ≠ [] ∧ ∀ v, v ∈ g → parsed_from data v ∧ final v ∧ get_major v = major.
Proof.
  intros [Hne Hin]%group_by_major_spec. split; [done|]. intros v Hv.
  destruct (Hin v Hv) as [Hvs Hmaj]. split_and!; [|by eapply extract_versions_final|done].
  by apply extract_versions_spec.
Qed.

(** ** Minimum and maximum *)

Lemma foldl_choice {A} (f : A → A → A) x l :
  (∀ a b, f a b = a ∨ f a b = b) → foldl f x l ∈ x :: l.
Proof.
  intros Hf. revert x. induction l as [|y l IH]; intros x; simpl; [left|].
  destruct (Hf x y) as [-> | ->].
  - specialize (IH x). apply elem_of_cons in IH as [->|?]; [left|].
    by do 2 right.
  - right. apply IH.
Qed.

Lemma py_min_Ok g : g ≠ [] → ∃ m, py_min g = Ok m ∧ m ∈ g.
Proof.
  destruct g as [|x g]; [done|]. intros _. eexists. split; [done|].
  apply foldl_choice. intros a b. destruct (Vltb b a); auto.
Qed.

Lemma py_max_Ok g : g ≠ [] → ∃ M, py_max g = Ok M ∧ M ∈ g.
Proof.
  destruct g as [|x g]; [done|]. intros _. eexists. split; [done|].
  apply foldl_choice. intros a b. destruct (Vgtb b a); auto.
Qed.

Lemma py_min_elem g m : py_min g = Ok m → m ∈ g.
Proof.
  intros H. destruct g as [|x g]; [done|].
  destruct (py_min_Ok (x :: g)) as (m' & Hm' & Hin); [done|]. congruence.
Qed.

Lemma py_max_elem g M : py_max g = Ok M → M ∈ g.
Proof.
  intros H. destruct g as [|x g]; [done|].
  destruct (py_max_Ok (x :: g)) as (m' & Hm' & Hin); [done|]. congruence.
Qed.

(** ** The scan for the below-minimum candidate *)

Lemma find_lower_spec parts n :
  (n ≤ length parts)%nat →
  (find_lower parts n = Ok None
   ∧ ∀ j y, (j < n)%nat → parts !! j = Some y → y = 0%N)
  ∨ ∃ parts', find_lower parts n = Ok (Some parts') ∧ lowered parts n parts'.
Proof.
  induction n as [|i IH]; intros Hn.
  - left. split; [done|]. lia.
  - simpl. unfold getitem.
    destruct (lookup_lt_is_Some_2 parts i) as [x Hx]; [lia|].
    rewrite Hx. simpl. destruct (0 <? x)%N eqn:Hpos.
    + right. unfold setitem. rewrite decide_True by lia. simpl.
      eexists. split; [done|]. exists i, x. apply N.ltb_lt in Hpos.
      split_and!; [lia|done|done| |done]. intros j y ?. lia.
    + apply N.ltb_ge in Hpos. destruct IH as [[-> Hz]|(p' & -> & Hl)]; [lia|..].
      * left. split; [done|]. intros j y Hj Hy.
        destruct (decide (j = i)) as [->|]; [|apply (Hz j); [lia|done]].
        rewrite Hx in Hy. injection Hy as <-. lia.
      * right. eexists. split; [done|].
        destruct Hl as (k & z & Hk & Hz & Hpz & Hzeros & ->).
        exists k, z. split_and!; [lia|done|done| |done].
        intros j y Hj Hy. destruct (decide (j = i)) as [->|].
        -- rewrite Hx in Hy. injection Hy as <-. lia.
        -- apply (Hzeros j); [lia|done].
Qed.

Lemma lowered_nonempty parts n parts' : lowered parts n parts' → parts' ≠ [].
Proof.
  intros (i & x & _ & Hx & _ & _ & ->) Hnil.
  apply (f_equal length) in Hnil. rewrite length_insert in Hnil.
  apply lookup_lt_Some in Hx. simpl in Hnil. lia.
Qed.

Lemma join_dots_nonempty parts : parts ≠ [] → join_dots parts ≠ ""%string.
Proof.
  intros Hne Heq. pose proof (parse_join_dots parts Hne) as Hp.
  rewrite Heq in Hp. done.
Qed.

Lemma length_pad l n : (length l ≤ n)%nat → length (pad l n) = n.
Proof. intros. unfold pad. rewrite length_app, length_replicate. lia. Qed.

Lemma length_padded_min m M : length (padded m (len_max m M)) = len_max m M.
Proof. apply length_pad. unfold len_max. lia. Qed.
Lemma length_padded_max m M : length (padded M (len_max m M)) = len_max m M.
Proof. apply length_pad. unfold len_max. lia. Qed.

(** ** The scan for the first differing component *)

Lemma find_mid_spec p q len i n :
  length p = len → length q = len → (i + n = len)%nat →
  take i p = take i q →
  (VerifyVersions.find_mid p q len i n = Ok None ∧ p = q)
  ∨ ∃ k a b, first_diff p q k a b
      ∧ VerifyVersions.find_mid p q len i n
        = Ok (Some (if (1 <? Z.of_N b - Z.of_N a)%Z
                    then halfway_parts p len k a b
                    else deeper_parts p k)).
Proof.
  intros Hp Hq. revert i. induction n as [|n IH]; intros i Hin Htake.
  - left. split; [done|]. rewrite Nat.add_0_r in Hin. subst i.
    rewrite !take_ge in Htake by lia. done.
  - cbn [find_mid]. unfold getitem.
    destruct (lookup_lt_is_Some_2 p i) as [a Ha]; [lia|].
    destruct (lookup_lt_is_Some_2 q i) as [b Hb]; [lia|].
    rewrite Ha, Hb. cbn. case_bool_decide as Hne.
    + right. exists i, a, b. split; [done|].
      destruct (1 <? Z.of_N b - Z.of_N a)%Z eqn:Hgap; [|done].
      apply Z.ltb_lt in Hgap. unfold halfway_parts.
      rewrite <- N2Z.inj_sub by lia.
      change 2%Z with (Z.of_N 2). rewrite <- N2Z.inj_div, <- N2Z.inj_add.
      by rewrite N2Z.id.
    + subst b.
      apply (IH (S i)); [lia|].
      by rewrite (take_S_r _ _ _ Ha), (take_S_r _ _ _ Hb), Htake.
Qed.

Lemma find_diff_index_spec p q len i n :
  length p = len → length q = len → (i + n = len)%nat →
  take i p = take i q →
  (find_diff_index p q i n = Ok None ∧ p = q)
  ∨ ∃ k a b, first_diff p q k a b ∧ find_diff_index p q i n = Ok (Some k).
Proof.
  intros Hp Hq. revert i. induction n as [|n IH]; intros i Hin Htake.
  - left. split; [done|]. rewrite Nat.add_0_r in Hin. subst i.
    rewrite !take_ge in Htake by lia. done.
  - cbn [find_diff_index]. unfold getitem.
    destruct (lookup_lt_is_Some_2 p i) as [a Ha]; [lia|].
    destruct (lookup_lt_is_Some_2 q i) as [b Hb]; [lia|].
    rewrite Ha, Hb. cbn. case_bool_decide as Hne.
    + right. by exists i, a, b.
    + subst b.
      apply (IH (S i)); [lia|].
      by rewrite (take_S_r _ _ _ Ha), (take_S_r _ _ _ Hb), Htake.
Qed.

Lemma first_diff_unique p q k a b k' a' b' :
  first_diff p q k a b → first_diff p q k' a' b' →
  k = k' ∧ a = a' ∧ b = b'.
Proof.
  intros (Ht & Ha & Hb & Hne) (Ht' & Ha' & Hb' & Hne').
  assert (k = k') as <-.
  { destruct (Nat.lt_trichotomy k k') as [Hlt|[?|Hlt]]; [|done|].
    - exfalso. apply Hne.
      assert (take k' p !! k = take k' q !! k) as Heq by (by rewrite Ht').
      rewrite !lookup_take_lt in Heq by done. congruence.
    - exfalso. apply Hne'.
      assert (take k p !! k' = take k q !! k') as Heq by (by rewrite Ht).
      rewrite !lookup_take_lt in Heq by done. congruence. }
  split; [done|]. split; congruence.
Qed.

(** ** Zeroing the components after the gap *)

Lemma setitem_Ok {A} (l : list A) i x :
  (i < length l)%nat → setitem l i x = Ok (<[i:=x]> l).
Proof. intros. unfold setitem. by rewrite decide_True. Qed.

Lemma bind_Ok {A B} (a : A) (f : A → result B) : Ok a ≫= f = f a.
Proof. done. Qed.

Lemma zero_tail_spec cp s c :
  (s + c = length cp)%nat →
  foldlM (λ cp k, setitem cp k 0%N) cp (seq s c)
  = Ok (take s cp ++ replicate c 0%N).
Proof.
  revert s cp. induction c as [|c IH]; intros s cp Hlen.
  - simpl. rewrite app_nil_r, take_ge by lia. done.
  - cbn [seq foldlM]. rewrite setitem_Ok, bind_Ok by lia.
    rewrite IH by (rewrite length_insert; lia).
    assert (is_Some (cp !! s)) as [x Hx] by (apply lookup_lt_is_Some_2; lia).
    rewrite (take_S_r _ _ 0%N) by (apply list_lookup_insert_eq; lia).
    rewrite take_insert_ge by lia. rewrite <- app_assoc. done.
Qed.

(** ** Trimming *)

Lemma trim_zeros_strip fuel l :
  strip_zeros (VerifyVersions.trim_zeros fuel l) = strip_zeros l.
Proof.
  revert l. induction fuel as [|fuel IH]; intros l; [done|]. simpl.
  case_bool_decide as Hlen; [|done]. case_bool_decide as Hlast; [|done].
  simpl. rewrite IH. clear IH.
  induction l as [|x l' _] using rev_ind; [done|].
  rewrite last_snoc in Hlast. injection Hlast as ->.
  by rewrite removelast_last, strip_zeros_snoc_zero.
Qed.

Lemma trim_zeros_nonempty fuel l :
  l ≠ [] → VerifyVersions.trim_zeros fuel l ≠ [].
Proof.
  revert l. induction fuel as [|fuel IH]; intros l Hl; [done|]. simpl.
  case_bool_decide as Hlen; [|done]. case_bool_decide as Hlast; [|done].
  simpl. apply IH. clear IH. intros Hnil.
  induction l as [|x l' _] using rev_ind; [done|].
  rewrite removelast_last in Hnil. subst l'. simpl in Hlen. lia.
Qed.

Lemma trim_zeros_deeper fuel p k :
  VerifyVersions.trim_zeros fuel (deeper_parts p k) = deeper_parts p k.
Proof.
  destruct fuel as [|fuel]; [done|]. simpl. unfold deeper_parts.
  rewrite last_snoc. rewrite (bool_decide_eq_false_2 (Some 5%N = Some 0%N)) by done.
  by rewrite andb_false_r.
Qed.

(** ** The below-minimum candidate *)

Lemma vv_pre_min_of_spec m :
  release m ≠ [] →
  (VerifyVersions.pre_min_of m = Ok None
   ∧ ∀ j y, release m !! j = Some y → y = 0%N)
  ∨ ∃ parts', VerifyVersions.pre_min_of m = Ok (Some (join_dots parts'))
              ∧ lowered (release m) (length (release m)) parts'.
Proof.
  intros Hne. unfold VerifyVersions.pre_min_of.
  destruct (find_lower_spec (release m) (length (release m)))
    as [[-> Hz]|(parts' & -> & Hl)]; [done|..].
  - left. cbn. unfold getitem. destruct (release m) as [|x r] eqn:Hr; [done|].
    cbn. split; [done|]. intros j y Hy. apply (Hz j y); [|done].
    by apply lookup_lt_Some in Hy.
  - right. by exists parts'.
Qed.

Lemma tv_pre_min_of_spec m :
  (TestVer.pre_min_of m = Ok None
   ∧ ∀ j y, release m !! j = Some y → y = 0%N)
  ∨ ∃ parts', TestVer.pre_min_of m = Ok (Some (join_dots parts'))
              ∧ lowered (release m) (length (release m)) parts'.
Proof.
  unfold TestVer.pre_min_of. destruct (release m) as [|x r] eqn:Hr.
  - left. split; [done|]. intros j y Hy. by rewrite lookup_nil in Hy.
  - rewrite <- Hr.
    destruct (find_lower_spec (release m) (length (release m)))
      as [[-> Hz]|(parts' & -> & Hl)]; [done|..].
    + left. split; [done|]. intros j y Hy. apply (Hz j y); [|done].
      by apply lookup_lt_Some in Hy.
    + right. by exists parts'.
Qed.

Lemma lowered_cmp parts n parts' :
  lowered parts n parts' →
  list_cmp (strip_zeros parts') (strip_zeros parts) = Lt.
Proof.
  intros (i & x & Hi & Hx & Hpos & _ & ->).
  rewrite (list_cmp_strip_first_diff i _ _ (x - 1)%N x).
  - apply N.compare_lt_iff. lia.
  - by rewrite take_insert_ge.
  - apply list_lookup_insert_eq. by apply lookup_lt_Some in Hx.
  - done.
  - lia.
Qed.

(** A release that was lowered spells a version below every version with
    the original release. *)
Lemma lowered_below m n parts' :
  lowered (release m) n parts' → Vlt (plain parts') m.
Proof.
  intros Hl. destruct (decide (epoch m = 0%N)) as [He|He].
  - apply Vlt_release; [done|]. by eapply lowered_cmp.
  - apply Vlt_epoch. simpl. lia.
Qed.

(** ** The midpoint candidate *)

Lemma div2_mid (a b : N) :
  (a ≤ b)%N → ((a + b) `div` 2 = a + (b - a) `div` 2)%N.
Proof.
  intros. replace (a + b)%N with ((b - a) + a * 2)%N by lia.
  rewrite N.div_add by done. lia.
Qed.

Lemma vv_mid_of_spec m M :
  let len := len_max m M in
  let p := padded m len in
  let q := padded M len in
  (VerifyVersions.mid_of m M = Ok None ∧ (¬ Vlt m M ∨ p = q))
  ∨ ∃ k a b,
      Vlt m M ∧ first_diff p q k a b
      ∧ let mid := if (1 <? Z.of_N b - Z.of_N a)%Z
                   then halfway_parts p len k a b else deeper_parts p k in
        mid ≠ []
        ∧ VerifyVersions.mid_of m M
          = Ok (Some (join_dots (VerifyVersions.trim_zeros (length mid) mid))).
Proof.
  intros len p q. unfold VerifyVersions.mid_of.
  destruct (Vltb m M) eqn:Hlt; [|left; split; [done|]; left;
    by rewrite <- Vltb_Vlt, Hlt].
  apply Vltb_Vlt in Hlt.
  fold (len_max m M). fold len. fold (padded m len) (padded M len). fold p q.
  destruct (find_mid_spec p q len 0 len) as [[-> Heq]|(k & a & b & Hfd & ->)];
    [apply length_padded_min|apply length_padded_max|done|done|..].
  - left. split; [done|by right].
  - right. exists k, a, b. split; [done|]. split; [done|]. cbn zeta.
    set (mid := if (1 <? Z.of_N b - Z.of_N a)%Z then _ else _).
    assert (mid ≠ []) as Hne.
    { unfold mid, halfway_parts, deeper_parts.
      destruct (1 <? _)%Z; intros Hnil; apply (f_equal length) in Hnil;
        rewrite !length_app in Hnil; simpl in Hnil; lia. }
    split; [done|]. rewrite bind_Ok. by destruct mid.
Qed.

Lemma tv_mid_of_spec m M :
  let len := len_max m M in
  let p := padded m len in
  let q := padded M len in
  (TestVer.mid_of m M = Ok None
   ∧ (¬ Vlt m M ∨ p = q
      ∨ ∃ k a b, first_diff p q k a b ∧ (Z.of_N b - Z.of_N a ≤ 1)%Z))
  ∨ ∃ k a b,
      Vlt m M ∧ first_diff p q k a b ∧ (1 < Z.of_N b - Z.of_N a)%Z
      ∧ TestVer.mid_of m M = Ok (Some (join_dots (halfway_parts p len k a b))).
Proof.
  intros len p q. unfold TestVer.mid_of.
  destruct (Vltb m M) eqn:Hlt; [|left; split; [done|]; left;
    by rewrite <- Vltb_Vlt, Hlt].
  apply Vltb_Vlt in Hlt.
  fold (len_max m M). fold len. fold (padded m len) (padded M len). fold p q.
  assert (length p = len) as Hp by apply length_padded_min.
  assert (length q = len) as Hq by apply length_padded_max.
  destruct (find_diff_index_spec p q len 0 len)
    as [[-> Heq]|(k & a & b & Hfd & ->)]; [done..| |].
  - left. split; [done|]. right. by left.
  - rewrite bind_Ok. destruct Hfd as (Ht & Ha & Hb & Hne).
    unfold getitem. rewrite Ha, Hb. rewrite !bind_Ok.
    assert (k < len)%nat as Hk by (rewrite <- Hp; by eapply lookup_lt_Some).
    destruct (1 <? Z.of_N b - Z.of_N a)%Z eqn:Hgap.
    + apply Z.ltb_lt in Hgap. right. exists k, a, b.
      split_and!; [done..|]. rewrite setitem_Ok, bind_Ok by lia.
      rewrite zero_tail_spec by (rewrite length_insert; lia). rewrite bind_Ok.
      do 3 f_equal. unfold halfway_parts.
      rewrite Nat.add_1_r, (take_S_r _ _ ((a + b) `div` 2)%N)
        by (apply list_lookup_insert_eq; lia).
      rewrite take_insert_ge by lia. rewrite <- app_assoc.
      rewrite div2_mid by lia. do 3 f_equal. lia.
    + apply Z.ltb_ge in Hgap. left. split; [done|]. do 2 right.
      by exists k, a, b.
Qed.

(** ** Where the midpoints lie *)

Lemma halfway_take p len k a b :
  (k < length p)%nat → take k (halfway_parts p len k a b) = take k p.
Proof.
  intros. unfold halfway_parts. rewrite take_app_le by (rewrite length_take; lia).
  rewrite take_take. f_equal. lia.
Qed.

Lemma halfway_lookup p len k a b :
  (k < length p)%nat →
  halfway_parts p len k a b !! k = Some (a + (b - a) `div` 2)%N.
Proof.
  intros. unfold halfway_parts.
  rewrite lookup_app_r by (rewrite length_take; lia).
  rewrite length_take_le by lia. by rewrite Nat.sub_diag.
Qed.

Lemma deeper_take p k :
  (k < length p)%nat → take k (deeper_parts p k) = take k p.
Proof.
  intros. unfold deeper_parts. rewrite take_app_le by (rewrite length_take; lia).
  rewrite take_take. f_equal. lia.
Qed.

Lemma deeper_lookup p k a :
  p !! k = Some a → deeper_parts p k !! k = Some a.
Proof.
  intros Ha. unfold deeper_parts. apply lookup_app_l_Some.
  rewrite lookup_take_lt by lia. done.
Qed.

Lemma half_gap_bounds (a b : N) :
  (1 < Z.of_N b - Z.of_N a)%Z →
  (a < a + (b - a) `div` 2 < b)%N.
Proof.
  intros. assert (2 ≤ b - a)%N as Hge by lia.
  assert (b - a = 2 * ((b - a) `div` 2) + (b - a) `mod` 2)%N as Hdm
    by (by apply N.div_mod).
  assert ((b - a) `mod` 2 < 2)%N as Hmod by (by apply N.mod_lt).
  set (x := ((b - a) `div` 2)%N) in *. set (r := ((b - a) `mod` 2)%N) in *.
  clearbody x r. lia.
Qed.

Section first_difference.
Context (m M : Version) (k : nat) (a b : N).
Context (Hfd : first_diff (padded m (len_max m M)) (padded M (len_max m M)) k a b).

Lemma first_diff_lt_len : (k < length (padded m (len_max m M)))%nat.
Proof. destruct Hfd as (_ & Ha & _). by eapply lookup_lt_Some. Qed.

Lemma rel_cmp_first_diff : rel_cmp m M = (a ?= b)%N.
Proof.
  unfold rel_cmp. rewrite <- (strip_zeros_pad (release m) (len_max m M)).
  rewrite <- (strip_zeros_pad (release M) (len_max m M)).
  destruct Hfd as (Ht & Ha & Hb & Hne).
  by apply (list_cmp_strip_first_diff k).
Qed.

Lemma halfway_above_min :
  (1 < Z.of_N b - Z.of_N a)%Z →
  list_cmp (strip_zeros (release m))
           (strip_zeros (halfway_parts (padded m (len_max m M))
                           (len_max m M) k a b)) = Lt.
Proof.
  intros Hgap. rewrite <- (strip_zeros_pad (release m) (len_max m M)).
  pose proof first_diff_lt_len. destruct Hfd as (Ht & Ha & Hb & Hne).
  rewrite (list_cmp_strip_first_diff k _ _ a (a + (b - a) `div` 2)%N).
  - apply N.compare_lt_iff. by apply half_gap_bounds.
  - symmetry. by apply halfway_take.
  - done.
  - by apply halfway_lookup.
  - pose proof (half_gap_bounds a b Hgap). lia.
Qed.

Lemma halfway_below_max :
  (1 < Z.of_N b - Z.of_N a)%Z →
  list_cmp (strip_zeros (halfway_parts (padded m (len_max m M))
                           (len_max m M) k a b))
           (strip_zeros (release M)) = Lt.
Proof.
  intros Hgap. rewrite <- (strip_zeros_pad (release M) (len_max m M)).
  pose proof first_diff_lt_len. destruct Hfd as (Ht & Ha & Hb & Hne).
  rewrite (list_cmp_strip_first_diff k _ _ (a + (b - a) `div` 2)%N b).
  - apply N.compare_lt_iff. by apply half_gap_bounds.
  - rewrite halfway_take by done. exact Ht.
  - by apply halfway_lookup.
  - done.
  - pose proof (half_gap_bounds a b Hgap). lia.
Qed.

Lemma deeper_below_max :
  (a < b)%N →
  list_cmp (strip_zeros (deeper_parts (padded m (len_max m M)) k))
           (strip_zeros (release M)) = Lt.
Proof.
  intros Hab. rewrite <- (strip_zeros_pad (release M) (len_max m M)).
  pose proof first_diff_lt_len. destruct Hfd as (Ht & Ha & Hb & Hne).
  rewrite (list_cmp_strip_first_diff k _ _ a b).
  - by apply N.compare_lt_iff.
  - rewrite deeper_take by done. exact Ht.
  - by apply deeper_lookup.
  - done.
  - done.
Qed.

(** With equal epochs the order of [m] and [M] is the order of [a] and
    [b]. *)
Lemma first_diff_gap_pos :
  Vlt m M → epoch m = epoch M → (a < b)%N.
Proof.
  intros Hlt He. pose proof (Vcmp_release_Eq m M He Hlt) as Hgt.
  rewrite rel_cmp_first_diff in Hgt. destruct Hfd as (_ & _ & _ & Hne).
  destruct (a ?= b)%N eqn:Hc; [|by apply N.compare_lt_iff|done].
  by apply N.compare_eq_iff in Hc.
Qed.

End first_difference.

(** ** One round of the loop over the groups *)

Lemma add_if_true_spec r (fc : gset string) s :
  (∀ s', r = Some s' → s' ≠ ""%string) →
  s ∈ add_if_true r fc ↔ r = Some s ∨ s ∈ fc.
Proof.
  intros Hne. unfold add_if_true. destruct r as [s'|].
  - rewrite bool_decide_eq_false_2 by (by apply Hne).
    rewrite elem_of_union, elem_of_singleton. split.
    + intros [->|?]; auto.
    + intros [[= ->]|?]; auto.
  - split; [auto|]. by intros [?|?].
Qed.

Lemma from_option_add_spec r (fc : gset string) s :
  s ∈ from_option (λ s, {[s]} ∪ fc) fc r ↔ r = Some s ∨ s ∈ fc.
Proof.
  destruct r as [s'|]; simpl.
  - rewrite elem_of_union, elem_of_singleton. split.
    + intros [->|?]; auto.
    + intros [[= ->]|?]; auto.
  - split; [auto|]. by intros [?|?].
Qed.

Lemma vv_pre_min_of_total m :
  release m ≠ [] →
  ∃ r, VerifyVersions.pre_min_of m = Ok r
       ∧ ∀ s, r = Some s → ∃ parts', s = join_dots parts' ∧ parts' ≠ [].
Proof.
  intros Hne. destruct (vv_pre_min_of_spec m Hne) as [[-> _]|(p' & -> & Hl)].
  - by exists None.
  - eexists. split; [done|]. intros s [= <-]. exists p'. split; [done|].
    by eapply lowered_nonempty.
Qed.

Lemma tv_pre_min_of_total m :
  ∃ r, TestVer.pre_min_of m = Ok r
       ∧ ∀ s, r = Some s → ∃ parts', s = join_dots parts' ∧ parts' ≠ [].
Proof.
  destruct (tv_pre_min_of_spec m) as [[-> _]|(p' & -> & Hl)].
  - by exists None.
  - eexists. split; [done|]. intros s [= <-]. exists p'. split; [done|].
    by eapply lowered_nonempty.
Qed.

Lemma vv_mid_of_total m M :
  ∃ r, VerifyVersions.mid_of m M = Ok r
       ∧ ∀ s, r = Some s → ∃ parts', s = join_dots parts' ∧ parts' ≠ [].
Proof.
  destruct (vv_mid_of_spec m M) as [[-> _]|(k & a & b & _ & _ & Hne & ->)].
  - by exists None.
  - eexists. split; [done|]. intros s [= <-]. eexists. split; [done|].
    by apply trim_zeros_nonempty.
Qed.

Lemma tv_mid_of_total m M :
  ∃ r, TestVer.mid_of m M = Ok r
       ∧ ∀ s, r = Some s → ∃ parts', s = join_dots parts' ∧ parts' ≠ [].
Proof.
  destruct (tv_mid_of_spec m M) as [[-> _]|(k & a & b & _ & _ & _ & ->)].
  - by exists None.
  - eexists. split; [done|]. intros s [= <-]. eexists. split; [done|].
    unfold halfway_parts. intros Hnil. apply (f_equal length) in Hnil.
    rewrite !length_app in Hnil. simpl in Hnil. lia.
Qed.

Lemma nonempty_of_parts (r : option string) :
  (∀ s, r = Some s → ∃ parts', s = join_dots parts' ∧ parts' ≠ []) →
  ∀ s, r = Some s → s ≠ ""%string.
Proof.
  intros H s Hs. destruct (H s Hs) as (p' & -> & Hne).
  by apply join_dots_nonempty.
Qed.

Lemma vv_group_step_spec fc item :
  good_group item →
  ∃ fc', VerifyVersions.group_step fc item = Ok fc'
         ∧ ∀ s, s ∈ fc' ↔ s ∈ fc ∨ ∃ k, vv_candidate k item.2 s.
Proof.
  destruct item as [major g]. intros [Hne Hfin]. simpl in *.
  destruct (py_min_Ok g Hne) as (m & Hm & Hmin).
  destruct (py_max_Ok g Hne) as (M & HM & HMin).
  destruct (vv_pre_min_of_total m) as (r1 & Hr1 & Hp1); [apply Hfin, Hmin|].
  destruct (vv_mid_of_total m M) as (r2 & Hr2 & _).
  unfold VerifyVersions.group_step. simpl.
  destruct g as [|x g]; [done|]. rewrite Hm, HM, !bind_Ok, Hr1, bind_Ok, Hr2, bind_Ok.
  eexists. split; [done|]. intros s.
  rewrite from_option_add_spec, add_if_true_spec by (by apply nonempty_of_parts).
  rewrite !elem_of_union, !elem_of_singleton. unfold vv_candidate. split.
  - intros [->|[->|[->|[->|?]]]]; [right..|by left].
    + exists Midpoint, m, M. done.
    + exists BelowMin, m, M. done.
    + exists GroupMax, m, M. done.
    + exists GroupMin, m, M. done.
  - intros [?|(k & m' & M' & Hm' & HM' & Hk)]; [by do 4 right|].
    rewrite Hm in Hm'. rewrite HM in HM'. simplify_eq.
    destruct k; [rewrite Hr1 in Hk|..|rewrite Hr2 in Hk]; simplify_eq; auto.
Qed.

Lemma tv_group_step_spec fc item :
  good_group item →
  ∃ fc', TestVer.group_step fc item = Ok fc'
         ∧ ∀ s, s ∈ fc' ↔ s ∈ fc ∨ ∃ k, tv_candidate k item.2 s.
Proof.
  destruct item as [major g]. intros [Hne Hfin]. simpl in *.
  destruct (py_min_Ok g Hne) as (m & Hm & Hmin).
  destruct (py_max_Ok g Hne) as (M & HM & HMin).
  destruct (tv_pre_min_of_total m) as (r1 & Hr1 & Hp1).
  destruct (tv_mid_of_total m M) as (r2 & Hr2 & _).
  unfold TestVer.group_step. simpl.
  destruct g as [|x g]; [done|]. rewrite Hm, HM, !bind_Ok, Hr1, bind_Ok, Hr2, bind_Ok.
  eexists. split; [done|]. intros s.
  rewrite from_option_add_spec, elem_of_union, elem_of_singleton.
  rewrite add_if_true_spec by (by apply nonempty_of_parts).
  unfold tv_candidate. split.
  - intros [->|[->|[->|?]]]; [right..|by left].
    + exists Midpoint, m, M. done.
    + exists GroupMax, m, M. done.
    + exists BelowMin, m, M. done.
  - intros [?|(k & m' & M' & Hm' & HM' & Hk)]; [by do 3 right|].
    rewrite Hm in Hm'. rewrite HM in HM'. simplify_eq.
    destruct k; [rewrite Hr1 in Hk|done|..|rewrite Hr2 in Hk]; simplify_eq; auto.
Qed.

(** ** The loop over the groups *)

Lemma foldlM_step_spec {B} (step : gset string → B → result (gset string))
    (cand : B → string → Prop) (good : B → Prop) :
  (∀ fc x, good x →
     ∃ fc', step fc x = Ok fc' ∧ ∀ s, s ∈ fc' ↔ s ∈ fc ∨ cand x s) →
  ∀ l fc, Forall good l →
    ∃ fc', foldlM step fc l = Ok fc'
           ∧ ∀ s, s ∈ fc' ↔ s ∈ fc ∨ ∃ x, x ∈ l ∧ cand x s.
Proof.
  intros Hstep l. induction l as [|x l IH]; intros fc Hgood.
  - exists fc. split; [done|]. intros s. split; [auto|].
    intros [?|(? & ?%elem_of_nil & _)]; done.
  - apply Forall_cons in Hgood as [Hx Hl].
    destruct (Hstep fc x Hx) as (fc1 & Hfc1 & Hin1).
    destruct (IH fc1 Hl) as (fc2 & Hfc2 & Hin2).
    exists fc2. split; [simpl; by rewrite Hfc1, bind_Ok|].
    intros s. rewrite Hin2, Hin1. split.
    + intros [[?|?]|(y & ? & ?)]; [by left|right..].
      * exists x. split; [left|done].
      * exists y. split; [by right|done].
    + intros [?|(y & [->|?]%elem_of_cons & ?)]; [by do 2 left|..].
      * left. by right.
      * right. by exists y.
Qed.

Lemma groups_good data item :
  item ∈ map_to_list (groups data) → good_group item.
Proof.
  destruct item as [major g]. intros Hg%elem_of_map_to_list.
  apply groups_spec in Hg as [Hne Hin]. split; [done|]. intros v Hv.
  by apply Hin.
Qed.

Lemma groups_nil data : extract_versions data = [] → groups data = ∅.
Proof. unfold groups. by intros ->. Qed.

(** The set the loop of verify_versions.py builds. *)
Lemma vv_loop_spec data :
  ∃ fc, foldlM VerifyVersions.group_step ∅ (map_to_list (groups data)) = Ok fc
        ∧ ∀ s, s ∈ fc ↔ ∃ major g k, groups data !! major = Some g
                                    ∧ vv_candidate k g s.
Proof.
  destruct (foldlM_step_spec VerifyVersions.group_step
              (λ item s, ∃ k, vv_candidate k item.2 s) good_group
              vv_group_step_spec (map_to_list (groups data)) ∅)
    as (fc & Hfc & Hin).
  { apply Forall_forall. intros item. apply groups_good. }
  exists fc. split; [done|]. intros s. rewrite Hin. split.
  - intros [?%not_elem_of_empty|([major g] & Hg%elem_of_map_to_list & k & Hk)];
      [done|]. by exists major, g, k.
  - intros (major & g & k & Hg & Hk). right. exists (major, g).
    split; [by apply elem_of_map_to_list|]. by exists k.
Qed.

Lemma tv_loop_spec data :
  ∃ fc, foldlM TestVer.group_step ∅ (map_to_list (groups data)) = Ok fc
        ∧ ∀ s, s ∈ fc ↔ ∃ major g k, groups data !! major = Some g
                                    ∧ tv_candidate k g s.
Proof.
  destruct (foldlM_step_spec TestVer.group_step
              (λ item s, ∃ k, tv_candidate k item.2 s) good_group
              tv_group_step_spec (map_to_list (groups data)) ∅)
    as (fc & Hfc & Hin).
  { apply Forall_forall. intros item. apply groups_good. }
  exists fc. split; [done|]. intros s. rewrite Hin. split.
  - intros [?%not_elem_of_empty|([major g] & Hg%elem_of_map_to_list & k & Hk)];
      [done|]. by exists major, g, k.
  - intros (major & g & k & Hg & Hk). right. exists (major, g).
    split; [by apply elem_of_map_to_list|]. by exists k.
Qed.

(** ** Every candidate is the text of a final release *)

Lemma final_not_prerelease v : final v → is_prerelease v = false.
Proof. intros (_ & Hp & Hd). unfold is_prerelease. by rewrite Hp, Hd. Qed.

Lemma parse_parts (r : option string) s :
  (∀ s, r = Some s → ∃ parts', s = join_dots parts' ∧ parts' ≠ []) →
  r = Some s →
  ∃ v, parse_version s = Ok v ∧ is_prerelease v = false.
Proof.
  intros H Hs. destruct (H s Hs) as (p' & -> & Hne).
  eexists. split; [by apply parse_join_dots|done].
Qed.

Lemma vv_candidate_parses k g s :
  good_group (0%N, g) → vv_candidate k g s →
  ∃ v, parse_version s = Ok v ∧ is_prerelease v = false.
Proof.
  intros [Hne Hfin] (m & M & Hm & HM & Hk). simpl in *.
  apply py_min_elem, Hfin in Hm. apply py_max_elem, Hfin in HM.
  destruct k.
  - destruct (vv_pre_min_of_total m) as (r & Hr & Hp); [apply Hm|].
    rewrite Hr in Hk. injection Hk as ->. by eapply parse_parts.
  - subst s. exists m. split; [|by apply final_not_prerelease].
    destruct Hm as (? & ? & ?). by apply parse_str.
  - subst s. exists M. split; [|by apply final_not_prerelease].
    destruct HM as (? & ? & ?). by apply parse_str.
  - destruct (vv_mid_of_total m M) as (r & Hr & Hp).
    rewrite Hr in Hk. injection Hk as ->. by eapply parse_parts.
Qed.

Lemma tv_candidate_parses k g s :
  good_group (0%N, g) → tv_candidate k g s →
  ∃ v, parse_version s = Ok v ∧ is_prerelease v = false.
Proof.
  intros [Hne Hfin] (m & M & Hm & HM & Hk). simpl in *.
  apply py_min_elem, Hfin in Hm. apply py_max_elem, Hfin in HM.
  destruct k.
  - destruct (tv_pre_min_of_total m) as (r & Hr & Hp).
    rewrite Hr in Hk. injection Hk as ->. by eapply parse_parts.
  - done.
  - subst s. exists M. split; [|by apply final_not_prerelease].
    destruct HM as (? & ? & ?). by apply parse_str.
  - destruct (tv_mid_of_total m M) as (r & Hr & Hp).
    rewrite Hr in Hk. injection Hk as ->. by eapply parse_parts.
Qed.

(** ** Sorting on the parsed key *)

Lemma with_key_Ok x v :
  parse_version x = Ok v → VerifyVersions.with_key x = Ok (v, x).
Proof. unfold VerifyVersions.with_key. by intros ->. Qed.

Lemma with_key_inv x kx :
  VerifyVersions.with_key x = Ok kx → kx.2 = x.
Proof.
  unfold VerifyVersions.with_key. destruct (parse_version x); [|done].
  by intros [= <-].
Qed.

Lemma keyed_spec l acc :
  (∀ s, s ∈ l → ∃ v, parse_version s = Ok v) →
  ∃ keyed,
    foldlM (λ acc x, kx ← VerifyVersions.with_key x; Ok (acc ++ [kx])) acc l
    = Ok (acc ++ keyed)
    ∧ keyed.*2 = l
    ∧ Forall (λ kx, parse_version kx.2 = Ok kx.1) keyed.
Proof.
  revert acc. induction l as [|x l IH]; intros acc Hl.
  - exists []. by rewrite app_nil_r.
  - destruct (Hl x) as [v Hv]; [left|].
    destruct (IH (acc ++ [(v, x)])) as (keyed & Hk & Hsnd & Hall).
    { intros s Hs. apply Hl. by right. }
    exists ((v, x) :: keyed). split; [|split].
    + cbn [foldlM]. rewrite (with_key_Ok x v Hv), !bind_Ok, Hk.
      by rewrite <- app_assoc.
    + rewrite fmap_cons. simpl. by rewrite Hsnd.
    + by constructor.
Qed.

Lemma sorted_by_version_spec l :
  (∀ s, s ∈ l → ∃ v, parse_version s = Ok v) →
  ∃ keyed,
    VerifyVersions.sorted_by_version l
    = Ok ((merge_sort VerifyVersions.key_le keyed).*2)
    ∧ keyed.*2 = l
    ∧ Forall (λ kx, parse_version kx.2 = Ok kx.1) keyed.
Proof.
  intros Hl. destruct (keyed_spec l [] Hl) as (keyed & Hk & Hsnd & Hall).
  exists keyed. unfold VerifyVersions.sorted_by_version.
  by rewrite Hk, bind_Ok.
Qed.

Lemma sorted_by_version_perm l out :
  VerifyVersions.sorted_by_version l = Ok out → out ≡ₚ l.
Proof.
  unfold VerifyVersions.sorted_by_version.
  destruct (foldlM _ [] l) as [keyed|e] eqn:Hk; [|done].
  rewrite bind_Ok. intros [= <-]. rewrite merge_sort_Permutation.
  clear -Hk. enough (∀ acc, foldlM
    (λ acc x, kx ← VerifyVersions.with_key x; Ok (acc ++ [kx])) acc l
    = Ok keyed → keyed.*2 = acc.*2 ++ l) as H by (by rewrite (H [] Hk)).
  clear Hk. induction l as [|x l IH]; intros acc; cbn [foldlM].
  - intros [= ->]. by rewrite app_nil_r.
  - destruct (VerifyVersions.with_key x) as [kx|] eqn:Hx; [|done].
    apply with_key_inv in Hx. rewrite !bind_Ok.
    intros ->%IH. rewrite fmap_app. simpl. by rewrite <- app_assoc, Hx.
Qed.

(** ** The two functions *)

Lemma generate_candidates_spec data :
  ∃ out, generate_candidates data = Ok out
         ∧ ∀ s, s ∈ out ↔ ∃ major g k, groups data !! major = Some g
                                      ∧ vv_candidate k g s.
Proof.
  unfold generate_candidates. destruct (extract_versions data) as [|x vs] eqn:Hvs.
  - exists []. split; [done|]. intros s. split; [by intros ?%elem_of_nil|].
    intros (major & g & k & Hg & _). by rewrite (groups_nil data Hvs) in Hg.
  - rewrite <- Hvs. fold (groups data).
    destruct (vv_loop_spec data) as (fc & -> & Hin). rewrite bind_Ok.
    destruct (sorted_by_version_spec (elements fc)) as (keyed & Hs & _).
    { intros s Hs%elem_of_elements. apply Hin in Hs as (major & g & k & Hg & Hk).
      destruct (vv_candidate_parses k g s) as (v & Hv & _); [|done|by exists v].
      apply groups_spec in Hg as [Hne Hfin]. split; [done|]. intros w Hw.
      by apply Hfin. }
    eexists. split; [exact Hs|]. intros s.
    rewrite (sorted_by_version_perm _ _ Hs), elem_of_elements. apply Hin.
Qed.

Lemma get_version_candidates_spec data :
  ∃ out, get_version_candidates data = Ok out
         ∧ ∀ s, s ∈ out ↔ ∃ major g k, groups data !! major = Some g
                                      ∧ tv_candidate k g s.
Proof.
  unfold get_version_candidates. destruct (extract_versions data) as [|x vs] eqn:Hvs.
  - exists []. split; [done|]. intros s. split; [by intros ?%elem_of_nil|].
    intros (major & g & k & Hg & _). by rewrite (groups_nil data Hvs) in Hg.
  - rewrite <- Hvs. fold (groups data).
    destruct (tv_loop_spec data) as (fc & -> & Hin). rewrite bind_Ok.
    eexists. split; [done|]. intros s.
    rewrite merge_sort_Permutation, elem_of_elements. apply Hin.
Qed.

(** ** The candidates in the output *)

Lemma tv_pre_min_of_eq m :
  release m ≠ [] → TestVer.pre_min_of m = VerifyVersions.pre_min_of m.
Proof.
  intros Hne. unfold TestVer.pre_min_of, VerifyVersions.pre_min_of.
  destruct (release m) as [|x r] eqn:Hr; [done|].
  destruct (find_lower (x :: r) (length (x :: r))) as [[p'|]|e]; done.
Qed.

Lemma group_min_final data major group m :
  groups data !! major = Some group → py_min group = Ok m → final m.
Proof.
  intros [_ Hin]%groups_spec Hm%py_min_elem. by apply Hin.
Qed.

Lemma vv_candidate_in_output data major group k s :
  groups data !! major = Some group → vv_candidate k group s →
  ∃ out, generate_candidates data = Ok out ∧ s ∈ out.
Proof.
  intros Hg Hk. destruct (generate_candidates_spec data) as (out & Hout & Hin).
  exists out. split; [done|]. apply Hin. by exists major, group, k.
Qed.

Lemma tv_candidate_in_output data major group k s :
  groups data !! major = Some group → tv_candidate k group s →
  ∃ out, get_version_candidates data = Ok out ∧ s ∈ out.
Proof.
  intros Hg Hk. destruct (get_version_candidates_spec data) as (out & Hout & Hin).
  exists out. split; [done|]. apply Hin. by exists major, group, k.
Qed.

(** ** Removing the pre-release fields *)

Lemma extract_key_drop_prerelease (e : entry) vs key :
  extract_key (drop_prerelease e) vs key = extract_key e vs key.
Proof.
  unfold extract_key, drop_prerelease. rewrite map_lookup_filter.
  destruct (e !! key) as [s|] eqn:Hs; [|done].
  destruct (is_prerelease_str s) eqn:Hpre.
  - cbn [mbind option_bind]. rewrite option_guard_False by (simpl; by rewrite Hpre).
    cbn [mbind option_bind]. unfold is_prerelease_str in Hpre.
    destruct (parse_version s) as [v|]; [|done]. rewrite Hpre.
    by case_bool_decide.
  - cbn [mbind option_bind]. by rewrite option_guard_True.
Qed.

Lemma extract_versions_drop_prerelease data :
  extract_versions (drop_prerelease <$> data) = extract_versions data.
Proof.
  unfold extract_versions. generalize (@nil Version).
  induction data as [|e data IH]; intros acc; [done|].
  rewrite fmap_cons. cbn [foldl]. rewrite IH. f_equal.
  generalize keys. intros ks. revert acc.
  induction ks as [|k ks IHk]; intros acc; [done|].
  cbn [foldl]. by rewrite extract_key_drop_prerelease, IHk.
Qed.

Lemma generate_candidates_final data :
  ∃ out, generate_candidates data = Ok out
         ∧ ∀ s, s ∈ out → ∃ v, parse_version s = Ok v ∧ is_prerelease v = false.
Proof.
  destruct (generate_candidates_spec data) as (out & Hout & Hin).
  exists out. split; [done|]. intros s (major & g & k & Hg & Hk)%Hin.
  apply (vv_candidate_parses k g s); [|done].
  apply groups_spec in Hg as [Hne Hfin]. split; [done|]. intros v Hv.
  by apply Hfin.
Qed.

Lemma get_version_candidates_final data :
  ∃ out, get_version_candidates data = Ok out
         ∧ ∀ s, s ∈ out → ∃ v, parse_version s = Ok v ∧ is_prerelease v = false.
Proof.
  destruct (get_version_candidates_spec data) as (out & Hout & Hin).
  exists out. split; [done|]. intros s (major & g & k & Hg & Hk)%Hin.
  apply (tv_candidate_parses k g s); [|done].
  apply groups_spec in Hg as [Hne Hfin]. split; [done|]. intros v Hv.
  by apply Hfin.
Qed.

(** ** The midpoint at a given first difference *)

Lemma first_diff_neq p q k a b : first_diff p q k a b → p ≠ q.
Proof. intros (_ & Ha & Hb & Hne) ->. congruence. Qed.

Lemma halfway_nonempty p len k a b : halfway_parts p len k a b ≠ [].
Proof.
  unfold halfway_parts. intros Hnil. apply (f_equal length) in Hnil.
  rewrite !length_app in Hnil. simpl in Hnil. lia.
Qed.

Lemma plain_below_max parts M :
  (epoch M = 0%N → list_cmp (strip_zeros parts) (strip_zeros (release M)) = Lt) →
  Vlt (plain parts) M.
Proof.
  intros H. destruct (decide (epoch M = 0%N)) as [He|He].
  - apply Vlt_release; [done|]. by apply H.
  - apply Vlt_epoch. simpl. lia.
Qed.

Lemma tv_mid_of_halfway m M k a b :
  Vlt m M →
  first_diff (padded m (len_max m M)) (padded M (len_max m M)) k a b →
  (1 < Z.of_N b - Z.of_N a)%Z →
  TestVer.mid_of m M
  = Ok (Some (join_dots
               (halfway_parts (padded m (len_max m M)) (len_max m M) k a b))).
Proof.
  intros Hlt Hfd Hgap.
  destruct (tv_mid_of_spec m M)
    as [[_ [?|[Heq|(k' & a' & b' & Hfd' & Hgap')]]]
       |(k' & a' & b' & _ & Hfd' & _ & ->)].
  - done.
  - by apply first_diff_neq in Hfd.
  - destruct (first_diff_unique _ _ _ _ _ _ _ _ Hfd Hfd') as (_ & -> & ->). lia.
  - by destruct (first_diff_unique _ _ _ _ _ _ _ _ Hfd Hfd') as (-> & -> & ->).
Qed.

Lemma vv_mid_of_first_diff m M k a b :
  Vlt m M →
  first_diff (padded m (len_max m M)) (padded M (len_max m M)) k a b →
  let mid := if (1 <? Z.of_N b - Z.of_N a)%Z
             then halfway_parts (padded m (len_max m M)) (len_max m M) k a b
             else deeper_parts (padded m (len_max m M)) k in
  VerifyVersions.mid_of m M
  = Ok (Some (join_dots (VerifyVersions.trim_zeros (length mid) mid))).
Proof.
  intros Hlt Hfd.
  destruct (vv_mid_of_spec m M)
    as [[_ [?|Heq]]|(k' & a' & b' & _ & Hfd' & _ & ->)].
  - done.
  - by apply first_diff_neq in Hfd.
  - by destruct (first_diff_unique _ _ _ _ _ _ _ _ Hfd Hfd') as (-> & -> & ->).
Qed.

Lemma halfway_between m M k a b parts :
  Vlt m M → epoch m = 0%N →
  first_diff (padded m (len_max m M)) (padded M (len_max m M)) k a b →
  (1 < Z.of_N b - Z.of_N a)%Z →
  strip_zeros parts
  = strip_zeros (halfway_parts (padded m (len_max m M)) (len_max m M) k a b) →
  Vlt m (plain parts) ∧ Vlt (plain parts) M.
Proof.
  intros Hlt He Hfd Hgap Hstrip. split.
  - apply Vlt_release; [done|]. unfold rel_cmp. simpl. rewrite Hstrip.
    by apply halfway_above_min.
  - apply plain_below_max. intros _. rewrite Hstrip.
    by apply halfway_below_max.
Qed.

(** ** Comparisons that decide a total order *)

#[global] Instance N_CmpSpec : CmpSpec N.
Proof.
  split; unfold cmp, N_Cmp.
  - apply N.compare_eq_iff.
  - intros x y. apply N.compare_antisym.
  - intros x y z Hxy Hyz. apply N.compare_lt_iff.
    apply N.lt_trans with y; by apply N.compare_lt_iff.
Qed.

#[global] Instance ascii_CmpSpec : CmpSpec ascii.
Proof.
  split; unfold cmp, ascii_Cmp, code.
  - intros x y. rewrite N.compare_eq_iff. split; [|by intros ->].
    intros Heq. rewrite <- (ascii_N_embedding x), <- (ascii_N_embedding y).
    by rewrite Heq.
  - intros x y. apply N.compare_antisym.
  - intros x y z Hxy Hyz. apply N.compare_lt_iff.
    apply N.lt_trans with (N_of_ascii y); by apply N.compare_lt_iff.
Qed.

Lemma cmp_refl {A} `{CmpSpec A} (x : A) : cmp x x = Eq.
Proof. by apply cmp_eq. Qed.

#[global] Instance list_CmpSpec {A} `{CmpSpec A} : CmpSpec (list A).
Proof.
  split; unfold cmp, list_Cmp.
  - intros x. induction x as [|a x IH]; intros [|b y]; simpl; try done.
    destruct (cmp a b) eqn:Hab.
    + apply cmp_eq in Hab as ->. rewrite IH. split; [by intros ->|].
      by intros [= ->].
    + split; [done|]. intros [= -> _]. by rewrite cmp_refl in Hab.
    + split; [done|]. intros [= -> _]. by rewrite cmp_refl in Hab.
  - intros x. induction x as [|a x IH]; intros [|b y]; simpl; try done.
    rewrite (cmp_antisym a b). destruct (cmp a b); simpl; [apply IH|done..].
  - intros x. induction x as [|a x IH]; intros [|b y] [|c z]; simpl; try done.
    destruct (cmp a b) eqn:Hab; [|intros _|done].
    + apply cmp_eq in Hab as ->. destruct (cmp b c); [apply IH|done..].
    + destruct (cmp b c) eqn:Hbc; [|intros _|done].
      * apply cmp_eq in Hbc as <-. by rewrite Hab.
      * by rewrite (cmp_trans a b c).
Qed.

#[global] Instance prod_CmpSpec {A B} `{CmpSpec A, CmpSpec B} : CmpSpec (A * B).
Proof.
  split; unfold cmp, prod_Cmp.
  - intros [a b] [c d]. simpl. destruct (cmp a c) eqn:Hac.
    + apply cmp_eq in Hac as ->. rewrite cmp_eq. split; [by intros ->|].
      by intros [= ->].
    + split; [done|]. intros [= -> _]. by rewrite cmp_refl in Hac.
    + split; [done|]. intros [= -> _]. by rewrite cmp_refl in Hac.
  - intros [a b] [c d]. simpl. rewrite (cmp_antisym a c).
    destruct (cmp a c); simpl; [apply cmp_antisym|done..].
  - intros [a b] [c d] [e f]. simpl.
    destruct (cmp a c) eqn:Hac; [|intros _|done].
    + apply cmp_eq in Hac as ->. destruct (cmp c e); [apply cmp_trans|done..].
    + destruct (cmp c e) eqn:Hce; [|intros _|done].
      * apply cmp_eq in Hce as <-. by rewrite Hac.
      * by rewrite (cmp_trans a c e).
Qed.

#[global] Instance ext_CmpSpec {A} `{CmpSpec A} : CmpSpec (ext A).
Proof.
  split; unfold cmp, ext_Cmp.
  - intros [|a|] [|b|]; try done. rewrite cmp_eq. split; [by intros ->|].
    by intros [= ->].
  - intros [|a|] [|b|]; try done. apply cmp_antisym.
  - intros [|a|] [|b|] [|c|]; try done. apply cmp_trans.
Qed.

Lemma cmp_le_trans {A} `{CmpSpec A} (x y z : A) :
  cmp x y ≠ Gt → cmp y z ≠ Gt → cmp x z ≠ Gt.
Proof.
  destruct (cmp x y) eqn:Hxy; [|intros _|done].
  - by apply cmp_eq in Hxy as ->.
  - destruct (cmp y z) eqn:Hyz; [|intros _|done].
    + apply cmp_eq in Hyz as <-. by rewrite Hxy.
    + by rewrite (cmp_trans x y z).
Qed.

Lemma cmp_le_total {A} `{CmpSpec A} (x y : A) :
  cmp x y ≠ Gt ∨ cmp y x ≠ Gt.
Proof.
  rewrite (cmp_antisym x y). destruct (cmp x y); simpl; auto.
Qed.

#[global] Instance Vle_trans : Transitive Vle.
Proof. intros x y z. unfold Vle, Vcmp, key_t. apply cmp_le_trans. Qed.

#[global] Instance Vle_total : Total Vle.
Proof. intros x y. unfold Vle, Vcmp, key_t. apply cmp_le_total. Qed.

#[global] Instance key_le_trans : Transitive VerifyVersions.key_le.
Proof. intros x y z. unfold VerifyVersions.key_le. apply Vle_trans. Qed.

#[global] Instance key_le_total : Total VerifyVersions.key_le.
Proof. intros x y. unfold VerifyVersions.key_le. apply Vle_total. Qed.

(** ** [min] and [max] return a least and a greatest element *)

Lemma Vlt_Vle v w : Vlt v w → Vle v w.
Proof. unfold Vlt, Vle. by intros ->. Qed.

Lemma Vcmp_antisym v w : Vcmp w v = CompOpp (Vcmp v w).
Proof. unfold Vcmp, key_t. apply cmp_antisym. Qed.

Lemma not_Vlt_Vle v w : ¬ Vlt v w → Vle w v.
Proof.
  unfold Vlt, Vle. rewrite (Vcmp_antisym v w).
  destruct (Vcmp v w); simpl; intros H; [done| |done]. by destruct H.
Qed.

Lemma Vgt_Vle v w : Vcmp v w = Gt → Vle w v.
Proof. unfold Vle. rewrite (Vcmp_antisym v w). by intros ->. Qed.

Lemma Vle_refl v : Vle v v.
Proof. unfold Vle, Vcmp, key_t. by rewrite cmp_refl. Qed.

Lemma py_min_least g m : py_min g = Ok m → ∀ v, v ∈ g → Vle m v.
Proof.
  destruct g as [|x l]; [done|]. intros [= <-]. revert x.
  induction l as [|y l IH]; intros x v Hv.
  - apply list_elem_of_singleton in Hv as ->. apply Vle_refl.
  - cbn [foldl]. destruct (Vltb y x) eqn:Hlt.
    + apply Vltb_Vlt in Hlt.
      apply elem_of_cons in Hv as [->|Hv]; [|by apply IH].
      trans y; [apply IH; left|by apply Vlt_Vle].
    + assert (¬ Vlt y x) as Hn by (by rewrite <- Vltb_Vlt, Hlt).
      apply elem_of_cons in Hv as [->|[->|Hv]%elem_of_cons].
      * apply IH. left.
      * trans x; [apply IH; left|by apply not_Vlt_Vle].
      * apply IH. by right.
Qed.

Lemma py_max_greatest g M : py_max g = Ok M → ∀ v, v ∈ g → Vle v M.
Proof.
  destruct g as [|x l]; [done|]. intros [= <-]. revert x.
  induction l as [|y l IH]; intros x v Hv.
  - apply list_elem_of_singleton in Hv as ->. apply Vle_refl.
  - cbn [foldl]. destruct (Vgtb y x) eqn:Hgt.
    + apply bool_decide_eq_true in Hgt.
      apply elem_of_cons in Hv as [->|Hv]; [|by apply IH].
      trans y; [by apply Vgt_Vle|apply IH; left].
    + apply bool_decide_eq_false in Hgt.
      apply elem_of_cons in Hv as [->|[->|Hv]%elem_of_cons].
      * apply IH. left.
      * trans x; [exact Hgt|apply IH; left].
      * apply IH. by right.
Qed.

(** ** The order of the output of [generate_candidates] *)

Lemma vv_loop_parses data fc :
  foldlM VerifyVersions.group_step ∅ (map_to_list (groups data)) = Ok fc →
  ∀ s, s ∈ elements fc → ∃ v, parse_version s = Ok v.
Proof.
  intros Hfc s Hs%elem_of_elements.
  destruct (vv_loop_spec data) as (fc' & Hfc' & Hin).
  rewrite Hfc in Hfc'. injection Hfc' as <-.
  apply Hin in Hs as (major & g & k & Hg & Hk).
  destruct (vv_candidate_parses k g s) as (v & Hv & _); [|done|by exists v].
  apply groups_spec in Hg as [Hne Hfin]. split; [done|]. intros w Hw.
  by apply Hfin.
Qed.

(** ** Every version of the working set is in a group *)

Lemma group_by_major_complete vs v :
  v ∈ vs → ∃ g, group_by_major vs !! get_major v = Some g ∧ v ∈ g.
Proof.
  induction vs as [|w vs IH] using rev_ind; [by intros ?%elem_of_nil|].
  rewrite group_by_major_snoc. intros [Hv| ->%list_elem_of_singleton]%elem_of_app.
  - destruct (IH Hv) as (g & Hg & Hin).
    destruct (decide (get_major w = get_major v)) as [Heq|Hne].
    + rewrite Heq, lookup_alter_eq.
      rewrite bool_decide_eq_true_2 by (by rewrite Hg). rewrite Hg. simpl.
      eexists. split; [done|]. apply elem_of_app. by left.
    + rewrite lookup_alter_ne by done. exists g. split; [|done].
      case_bool_decide; [done|]. by rewrite lookup_insert_ne.
  - rewrite lookup_alter_eq. case_bool_decide as Hsome.
    + destruct Hsome as [g Hg]. rewrite Hg. simpl. eexists. split; [done|].
      apply elem_of_app. right. left.
    + rewrite lookup_insert_eq. simpl. eexists. split; [done|]. left.
Qed.

Lemma groups_complete data v :
  parsed_from data v → ∃ g, groups data !! get_major v = Some g ∧ v ∈ g.
Proof. intros Hv%extract_versions_spec. by apply group_by_major_complete. Qed.

(** * The claims *)

(** C1, as amended.  If a midpoint candidate [c] is produced for a group
    with minimum [m] and maximum [M], [m < M], and [m] has no epoch, then
    [c] is in the output and is read back as a version below [M] in both
    functions; it is above [m] in [get_version_candidates], and in
    [generate_candidates] when the first differing components differ by
    more than 1. *)
Theorem produced_midpoint_bounds data major group m M c :
  groups data !! major = Some group →
  py_min group = Ok m → py_max group = Ok M →
  Vlt m M → epoch m = 0%N →
  (TestVer.mid_of m M = Ok (Some c) →
     (∃ out, get_version_candidates data = Ok out ∧ c ∈ out)
     ∧ ∃ v, parse_version c = Ok v ∧ Vlt m v ∧ Vlt v M)
  ∧ (VerifyVersions.mid_of m M = Ok (Some c) →
     (∃ out, generate_candidates data = Ok out ∧ c ∈ out)
     ∧ ∃ v, parse_version c = Ok v ∧ Vlt v M
            ∧ (gap_exceeds_one m M → Vlt m v)).
Proof.
  intros Hg Hm HM Hlt He. split.
  - intros Hc. split.
    { apply (tv_candidate_in_output data major group Midpoint); [done|].
      by exists m, M. }
    destruct (tv_mid_of_spec m M) as [[Hn _]|(k & a & b & _ & Hfd & Hgap & Hs)];
      [congruence|].
    rewrite Hs in Hc. injection Hc as <-.
    eexists. split; [apply parse_join_dots, halfway_nonempty|].
    by eapply halfway_between.
  - intros Hc. split.
    { apply (vv_candidate_in_output data major group Midpoint); [done|].
      by exists m, M. }
    destruct (vv_mid_of_spec m M) as [[Hn _]|(k & a & b & _ & Hfd & Hne & Hs)];
      [congruence|].
    cbn zeta in Hs, Hne. rewrite Hs in Hc. injection Hc as <-. clear Hs.
    destruct (1 <? Z.of_N b - Z.of_N a)%Z eqn:Hgap.
    + apply Z.ltb_lt in Hgap.
      eexists. split; [by apply parse_join_dots, trim_zeros_nonempty|].
      destruct (halfway_between m M k a b
                  (VerifyVersions.trim_zeros
                     (length (halfway_parts (padded m (len_max m M))
                                (len_max m M) k a b))
                     (halfway_parts (padded m (len_max m M))
                        (len_max m M) k a b)) Hlt He Hfd Hgap)
        as [Hlo Hhi]; [by rewrite trim_zeros_strip|].
      split; [exact Hhi|]. intros _. exact Hlo.
    + apply Z.ltb_ge in Hgap.
      eexists. split; [by apply parse_join_dots, trim_zeros_nonempty|]. split.
      * apply plain_below_max. intros HeM. rewrite trim_zeros_strip.
        apply (deeper_below_max m M k a b Hfd).
        apply (first_diff_gap_pos m M k a b Hfd Hlt). congruence.
      * intros (k' & a' & b' & Hfd' & Hgap').
        destruct (first_diff_unique _ _ _ _ _ _ _ _ Hfd Hfd') as (-> & -> & ->).
        lia.
Qed.

(** The midpoint of the group of major 1 is "1.4.0". *)
Lemma produced_midpoint_bounds_witness :
  let data := [record "1.2.0" "1.6.0"; record "2.0.0" "2.2.0"] in
  let group := [plain [1; 2; 0]; plain [1; 6; 0]]%N in
  let m := plain [1; 2; 0]%N in
  let M := plain [1; 6; 0]%N in
  let c := "1.4.0"%string in
  groups data !! 1%N = Some group
  ∧ py_min group = Ok m ∧ py_max group = Ok M
  ∧ Vlt m M ∧ epoch m = 0%N
  ∧ (TestVer.mid_of m M = Ok (Some c) →
       (∃ out, get_version_candidates data = Ok out ∧ c ∈ out)
       ∧ ∃ v, parse_version c = Ok v ∧ Vlt m v ∧ Vlt v M)
  ∧ (VerifyVersions.mid_of m M = Ok (Some c) →
       (∃ out, generate_candidates data = Ok out ∧ c ∈ out)
       ∧ ∃ v, parse_version c = Ok v ∧ Vlt v M
              ∧ (gap_exceeds_one m M → Vlt m v)).
Proof.
  intros data group m M c.
  refine (conj _ (conj _ (conj _ (conj _ (conj _
            (produced_midpoint_bounds data 1%N group m M c _ _ _ _ _))))));
    by vm_compute.
Defined.

(** C1, as stated, fails in both functions: for the record 1!1.0 / 1!1.5
    the midpoint candidate is "1.2", which has no epoch and is read back
    as a version below the group minimum 1!1.0. *)
Lemma produced_midpoint_below_minimum :
  let data := [record "1!1.0" "1!1.5"] in
  let m := mkVersion 1 [1; 0]%N None None None None in
  let M := mkVersion 1 [1; 5]%N None None None None in
  groups data !! 1%N = Some [m; M]
  ∧ py_min [m; M] = Ok m ∧ py_max [m; M] = Ok M ∧ Vlt m M
  ∧ TestVer.mid_of m M = Ok (Some "1.2"%string)
  ∧ VerifyVersions.mid_of m M = Ok (Some "1.2"%string)
  ∧ get_version_candidates data = Ok ["0.0"; "1!1.5"; "1.2"]%string
  ∧ generate_candidates data = Ok ["0.0"; "1.2"; "1!1.0"; "1!1.5"]%string
  ∧ parse_version "1.2" = Ok (plain [1; 2]%N)
  ∧ Vlt (plain [1; 2]%N) m
  ∧ ¬ Vlt m (plain [1; 2]%N).
Proof. by vm_compute. Qed.

(** The gap-of-1 branch of [generate_candidates] can fall below the group
    minimum: for 1.2.9 / 1.3.0 it yields "1.2.5". *)
Lemma deeper_midpoint_below_minimum :
  let data := [record "1.2.9" "1.3.0"] in
  groups data !! 1%N = Some [plain [1; 2; 9]; plain [1; 3; 0]]%N
  ∧ VerifyVersions.mid_of (plain [1; 2; 9]%N) (plain [1; 3; 0]%N)
    = Ok (Some "1.2.5"%string)
  ∧ generate_candidates data = Ok ["1.2.5"; "1.2.8"; "1.2.9"; "1.3.0"]%string
  ∧ parse_version "1.2.5" = Ok (plain [1; 2; 5]%N)
  ∧ Vlt (plain [1; 2; 5]%N) (plain [1; 2; 9]%N).
Proof. by vm_compute. Qed.

(** The gap-of-1 branch of [generate_candidates]: the components of the
    minimum up to and including the differing index, then a 5. *)
Lemma generate_candidates_deeper_midpoint data major group m M k a b :
  groups data !! major = Some group →
  py_min group = Ok m → py_max group = Ok M →
  Vlt m M →
  first_diff (padded m (len_max m M)) (padded M (len_max m M)) k a b →
  (Z.of_N b - Z.of_N a = 1)%Z →
  let c := join_dots (deeper_parts (padded m (len_max m M)) k) in
  VerifyVersions.mid_of m M = Ok (Some c)
  ∧ ∃ out, generate_candidates data = Ok out ∧ c ∈ out.
Proof.
  intros Hg Hm HM Hlt Hfd Hgap c.
  pose proof (vv_mid_of_first_diff m M k a b Hlt Hfd) as Hvv.
  cbn zeta in Hvv. rewrite Hgap in Hvv. simpl in Hvv.
  rewrite trim_zeros_deeper in Hvv. split; [done|].
  apply (vv_candidate_in_output data major group Midpoint); [done|].
  by exists m, M.
Qed.

(** C2.  [get_version_candidates] produces no midpoint at a gap of 1: for
    the record 1.0.0 / 1.1.0 the releases first differ at index 1 by 1, the
    sibling [generate_candidates] returns the midpoint "1.0.5", and
    [get_version_candidates] returns none. *)
Theorem deeper_midpoint_missing :
  let data := [record "1.0.0" "1.1.0"] in
  let m := plain [1; 0; 0]%N in
  let M := plain [1; 1; 0]%N in
  groups data !! 1%N = Some [m; M]
  ∧ py_min [m; M] = Ok m ∧ py_max [m; M] = Ok M ∧ Vlt m M
  ∧ first_diff (padded m (len_max m M)) (padded M (len_max m M)) 1 0%N 1%N
  ∧ join_dots (deeper_parts (padded m (len_max m M)) 1) = "1.0.5"%string
  ∧ VerifyVersions.mid_of m M = Ok (Some "1.0.5"%string)
  ∧ generate_candidates data = Ok ["0.0.0"; "1.0.0"; "1.0.5"; "1.1.0"]%string
  ∧ TestVer.mid_of m M = Ok None
  ∧ get_version_candidates data = Ok ["0.0.0"; "1.1.0"]%string.
Proof. by vm_compute. Qed.

(** C3, as amended.  Every string of the output of
    [get_version_candidates] is a below-minimum candidate, a group maximum
    or a midpoint candidate of some major-version group; every string of
    the output of [generate_candidates] is one of these or the minimum of
    some major-version group. *)
Theorem output_kinds data :
  (∃ out, get_version_candidates data = Ok out
          ∧ ∀ s, s ∈ out →
              ∃ major group k, groups data !! major = Some group
                ∧ k ≠ GroupMin ∧ tv_candidate k group s)
  ∧ (∃ out, generate_candidates data = Ok out
          ∧ ∀ s, s ∈ out →
              ∃ major group k, groups data !! major = Some group
                ∧ vv_candidate k group s).
Proof.
  split.
  - destruct (get_version_candidates_spec data) as (out & Hout & Hin).
    exists out. split; [done|]. intros s (major & g & k & Hg & Hk)%Hin.
    exists major, g, k. split_and!; [done| |done]. intros ->.
    by destruct Hk as (? & ? & _ & _ & ?).
  - destruct (generate_candidates_spec data) as (out & Hout & Hin).
    exists out. split; [done|]. by intros s ?%Hin.
Qed.

(** C3, as stated, fails for [generate_candidates]: for the record
    1.2.0 / 1.6.0 its output holds "1.2.0", the group minimum, which is
    none of the below-minimum candidate "1.1.0", the maximum "1.6.0" and
    the midpoint "1.4.0" of the only group. *)
Lemma group_minimum_is_a_fourth_kind :
  let data := [record "1.2.0" "1.6.0"] in
  ∃ out, generate_candidates data = Ok out
    ∧ "1.2.0"%string ∈ out
    ∧ ¬ ∃ major group k, groups data !! major = Some group
          ∧ k ≠ GroupMin ∧ vv_candidate k group "1.2.0"%string.
Proof.
  intros data. eexists. split; [by vm_compute|]. split.
  { by apply list_elem_of_In; vm_compute; tauto. }
  intros (major & group & k & Hg & Hk & m & M & Hm & HM & Hc).
  assert (groups data = {[ 1%N := [plain [1; 2; 0]; plain [1; 6; 0]]%N ]})
    as Heq by (by vm_compute).
  rewrite Heq in Hg. apply lookup_singleton_Some in Hg as [<- <-].
  vm_compute in Hm, HM. simplify_eq.
  destruct k; [| done | |]; vm_compute in Hc; simplify_eq.
Qed.

(** Every string of the output of [generate_candidates] is read back as a
    version, and the versions are in non-decreasing order. *)
Lemma generate_candidates_sorted data :
  ∃ out vs, generate_candidates data = Ok out
    ∧ Forall2 (λ s v, parse_version s = Ok v) out vs
    ∧ StronglySorted Vle vs.
Proof.
  unfold generate_candidates.
  destruct (extract_versions data) as [|x l] eqn:Hvs.
  - exists [], []. split_and!; [done|constructor|constructor].
  - rewrite <- Hvs. fold (groups data).
    destruct (vv_loop_spec data) as (fc & Hfc & _). rewrite Hfc, bind_Ok.
    destruct (sorted_by_version_spec (elements fc) (vv_loop_parses data fc Hfc))
      as (keyed & -> & _ & Hall).
    exists ((merge_sort VerifyVersions.key_le keyed).*2),
           ((merge_sort VerifyVersions.key_le keyed).*1).
    split_and!; [done|..].
    + apply Forall2_fmap, Forall_Forall2_diag.
      by rewrite merge_sort_Permutation.
    + apply (StronglySorted_fmap _ VerifyVersions.key_le); [done|].
      apply StronglySorted_merge_sort; apply _.
Qed.

(** Every string of the output of [get_version_candidates] is read back as
    a version. *)
Lemma get_version_candidates_parses data :
  ∃ out, get_version_candidates data = Ok out
    ∧ ∀ s, s ∈ out → ∃ v, parse_version s = Ok v.
Proof.
  destruct (get_version_candidates_final data) as (out & Hout & Hp).
  exists out. split; [done|]. intros s Hs. destruct (Hp s Hs) as (v & ? & _).
  by exists v.
Qed.

(** C4.  [get_version_candidates] sorts its strings as strings: for the
    record 1.10.0 / 1.10.0 it returns "1.10.0" before "1.9.0", although
    1.9.0 is the smaller version; the sibling [generate_candidates] returns
    them in version order. *)
Theorem string_order_is_not_version_order :
  let data := [record "1.10.0" "1.10.0"] in
  get_version_candidates data = Ok ["1.10.0"; "1.9.0"]%string
  ∧ parse_version "1.10.0" = Ok (plain [1; 10; 0]%N)
  ∧ parse_version "1.9.0" = Ok (plain [1; 9; 0]%N)
  ∧ Vlt (plain [1; 9; 0]%N) (plain [1; 10; 0]%N)
  ∧ ¬ Vle (plain [1; 10; 0]%N) (plain [1; 9; 0]%N)
  ∧ generate_candidates data = Ok ["1.9.0"; "1.10.0"]%string.
Proof. by vm_compute. Qed.





(** C7.  No string of the output of either function is read as a
    pre-release, and removing the fields that hold a pre-release from the
    records of the input changes the output of neither function. *)
Theorem prerelease_exclusion data :
  (∃ out, generate_candidates data = Ok out
          ∧ ∀ s, s ∈ out → ∃ v, parse_version s = Ok v ∧ is_prerelease v = false)
  ∧ (∃ out, get_version_candidates data = Ok out
          ∧ ∀ s, s ∈ out → ∃ v, parse_version s = Ok v ∧ is_prerelease v = false)
  ∧ generate_candidates (drop_prerelease <$> data) = generate_candidates data
  ∧ get_version_candidates (drop_prerelease <$> data)
    = get_version_candidates data.
Proof.
  split_and!.
  - apply generate_candidates_final.
  - apply get_version_candidates_final.
  - unfold generate_candidates. by rewrite extract_versions_drop_prerelease.
  - unfold get_version_candidates. by rewrite extract_versions_drop_prerelease.
Qed.


(** C9, as amended.  For every group with minimum [m < M] whose
    zero-padded releases first differ at an index where the components
    differ by more than 1, and whose minimum has no epoch, both functions
    produce the midpoint made of the components of [m] before that index,
    the component halfway between the two at that index and zeros after
    ([generate_candidates] drops trailing zeros beyond three components);
    it is in the output and is read back strictly between [m] and [M]. *)
Theorem halfway_midpoint_between data major group m M k a b :
  groups data !! major = Some group →
  py_min group = Ok m → py_max group = Ok M →
  Vlt m M →
  first_diff (padded m (len_max m M)) (padded M (len_max m M)) k a b →
  (1 < Z.of_N b - Z.of_N a)%Z →
  epoch m = 0%N →
  let mid := halfway_parts (padded m (len_max m M)) (len_max m M) k a b in
  let c_tv := join_dots mid in
  let c_vv := join_dots (VerifyVersions.trim_zeros (length mid) mid) in
  TestVer.mid_of m M = Ok (Some c_tv)
  ∧ VerifyVersions.mid_of m M = Ok (Some c_vv)
  ∧ (∃ out, get_version_candidates data = Ok out ∧ c_tv ∈ out)
  ∧ (∃ out, generate_candidates data = Ok out ∧ c_vv ∈ out)
  ∧ (∃ v, parse_version c_tv = Ok v ∧ Vlt m v ∧ Vlt v M)
  ∧ (∃ v, parse_version c_vv = Ok v ∧ Vlt m v ∧ Vlt v M).
Proof.
  intros Hg Hm HM Hlt Hfd Hgap He mid c_tv c_vv.
  pose proof (tv_mid_of_halfway m M k a b Hlt Hfd Hgap) as Htv.
  pose proof (vv_mid_of_first_diff m M k a b Hlt Hfd) as Hvv.
  cbn zeta in Hvv. apply Z.ltb_lt in Hgap as Hb. rewrite Hb in Hvv.
  split_and!; [done|done|..].
  - apply (tv_candidate_in_output data major group Midpoint); [done|].
    by exists m, M.
  - apply (vv_candidate_in_output data major group Midpoint); [done|].
    by exists m, M.
  - eexists. split; [apply parse_join_dots, halfway_nonempty|].
    by eapply halfway_between.
  - eexists.
    split; [apply parse_join_dots, trim_zeros_nonempty, halfway_nonempty|].
    eapply halfway_between; [done..|]. by rewrite trim_zeros_strip.
Qed.

(** The releases 1.2.0 and 1.6.0 first differ at index 1, by 4. *)
Lemma halfway_midpoint_between_witness :
  let data := [record "1.2.0" "1.6.0"; record "2.0.0" "2.2.0"] in
  let group := [plain [1; 2; 0]; plain [1; 6; 0]]%N in
  let m := plain [1; 2; 0]%N in
  let M := plain [1; 6; 0]%N in
  groups data !! 1%N = Some group
  ∧ py_min group = Ok m ∧ py_max group = Ok M
  ∧ Vlt m M
  ∧ first_diff (padded m (len_max m M)) (padded M (len_max m M)) 1 2%N 6%N
  ∧ (1 < Z.of_N 6 - Z.of_N 2)%Z
  ∧ epoch m = 0%N
  ∧ let mid := halfway_parts (padded m (len_max m M)) (len_max m M) 1 2%N 6%N in
    let c_tv := join_dots mid in
    let c_vv := join_dots (VerifyVersions.trim_zeros (length mid) mid) in
    TestVer.mid_of m M = Ok (Some c_tv)
    ∧ VerifyVersions.mid_of m M = Ok (Some c_vv)
    ∧ (∃ out, get_version_candidates data = Ok out ∧ c_tv ∈ out)
    ∧ (∃ out, generate_candidates data = Ok out ∧ c_vv ∈ out)
    ∧ (∃ v, parse_version c_tv = Ok v ∧ Vlt m v ∧ Vlt v M)
    ∧ (∃ v, parse_version c_vv = Ok v ∧ Vlt m v ∧ Vlt v M).
Proof.
  intros data group m M.
  refine (conj _ (conj _ (conj _ (conj _ (conj _ (conj _ (conj _
            (halfway_midpoint_between data 1%N group m M 1 2%N 6%N
               _ _ _ _ _ _ _))))))));
    by vm_compute.
Defined.

(** C9, as stated, fails: for the record 2!3.0 / 2!3.8 the releases first
    differ at index 1 by 8, the midpoint is "3.4", and it is read back as a
    version below the group minimum 2!3.0. *)
Lemma halfway_midpoint_ignores_epoch :
  let data := [record "2!3.0" "2!3.8"] in
  let m := mkVersion 2 [3; 0]%N None None None None in
  let M := mkVersion 2 [3; 8]%N None None None None in
  groups data !! 3%N = Some [m; M]
  ∧ py_min [m; M] = Ok m ∧ py_max [m; M] = Ok M ∧ Vlt m M
  ∧ first_diff (padded m (len_max m M)) (padded M (len_max m M)) 1 0%N 8%N
  ∧ halfway_parts (padded m (len_max m M)) (len_max m M) 1 0%N 8%N = [3; 4]%N
  ∧ TestVer.mid_of m M = Ok (Some "3.4"%string)
  ∧ VerifyVersions.mid_of m M = Ok (Some "3.4"%string)
  ∧ parse_version "3.4" = Ok (plain [3; 4]%N)
  ∧ Vlt (plain [3; 4]%N) m
  ∧ ¬ Vlt m (plain [3; 4]%N).
Proof. by vm_compute. Qed.



(** * Further properties of the two scripts *)

(** ** The text of the candidates *)

Lemma str_plain parts : str (plain parts) = join_dots parts.
Proof. unfold join_dots, str, str_chars, plain. simpl. by rewrite !app_nil_r. Qed.

Lemma parts_canonical (r : option string) s :
  (∀ s, r = Some s → ∃ parts', s = join_dots parts' ∧ parts' ≠ []) →
  r = Some s → ∃ v, parse_version s = Ok v ∧ str v = s.
Proof.
  intros Hr Hs. destruct (Hr s Hs) as (parts & -> & Hne). exists (plain parts).
  split; [by apply parse_join_dots|apply str_plain].
Qed.

Lemma final_canonical v : final v → ∃ w, parse_version (str v) = Ok w ∧ str w = str v.
Proof. intros (Hwf & Hpre & Hdev). exists v. split; [by apply parse_str|done]. Qed.


Lemma tv_candidate_canonical k g s :
  good_group (0%N, g) → tv_candidate k g s →
  ∃ v, parse_version s = Ok v ∧ str v = s.
Proof.
  intros [Hne Hfin] (m & M & Hm & HM & Hk). simpl in *.
  assert (final M) as HfM by (by apply Hfin, py_max_elem).
  destruct k.
  - destruct (tv_pre_min_of_total m) as (r & Hr & Hparts).
    rewrite Hr in Hk. injection Hk as ->. by eapply parts_canonical.
  - done.
  - subst s. by apply final_canonical.
  - destruct (tv_mid_of_total m M) as (r & Hr & Hparts).
    rewrite Hr in Hk. injection Hk as ->. by eapply parts_canonical.
Qed.

Lemma group_good data major g :
  groups data !! major = Some g → good_group (0%N, g).
Proof.
  intros Hg. apply groups_spec in Hg as [Hne Hin]. split; [done|].
  intros v Hv. by apply Hin.
Qed.




(** ** The order of the outputs *)

(** X3. The list [generate_candidates] returns has no duplicates, every
    string of it is read back as a version, and these versions are in
    non-decreasing order. *)
Theorem generate_candidates_ordered data :
  ∃ out vs,
    generate_candidates data = Ok out
    ∧ NoDup out
    ∧ Forall2 (λ s v, parse_version s = Ok v) out vs
    ∧ StronglySorted Vle vs.
Proof.
  destruct (generate_candidates_sorted data) as (out & vs & Hout & Hp & Hs).
  exists out, vs. split_and!; [done| |done..].
  revert Hout. unfold generate_candidates.
  destruct (extract_versions data) as [|x l].
  - intros [= <-]. constructor.
  - destruct (foldlM _ _ _) as [fc|]; [|done]. rewrite bind_Ok.
    intros ->%sorted_by_version_perm. apply NoDup_elements.
Qed.

(** X4. The list [get_version_candidates] returns is in ascending order of
    strings and has no duplicates. *)
Theorem get_version_candidates_ascending data :
  ∃ out, get_version_candidates data = Ok out
         ∧ StronglySorted String.le out ∧ NoDup out.
Proof.
  destruct (get_version_candidates_spec data) as (out & Hout & _).
  exists out. split; [done|]. revert Hout. unfold get_version_candidates.
  destruct (extract_versions data) as [|x l].
  - intros [= <-]. split; constructor.
  - destruct (foldlM _ _ _) as [fc|]; [|done]. rewrite bind_Ok.
    intros [= <-]. split.
    + apply StronglySorted_merge_sort; apply _.
    + rewrite merge_sort_Permutation. apply NoDup_elements.
Qed.

(** ** The groups *)

Lemma group_by_major_filter vs major :
  group_by_major vs !! major
  = match filter (λ v, get_major v = major) vs with
    | [] => None
    | g => Some g
    end.
Proof.
  induction vs as [|w vs IH] using rev_ind; [done|].
  rewrite group_by_major_snoc, filter_app, filter_cons, filter_nil.
  destruct (decide (get_major w = major)) as [Heq|Hne].
  - subst major. rewrite lookup_alter_eq. case_bool_decide as Hsome.
    + destruct Hsome as [g Hg]. rewrite Hg. simpl. rewrite Hg in IH.
      destruct (filter _ vs) as [|y l]; [done|]. by injection IH as ->.
    + rewrite lookup_insert_eq. simpl.
      destruct (filter _ vs) as [|y l]; [done|]. rewrite IH in Hsome.
      by destruct Hsome.
  - rewrite lookup_alter_ne by done. rewrite app_nil_r.
    case_bool_decide; [done|]. by rewrite lookup_insert_ne.
Qed.

(** X5. The group of a major component holds exactly the versions of the
    working set with that component, in the order in which they were read,
    and a component with no such version has no group. *)
Theorem groups_partition data major g :
  groups data !! major = Some g
  ↔ g ≠ [] ∧ g = filter (λ v, get_major v = major) (extract_versions data).
Proof.
  unfold groups. rewrite group_by_major_filter.
  destruct (filter _ _) as [|y l]; split.
  - done.
  - by intros [? ->].
  - by intros [= <-].
  - by intros [_ ->].
Qed.

(** X6. The key of a group is the first release component of each of its
    members: no release is empty, so [get_major] never returns its default
    0 for a version with no release. *)
Theorem group_key_first_component data major g v :
  groups data !! major = Some g → v ∈ g →
  ∃ rest, release v = major :: rest.
Proof.
  intros Hg Hv. apply groups_spec in Hg as [_ Hin].
  destruct (Hin v Hv) as (_ & ((Hne & _) & _) & Hmaj).
  unfold get_major in Hmaj. destruct (release v) as [|x rest]; [done|].
  exists rest. by subst x.
Qed.

(** The group of major 3 of the record 3.1 / 4.0 holds 3.1. *)
Lemma group_key_first_component_witness :
  groups [record "3.1" "4.0"] !! 3%N = Some [plain [3; 1]%N]
  ∧ plain [3; 1]%N ∈ [plain [3; 1]%N]
  ∧ ∃ rest, release (plain [3; 1]%N) = 3%N :: rest.
Proof.
  refine (conj _ (conj _ (group_key_first_component
            [record "3.1" "4.0"] 3%N [plain [3; 1]%N] (plain [3; 1]%N) _ _)));
    vm_compute; first [done|left].
Defined.

(** ** Minimum and maximum of a group *)

(** X7. [min(group)] and [max(group)] return members of the group that are
    a least and a greatest one in the order of versions. *)
Theorem group_bounds data major g :
  groups data !! major = Some g →
  ∃ m M, py_min g = Ok m ∧ py_max g = Ok M ∧ m ∈ g ∧ M ∈ g
         ∧ ∀ v, v ∈ g → Vle m v ∧ Vle v M.
Proof.
  intros [Hne _]%groups_spec.
  destruct (py_min_Ok g Hne) as (m & Hm & Hmin).
  destruct (py_max_Ok g Hne) as (M & HM & HMin).
  exists m, M. split_and!; [done..|]. intros v Hv. split.
  - by eapply py_min_least.
  - by eapply py_max_greatest.
Qed.

(** The group of major 1 of the records 1.6.0 / 1.2 and 1.4 / 2.0. *)
Lemma group_bounds_witness :
  let data := [record "1.6.0" "1.2"; record "1.4" "2.0"] in
  let g := [plain [1; 6; 0]; plain [1; 2]; plain [1; 4]]%N in
  groups data !! 1%N = Some g
  ∧ ∃ m M, py_min g = Ok m ∧ py_max g = Ok M ∧ m ∈ g ∧ M ∈ g
           ∧ ∀ v, v ∈ g → Vle m v ∧ Vle v M.
Proof.
  refine (conj _ (group_bounds
            [record "1.6.0" "1.2"; record "1.4" "2.0"] 1%N
            [plain [1; 6; 0]; plain [1; 2]; plain [1; 4]]%N _)); by vm_compute.
Defined.

Lemma Vcmp_Eq_key v w : Vcmp v w = Eq ↔ _cmpkey v = _cmpkey w.
Proof. unfold Vcmp. apply cmp_eq. Qed.

Lemma foldl_keep {A} (f : A → A → A) x l :
  (∀ y, y ∈ l → f x y = x) → foldl f x l = x.
Proof.
  induction l as [|y l IH]; [done|]. intros H. simpl.
  rewrite H by left. apply IH. intros z Hz. apply H. by right.
Qed.

(** When no member of a group is smaller than another, [min] and [max]
    both return the first member. *)
Lemma py_min_max_first x rest :
  (∀ v, v ∈ x :: rest → Vcmp v x = Eq) →
  py_min (x :: rest) = Ok x ∧ py_max (x :: rest) = Ok x.
Proof.
  intros H. unfold py_min, py_max. split; f_equal; apply foldl_keep.
  - intros y Hy. unfold Vltb. rewrite H by (by right).
    by rewrite bool_decide_eq_false_2.
  - intros y Hy. unfold Vgtb. rewrite H by (by right).
    by rewrite bool_decide_eq_false_2.
Qed.

Lemma Vle_Vle_Eq v w : Vle v w → Vle w v → Vcmp v w = Eq.
Proof.
  unfold Vle. rewrite (Vcmp_antisym v w). by destruct (Vcmp v w).
Qed.

(** X8. A degenerate group: when the minimum is not below the maximum, the
    two are the same member, the first one of the group, and neither script
    has a midpoint candidate for the group. *)
Theorem degenerate_group data major g m M :
  groups data !! major = Some g →
  py_min g = Ok m → py_max g = Ok M → ¬ Vlt m M →
  m = M ∧ head g = Some m
  ∧ ∀ s, ¬ vv_candidate Midpoint g s ∧ ¬ tv_candidate Midpoint g s.
Proof.
  intros Hg Hm HM Hnlt.
  assert (Vcmp m M = Eq) as Heq.
  { apply Vle_Vle_Eq; [|by apply not_Vlt_Vle].
    eapply py_min_least; [done|]. by apply py_max_elem. }
  apply Vcmp_Eq_key in Heq.
  destruct g as [|x rest]; [done|].
  assert (∀ v, v ∈ x :: rest → _cmpkey v = _cmpkey m) as Hall.
  { intros v Hv. apply Vcmp_Eq_key, Vle_Vle_Eq.
    - unfold Vle, Vcmp. rewrite Heq. by eapply py_max_greatest.
    - by eapply py_min_least. }
  destruct (py_min_max_first x rest) as [Hm' HM'].
  { intros v Hv. apply Vcmp_Eq_key. rewrite (Hall v Hv).
    symmetry. apply Hall. left. }
  rewrite Hm in Hm'. rewrite HM in HM'. injection Hm' as ->. injection HM' as ->.
  split_and!; [done..|]. intros s.
  assert (Vltb x x = false) as Hb.
  { unfold Vltb. apply bool_decide_eq_false_2. done. }
  split; intros (m' & M' & Hm' & HM' & Hmid);
    rewrite Hm in Hm'; rewrite HM in HM'; injection Hm' as <-; injection HM' as <-.
  - unfold VerifyVersions.mid_of in Hmid. by rewrite Hb in Hmid.
  - unfold TestVer.mid_of in Hmid. by rewrite Hb in Hmid.
Qed.

(** The record 1.0 / 1.0.0 holds two versions that compare equal. *)
Lemma degenerate_group_witness :
  let data := [record "1.0" "1.0.0"] in
  let g := [plain [1; 0]; plain [1; 0; 0]]%N in
  let m := plain [1; 0]%N in
  groups data !! 1%N = Some g ∧ py_min g = Ok m ∧ py_max g = Ok m
  ∧ ¬ Vlt m m
  ∧ m = m ∧ head g = Some m
  ∧ ∀ s, ¬ vv_candidate Midpoint g s ∧ ¬ tv_candidate Midpoint g s.
Proof.
  refine (conj _ (conj _ (conj _ (conj _
            (degenerate_group [record "1.0" "1.0.0"] 1%N
               [plain [1; 0]; plain [1; 0; 0]]%N
               (plain [1; 0]%N) (plain [1; 0]%N) _ _ _ _))))); by vm_compute.
Defined.

(** ** The empty output *)

(** X9. Both functions return the empty list exactly when the working set
    is empty: no field of a record holds a version that is not a
    pre-release. *)
Theorem output_empty_iff data :
  (generate_candidates data = Ok [] ↔ extract_versions data = [])
  ∧ (get_version_candidates data = Ok [] ↔ extract_versions data = []).
Proof.
  assert (extract_versions data ≠ [] →
          ∃ major g m M, groups data !! major = Some g ∧ py_min g = Ok m
                         ∧ py_max g = Ok M) as Hgrp.
  { intros Hne. destruct (extract_versions data) as [|v l] eqn:Hvs; [done|].
    destruct (groups_complete data v) as (g & Hg & Hv).
    { apply extract_versions_spec. rewrite Hvs. left. }
    destruct (py_min_Ok g) as (m & Hm & _); [by intros ->; inversion Hv|].
    destruct (py_max_Ok g) as (M & HM & _); [by intros ->; inversion Hv|].
    by exists (get_major v), g, m, M. }
  split; split.
  - intros Hout. destruct (decide (extract_versions data = [])) as [|Hne]; [done|].
    destruct (Hgrp Hne) as (major & g & m & M & Hg & Hm & HM).
    destruct (vv_candidate_in_output data major g GroupMin (str m) Hg)
      as (out & Hout' & Hin); [by exists m, M|].
    rewrite Hout in Hout'. injection Hout' as <-. by apply elem_of_nil in Hin.
  - intros Hvs. unfold generate_candidates. by rewrite Hvs.
  - intros Hout. destruct (decide (extract_versions data = [])) as [|Hne]; [done|].
    destruct (Hgrp Hne) as (major & g & m & M & Hg & Hm & HM).
    destruct (tv_candidate_in_output data major g GroupMax (str M) Hg)
      as (out & Hout' & Hin); [by exists m, M|].
    rewrite Hout in Hout'. injection Hout' as <-. by apply elem_of_nil in Hin.
  - intros Hvs. unfold get_version_candidates. by rewrite Hvs.
Qed.

(** ** The trimming loop of verify_versions.py *)

Lemma trim_zeros_post fuel l :
  (length l ≤ fuel)%nat →
  ∃ k, l = VerifyVersions.trim_zeros fuel l ++ replicate k 0%N
       ∧ ((length (VerifyVersions.trim_zeros fuel l) ≤ 3)%nat
          ∨ last (VerifyVersions.trim_zeros fuel l) ≠ Some 0%N)
       ∧ ((3 ≤ length l)%nat →
          (3 ≤ length (VerifyVersions.trim_zeros fuel l))%nat).
Proof.
  revert l. induction fuel as [|fuel IH]; intros l Hlen.
  - destruct l; [|simpl in Hlen; lia]. exists 0%nat. simpl.
    split_and!; [done|left; lia|lia].
  - simpl. destruct (bool_decide (3 < length l)%nat) eqn:Hlong; simpl.
    + destruct (bool_decide (last l = Some 0%N)) eqn:Hlast.
      * apply bool_decide_eq_true in Hlong, Hlast.
        apply last_Some in Hlast as [l' ->]. rewrite removelast_last.
        rewrite length_app in Hlong, Hlen. simpl in Hlong, Hlen.
        destruct (IH l') as (k & Hk & Hend & Hmin); [lia|].
        exists (S k). split_and!; [|done|intros _; apply Hmin; lia].
        rewrite replicate_S_end, app_assoc. by rewrite <- Hk.
      * apply bool_decide_eq_false in Hlast. exists 0%nat.
        rewrite app_nil_r. split_and!; [done|by right|done].
    + apply bool_decide_eq_false in Hlong. exists 0%nat.
      rewrite app_nil_r. split_and!; [done|left; lia|done].
Qed.

(** X10. The loop [while len(mid_parts) > 3 and mid_parts[-1] == 0: pop()],
    run on a list of any length, removes trailing zeros only, stops as soon
    as three components are left or the last one is not zero, and never
    goes below three components. *)
Theorem trim_zeros_spec mid_parts :
  ∃ trimmed k,
    VerifyVersions.trim_zeros (length mid_parts) mid_parts = trimmed
    ∧ mid_parts = trimmed ++ replicate k 0%N
    ∧ ((length trimmed ≤ 3)%nat ∨ last trimmed ≠ Some 0%N)
    ∧ ((3 ≤ length mid_parts)%nat → (3 ≤ length trimmed)%nat).
Proof.
  destruct (trim_zeros_post (length mid_parts) mid_parts) as (k & Hk);
    [done|].
  by exists (VerifyVersions.trim_zeros (length mid_parts) mid_parts), k.
Qed.

Lemma trim_zeros_head fuel x l :
  ∃ l', VerifyVersions.trim_zeros fuel (x :: l) = x :: l'.
Proof.
  revert l. induction fuel as [|fuel IH]; intros l; [by exists l|].
  cbn [VerifyVersions.trim_zeros].
  destruct (bool_decide (3 < length (x :: l))%nat) eqn:Hlong;
    [|by exists l].
  destruct (bool_decide (last (x :: l) = Some 0%N)) eqn:Hlast;
    [|by exists l].
  cbn [andb]. apply bool_decide_eq_true in Hlong.
  destruct l as [|y l]; [simpl in Hlong; lia|].
  change (removelast (x :: y :: l)) with (x :: removelast (y :: l)).
  apply IH.
Qed.

Lemma trim_zeros_short fuel l :
  (length l ≤ 3)%nat → VerifyVersions.trim_zeros fuel l = l.
Proof.
  intros Hlen. destruct fuel; [done|]. simpl.
  rewrite bool_decide_eq_false_2 by lia. done.
Qed.

(** ** The major component of the candidates *)

Lemma group_member_release data major g v :
  groups data !! major = Some g → v ∈ g → ∃ rest, release v = major :: rest.
Proof.
  intros Hg Hv. apply groups_spec in Hg as [_ Hin].
  destruct (Hin v Hv) as (_ & ((Hne & _) & _) & Hmaj).
  unfold get_major in Hmaj. destruct (release v) as [|x rest]; [done|].
  exists rest. by subst x.
Qed.

Lemma first_diff_same_head x p q k a b :
  first_diff (x :: p) (x :: q) k a b → ∃ k', k = S k'.
Proof.
  intros (_ & Ha & Hb & Hne). destruct k as [|k']; [|by exists k'].
  simpl in Ha, Hb. congruence.
Qed.

Lemma pad_cons x l n : pad (x :: l) n = x :: pad l (n - 1).
Proof.
  unfold pad. simpl.
  by replace (n - S (length l))%nat with (n - 1 - length l)%nat by lia.
Qed.

Lemma parse_parts_major x l :
  ∃ v, parse_version (join_dots (x :: l)) = Ok v ∧ get_major v = x.
Proof. eexists. split; [by apply parse_join_dots|done]. Qed.

(** X11. The midpoint candidate of a group stays in the group: in both
    scripts it is read back as a version whose first release component is
    the major component of the group. *)
Theorem midpoint_keeps_major data major g s :
  groups data !! major = Some g →
  vv_candidate Midpoint g s ∨ tv_candidate Midpoint g s →
  ∃ v, parse_version s = Ok v ∧ get_major v = major.
Proof.
  intros Hg Hs.
  assert (∃ m M r1 r2, py_min g = Ok m ∧ py_max g = Ok M
            ∧ release m = major :: r1 ∧ release M = major :: r2
            ∧ (VerifyVersions.mid_of m M = Ok (Some s)
               ∨ TestVer.mid_of m M = Ok (Some s)))
    as (m & M & r1 & r2 & Hm & HM & Hr1 & Hr2 & Hmid).
  { destruct Hs as [(m & M & Hm & HM & Hk)|(m & M & Hm & HM & Hk)];
      destruct (group_member_release data major g m Hg) as [r1 Hr1];
      try (by apply py_min_elem);
      destruct (group_member_release data major g M Hg) as [r2 Hr2];
      try (by apply py_max_elem);
      exists m, M, r1, r2; split_and!; auto. }
  assert (∀ k a b,
    first_diff (padded m (len_max m M)) (padded M (len_max m M)) k a b →
    ∃ l, (if (1 <? Z.of_N b - Z.of_N a)%Z
          then halfway_parts (padded m (len_max m M)) (len_max m M) k a b
          else deeper_parts (padded m (len_max m M)) k) = major :: l
         ∧ ∃ l', halfway_parts (padded m (len_max m M)) (len_max m M) k a b
                 = major :: l') as Hhead.
  { intros k a b Hfd. unfold padded in *. rewrite Hr1, Hr2, !pad_cons in *.
    destruct (first_diff_same_head _ _ _ _ _ _ Hfd) as [k' ->].
    unfold halfway_parts, deeper_parts. simpl.
    destruct (1 <? _)%Z; eauto. }
  destruct Hmid as [Hmid|Hmid].
  - destruct (vv_mid_of_spec m M) as [[Hnone _]|(k & a & b & _ & Hfd & Hmid')].
    + congruence.
    + cbn zeta in Hmid'. destruct Hmid' as [_ Heq].
      destruct (Hhead k a b Hfd) as (l & Hl & _). rewrite Hl in Heq.
      destruct (trim_zeros_head (length (major :: l)) major l) as [l' Hl'].
      rewrite Hl' in Heq. rewrite Hmid in Heq. injection Heq as ->.
      apply parse_parts_major.
  - destruct (tv_mid_of_spec m M)
      as [[Hnone _]|(k & a & b & _ & Hfd & _ & Heq)].
    + congruence.
    + destruct (Hhead k a b Hfd) as (_ & _ & l' & Hl'). rewrite Hl' in Heq.
      rewrite Hmid in Heq. injection Heq as ->. apply parse_parts_major.
Qed.

(** The midpoint of the group of major 1 of the record 1.2.0 / 1.6.0. *)
Lemma midpoint_keeps_major_witness :
  let g := [plain [1; 2; 0]; plain [1; 6; 0]]%N in
  groups [record "1.2.0" "1.6.0"] !! 1%N = Some g
  ∧ (vv_candidate Midpoint g "1.4.0" ∨ tv_candidate Midpoint g "1.4.0")
  ∧ ∃ v, parse_version "1.4.0" = Ok v ∧ get_major v = 1%N.
Proof.
  refine (conj _ (conj _ (midpoint_keeps_major
            [record "1.2.0" "1.6.0"] 1%N
            [plain [1; 2; 0]; plain [1; 6; 0]]%N "1.4.0" _ _)));
    try (by vm_compute);
    left; exists (plain [1; 2; 0]%N), (plain [1; 6; 0]%N); by vm_compute.
Defined.

Lemma lookup_zero_forallb (l : list N) :
  (∀ j y, l !! j = Some y → y = 0%N) → forallb (λ x, x =? 0)%N l = true.
Proof.
  intros H. apply forallb_forall. intros y Hy%list_elem_of_In.
  apply list_elem_of_lookup in Hy as [j Hj]. apply N.eqb_eq. by eapply H.
Qed.

(** X12. The below-minimum candidate of a group has the major component of
    the group, unless the minimum is the first version of its major (all
    its later components are zero): then the candidate has the major
    component before, which is not negative. *)
Theorem below_minimum_major data major g s :
  groups data !! major = Some g →
  vv_candidate BelowMin g s ∨ tv_candidate BelowMin g s →
  ∃ m v, py_min g = Ok m ∧ parse_version s = Ok v
    ∧ if forallb (λ x, x =? 0)%N (tail (release m))
      then (0 < major)%N ∧ get_major v = (major - 1)%N
      else get_major v = major.
Proof.
  intros Hg Hs.
  assert (∃ m r, py_min g = Ok m ∧ release m = major :: r
                 ∧ VerifyVersions.pre_min_of m = Ok (Some s))
    as (m & r & Hm & Hr & Hpre).
  { destruct Hs as [(m & M & Hm & HM & Hk)|(m & M & Hm & HM & Hk)];
      destruct (group_member_release data major g m Hg) as [r Hr];
      try (by apply py_min_elem); exists m, r; split_and!; try done.
    rewrite <- tv_pre_min_of_eq; [done|]. by rewrite Hr. }
  destruct (vv_pre_min_of_spec m) as [[Hnone _]|(parts' & Heq & Hlow)].
  { by rewrite Hr. }
  { congruence. }
  rewrite Hpre in Heq. injection Heq as ->.
  destruct Hlow as (i & x & Hi & Hx & Hpos & Hzero & ->).
  rewrite Hr in *. exists m. destruct i as [|i]; simpl in *.
  - injection Hx as <-. eexists. split; [done|].
    split; [by apply parse_join_dots|].
    rewrite Hr. simpl. rewrite lookup_zero_forallb; [done|].
    intros j y Hj. apply (Hzero (S j) y); [|done].
    apply lookup_lt_Some in Hj. lia.
  - eexists. split; [done|]. split; [by apply parse_join_dots|].
    rewrite Hr. simpl.
    destruct (forallb _ r) eqn:Hall; [|done].
    rewrite forallb_forall in Hall.
    assert ((x =? 0)%N = true) as Hx0.
    { apply Hall, list_elem_of_In. by eapply list_elem_of_lookup_2. }
    apply N.eqb_eq in Hx0. lia.
Qed.

(** The below-minimum candidate of the group of major 2 of the record
    2.0.0 / 2.2.0 is "1.0.0". *)
Lemma below_minimum_major_witness :
  let g := [plain [2; 0; 0]; plain [2; 2; 0]]%N in
  groups [record "2.0.0" "2.2.0"] !! 2%N = Some g
  ∧ (vv_candidate BelowMin g "1.0.0" ∨ tv_candidate BelowMin g "1.0.0")
  ∧ ∃ m v, py_min g = Ok m ∧ parse_version "1.0.0" = Ok v
      ∧ if forallb (λ x, x =? 0)%N (tail (release m))
        then (0 < 2)%N ∧ get_major v = (2 - 1)%N
        else get_major v = 2%N.
Proof.
  refine (conj _ (conj _ (below_minimum_major
            [record "2.0.0" "2.2.0"] 2%N
            [plain [2; 0; 0]; plain [2; 2; 0]]%N "1.0.0" _ _)));
    try (by vm_compute);
    left; exists (plain [2; 0; 0]%N), (plain [2; 2; 0]%N); by vm_compute.
Defined.

(** ** The fields that are read *)

Lemma extract_key_agree (e e' : entry) vs key :
  e !! key = e' !! key → extract_key e vs key = extract_key e' vs key.
Proof. unfold extract_key. by intros ->. Qed.

Lemma extract_entry_agree (e e' : entry) ks vs :
  (∀ key, key ∈ ks → e !! key = e' !! key) →
  foldl (extract_key e) vs ks = foldl (extract_key e') vs ks.
Proof.
  revert vs. induction ks as [|key ks IH]; intros vs H; [done|].
  cbn [foldl]. rewrite (extract_key_agree e e') by (apply H; left).
  apply IH. intros k Hk. apply H. by right.
Qed.

Lemma extract_versions_agree data data' :
  Forall2 (λ e e' : entry, ∀ key, key ∈ keys → e !! key = e' !! key)
          data data' →
  extract_versions data = extract_versions data'.
Proof.
  unfold extract_versions. generalize (@nil Version).
  intros vs H. revert vs. induction H as [|e e' data data' He _ IH];
    intros vs; [done|].
  cbn [foldl]. rewrite (extract_entry_agree e e') by done. apply IH.
Qed.

(** X13. Only the fields [deprecated_in] and [removed_in] are read: two
    inputs whose records agree on these two fields, one by one, give the
    same result in both functions. *)
Theorem other_fields_ignored data data' :
  Forall2 (λ e e' : entry, ∀ key, key ∈ keys → e !! key = e' !! key)
          data data' →
  generate_candidates data = generate_candidates data'
  ∧ get_version_candidates data = get_version_candidates data'.
Proof.
  intros H%extract_versions_agree.
  unfold generate_candidates, get_version_candidates. by rewrite H.
Qed.

(** A record with a third field, and one without [removed_in]. *)
Lemma other_fields_ignored_witness :
  let e1 : entry := <["name" := "old_api"]> (record "1.2.0" "1.6.0") in
  let e2 : entry := {[ "deprecated_in" := "2.0"; "note" := "3.0" ]} in
  let e2' : entry := {[ "deprecated_in" := "2.0" ]} in
  Forall2 (λ e e' : entry, ∀ key, key ∈ keys → e !! key = e' !! key)
          [e1; e2] [record "1.2.0" "1.6.0"; e2']
  ∧ generate_candidates [e1; e2]
    = generate_candidates [record "1.2.0" "1.6.0"; e2']
  ∧ get_version_candidates [e1; e2]
    = get_version_candidates [record "1.2.0" "1.6.0"; e2'].
Proof.
  refine (conj _ (other_fields_ignored _ _ _));
    repeat constructor; intros key Hkey;
    repeat (apply elem_of_cons in Hkey as [->|Hkey]; [by vm_compute|]);
    by apply elem_of_nil in Hkey.
Defined.

(** ** The midpoint one level deeper *)

Lemma list_cmp_app_l (l r : list N) :
  list_cmp (l ++ r) l = match r with [] => Eq | _ => Gt end.
Proof.
  induction l as [|x l IH]; simpl; [by destruct r|].
  change (cmp x x) with (x ?= x)%N. by rewrite N.compare_refl.
Qed.

Lemma strip_zeros_snoc_pos l x : x ≠ 0%N → strip_zeros (l ++ [x]) = l ++ [x].
Proof.
  intros Hx. unfold strip_zeros. rewrite reverse_snoc. simpl.
  destruct (x =? 0)%N eqn:Hx0; [by apply N.eqb_eq in Hx0|].
  by rewrite reverse_cons, reverse_involutive.
Qed.

Lemma strip_zeros_app_pos l x r :
  x ≠ 0%N →
  strip_zeros ((l ++ [x]) ++ r)
  = (l ++ [x]) ++ strip_zeros r.
Proof.
  intros Hx. induction r as [|y r IH] using rev_ind.
  - rewrite app_nil_r. rewrite strip_zeros_snoc_pos by done.
    by rewrite app_nil_r.
  - rewrite app_assoc. destruct (decide (y = 0%N)) as [->|Hy].
    + by rewrite !strip_zeros_snoc_zero.
    + rewrite !strip_zeros_snoc_pos by done. by rewrite app_assoc.
Qed.

(** A final release with no epoch is below a dotted string of integers
    only if its release is. *)
Lemma Vlt_plain_release m parts :
  final m → epoch m = 0%N → Vlt m (plain parts) →
  list_cmp (strip_zeros (release m)) (strip_zeros parts) = Lt.
Proof.
  intros (_ & Hpre & Hdev) Hep. unfold Vlt, Vcmp, _cmpkey, key_t. cbv zeta.
  rewrite Hpre, Hdev, Hep. simpl. rewrite !cmp_pair.
  change (cmp 0%N 0%N) with (0 ?= 0)%N. simpl.
  change (cmp (strip_zeros (release m)) (strip_zeros parts))
    with (list_cmp (strip_zeros (release m)) (strip_zeros parts)).
  destruct (list_cmp _ _); [|done..].
  destruct (post m), (local m); by vm_compute.
Qed.

Lemma lookup_pad_Some l n i x : l !! i = Some x → pad l n !! i = Some x.
Proof. intros H. unfold pad. by apply lookup_app_l_Some. Qed.

Lemma lookup_pad_None l n i x :
  l !! i = None → pad l n !! i = Some x → x = 0%N.
Proof.
  intros Hnone. unfold pad. rewrite lookup_app_r by (by apply lookup_ge_None).
  by intros [-> _]%lookup_replicate.
Qed.

(** The order of the release [p] and of its first [k + 1] components
    followed by a 5. *)
Lemma deeper_cmp p k :
  (k < length p)%nat →
  list_cmp (strip_zeros p) (strip_zeros (deeper_parts p k)) = Lt
  ↔ ∀ x, p !! (k + 1)%nat = Some x → (x < 5)%N.
Proof.
  intros Hk. unfold deeper_parts.
  assert (length (take (k + 1) p) = (k + 1)%nat) as Hlen.
  { rewrite length_take. lia. }
  assert ((take (k + 1) p ++ [5%N]) !! (k + 1)%nat = Some 5%N) as H5.
  { rewrite lookup_app_r by lia. by rewrite Hlen, Nat.sub_diag. }
  assert (∀ q, take (k + 1) q = take (k + 1) p →
               take (k + 1) q = take (k + 1) (take (k + 1) p ++ [5%N]))
    as Htake.
  { intros q ->. rewrite take_app_le by lia. by rewrite take_take, Nat.min_id. }
  destruct (p !! (k + 1)%nat) as [x|] eqn:Hx.
  - destruct (decide (x = 5%N)) as [->|Hne].
    + split; [|intros H; specialize (H _ eq_refl); lia]. intros Hlt.
      exfalso.
      assert (p = (take (k + 1) p ++ [5%N]) ++ drop (S (k + 1)) p) as Hp.
      { rewrite <- app_assoc. simpl. rewrite <- (drop_S _ _ _ Hx).
        by rewrite take_drop. }
      rewrite Hp in Hlt at 1.
      rewrite strip_zeros_app_pos in Hlt by done.
      rewrite strip_zeros_snoc_pos in Hlt by done.
      rewrite list_cmp_app_l in Hlt. by destruct (strip_zeros _).
    + rewrite (list_cmp_strip_first_diff (k + 1) p _ x 5%N);
        [|by apply Htake|done..].
      rewrite N.compare_lt_iff. split; [by intros ? ? [= <-]|auto].
  - split; [done|]. intros _. apply lookup_ge_None in Hx.
    assert (length p = (k + 1)%nat) as Hp by lia.
    rewrite <- (strip_zeros_snoc_zero p).
    rewrite (list_cmp_strip_first_diff (k + 1) (p ++ [0%N]) _ 0%N 5%N);
      [done| | |done|done].
    + rewrite take_app_le by lia. by apply Htake.
    + rewrite lookup_app_r by lia. by rewrite Hp, Nat.sub_diag.
Qed.

(** X14. The gap-of-1 branch of [generate_candidates], for a minimum with
    no epoch: the candidate, the components of the minimum up to the
    differing index followed by a 5, is in the output and is read back
    below the maximum; it is above the minimum exactly when the component
    of the minimum after the differing index, if there is one, is below 5. *)
Theorem deeper_midpoint_above_minimum data major g m M k a b :
  groups data !! major = Some g →
  py_min g = Ok m → py_max g = Ok M →
  Vlt m M → epoch m = 0%N →
  first_diff (padded m (len_max m M)) (padded M (len_max m M)) k a b →
  (Z.of_N b - Z.of_N a = 1)%Z →
  ∃ c v out,
    c = join_dots (take (k + 1) (padded m (len_max m M)) ++ [5%N])
    ∧ VerifyVersions.mid_of m M = Ok (Some c)
    ∧ generate_candidates data = Ok out ∧ c ∈ out
    ∧ parse_version c = Ok v ∧ Vlt v M
    ∧ (Vlt m v ↔ ∀ x, release m !! (k + 1)%nat = Some x → (x < 5)%N).
Proof.
  intros Hg Hm HM Hlt Hep Hfd Hgap.
  pose proof (vv_mid_of_first_diff m M k a b Hlt Hfd) as Hvv.
  cbn zeta in Hvv. rewrite Hgap in Hvv. simpl in Hvv.
  rewrite trim_zeros_deeper in Hvv.
  destruct (vv_candidate_in_output data major g Midpoint
              (join_dots (deeper_parts (padded m (len_max m M)) k)))
    as (out & Hout & Hin); [done|by exists m, M|].
  set (d := deeper_parts (padded m (len_max m M)) k) in *.
  assert (d ≠ []) as Hd.
  { unfold d, deeper_parts. by destruct (take _ _). }
  exists (join_dots d), (plain d), out.
  split_and!; [done|done|done|done|by apply parse_join_dots|..].
  - apply plain_below_max. intros HepM.
    apply (deeper_below_max m M k a b Hfd).
    apply (first_diff_gap_pos m M k a b Hfd Hlt). congruence.
  - pose proof (first_diff_lt_len m M k a b Hfd) as Hk.
    pose proof (deeper_cmp (padded m (len_max m M)) k Hk) as Hcmp.
    fold d in Hcmp. unfold padded in Hcmp at 1 2.
    rewrite strip_zeros_pad in Hcmp.
    assert (final m) as Hfin by (by eapply group_min_final).
    etrans; [|etrans; [exact Hcmp|]].
    + split; [by apply Vlt_plain_release|]. intros H.
      apply Vlt_release; [by rewrite Hep|exact H].
    + split.
      * intros H x Hx. apply H. by apply lookup_pad_Some.
      * intros H x Hx.
        destruct (release m !! (k + 1)%nat) as [y|] eqn:Hy.
        -- rewrite (lookup_pad_Some _ _ _ _ Hy) in Hx. injection Hx as <-.
           by apply H.
        -- apply (lookup_pad_None _ _ _ _ Hy) in Hx. lia.
Qed.

(** The release 1.0.0 and 1.1.0 first differ at index 1, by 1, and the
    next component of the minimum is 0. *)
Lemma deeper_midpoint_above_minimum_witness :
  let data := [record "1.0.0" "1.1.0"] in
  let g := [plain [1; 0; 0]; plain [1; 1; 0]]%N in
  let m := plain [1; 0; 0]%N in
  let M := plain [1; 1; 0]%N in
  groups data !! 1%N = Some g ∧ py_min g = Ok m ∧ py_max g = Ok M
  ∧ Vlt m M ∧ epoch m = 0%N
  ∧ first_diff (padded m (len_max m M)) (padded M (len_max m M)) 1 0%N 1%N
  ∧ (Z.of_N 1 - Z.of_N 0 = 1)%Z
  ∧ ∃ c v out,
      c = join_dots (take (1 + 1) (padded m (len_max m M)) ++ [5%N])
      ∧ VerifyVersions.mid_of m M = Ok (Some c)
      ∧ generate_candidates data = Ok out ∧ c ∈ out
      ∧ parse_version c = Ok v ∧ Vlt v M
      ∧ (Vlt m v ↔ ∀ x, release m !! (1 + 1)%nat = Some x → (x < 5)%N).
Proof.
  refine (conj _ (conj _ (conj _ (conj _ (conj _ (conj _ (conj _
    (deeper_midpoint_above_minimum
       [record "1.0.0" "1.1.0"] 1%N
       [plain [1; 0; 0]; plain [1; 1; 0]]%N
       (plain [1; 0; 0]%N) (plain [1; 1; 0]%N) 1 0%N 1%N
       _ _ _ _ _ _ _)))))))); by vm_compute.
Defined.

(** ** The two scripts side by side *)

Lemma plain_same_version l l' :
  strip_zeros l = strip_zeros l' → Vcmp (plain l) (plain l') = Eq.
Proof. intros H. apply Vcmp_Eq_key. unfold _cmpkey. simpl. by rewrite H. Qed.

Lemma Vcmp_same v : Vcmp v v = Eq.
Proof. by apply Vcmp_Eq_key. Qed.

Lemma length_halfway_parts p len k a b :
  length p = len → (k < len)%nat → length (halfway_parts p len k a b) = len.
Proof.
  intros Hp Hk. unfold halfway_parts.
  rewrite !length_app, length_take, length_replicate. simpl. lia.
Qed.

(** Every candidate of test_ver.py has a counterpart of the same kind in
    verify_versions.py that is read as the same version; the two strings
    are the same when no release of the group has more than three
    components. *)
Lemma tv_candidate_matched data major g k s :
  groups data !! major = Some g → tv_candidate k g s →
  ∃ s' v v',
    vv_candidate k g s' ∧ parse_version s = Ok v ∧ parse_version s' = Ok v'
    ∧ Vcmp v v' = Eq
    ∧ (Forall (λ w, length (release w) ≤ 3)%nat g → s' = s).
Proof.
  intros Hg Hs.
  assert (∃ v, parse_version s = Ok v) as [v Hv].
  { destruct (tv_candidate_canonical k g s) as (v & Hv & _);
      [by eapply group_good|done|by exists v]. }
  assert (∀ s', s' = s → vv_candidate k g s' →
          ∃ s' v v',
            vv_candidate k g s' ∧ parse_version s = Ok v
            ∧ parse_version s' = Ok v' ∧ Vcmp v v' = Eq
            ∧ (Forall (λ w, length (release w) ≤ 3)%nat g → s' = s)) as Hsame.
  { intros s' -> Hvv. exists s, v, v. split_and!; [done..|apply Vcmp_same|done]. }
  destruct Hs as (m & M & Hm & HM & Hk). destruct k.
  - apply (Hsame s); [done|]. exists m, M. split_and!; [done..|].
    rewrite <- tv_pre_min_of_eq; [done|].
    apply (group_min_final data major g m Hg Hm).
  - done.
  - apply (Hsame s); [done|]. by exists m, M.
  - destruct (tv_mid_of_spec m M)
      as [[Hnone _]|(i & a & b & Hlt & Hfd & Hgap & Heq)]; [congruence|].
    rewrite Hk in Heq. injection Heq as ->.
    pose proof (vv_mid_of_first_diff m M i a b Hlt Hfd) as Hvv.
    cbn zeta in Hvv. rewrite (proj2 (Z.ltb_lt _ _) Hgap) in Hvv.
    set (h := halfway_parts (padded m (len_max m M)) (len_max m M) i a b) in *.
    assert (h ≠ []) as Hh by apply halfway_nonempty.
    exists (join_dots (VerifyVersions.trim_zeros (length h) h)),
           (plain h), (plain (VerifyVersions.trim_zeros (length h) h)).
    split_and!.
    + by exists m, M.
    + by apply parse_join_dots.
    + by apply parse_join_dots, trim_zeros_nonempty.
    + apply plain_same_version. by rewrite trim_zeros_strip.
    + intros Hall. rewrite trim_zeros_short; [done|].
      unfold h. rewrite length_halfway_parts.
      * unfold len_max.
        rewrite Forall_forall in Hall.
        pose proof (Hall m (py_min_elem _ _ Hm)).
        pose proof (Hall M (py_max_elem _ _ HM)). lia.
      * apply length_padded_min.
      * rewrite <- (length_padded_min m M).
        apply (first_diff_lt_len m M i a b Hfd).
Qed.

(** X15. Every string [get_version_candidates] returns has a counterpart in
    the output of [generate_candidates] that is read as the same version:
    test_ver.py finds no version that verify_versions.py misses. *)
Theorem test_ver_candidates_matched data :
  ∃ out out',
    get_version_candidates data = Ok out
    ∧ generate_candidates data = Ok out'
    ∧ ∀ s, s ∈ out →
        ∃ s' v v', s' ∈ out' ∧ parse_version s = Ok v
                   ∧ parse_version s' = Ok v' ∧ Vcmp v v' = Eq.
Proof.
  destruct (get_version_candidates_spec data) as (out & Hout & Hin).
  destruct (generate_candidates_spec data) as (out' & Hout' & Hin').
  exists out, out'. split_and!; [done..|].
  intros s (major & g & k & Hg & Hk)%Hin.
  destruct (tv_candidate_matched data major g k s Hg Hk)
    as (s' & v & v' & Hvv & Hv & Hv' & Heq & _).
  exists s', v, v'. split_and!; [|done..]. apply Hin'. by exists major, g, k.
Qed.

(** X16. When no release of the working set has more than three components,
    every string [get_version_candidates] returns is also returned by
    [generate_candidates]. *)
Theorem test_ver_candidates_included data :
  Forall (λ v, length (release v) ≤ 3)%nat (extract_versions data) →
  ∃ out out',
    get_version_candidates data = Ok out
    ∧ generate_candidates data = Ok out'
    ∧ out ⊆ out'.
Proof.
  intros Hall.
  destruct (get_version_candidates_spec data) as (out & Hout & Hin).
  destruct (generate_candidates_spec data) as (out' & Hout' & Hin').
  exists out, out'. split_and!; [done..|].
  intros s (major & g & k & Hg & Hk)%Hin.
  destruct (tv_candidate_matched data major g k s Hg Hk)
    as (s' & v & v' & Hvv & Hv & Hv' & Heq & Hs).
  rewrite <- Hs.
  - apply Hin'. by exists major, g, k.
  - apply Forall_forall. intros w Hw. rewrite Forall_forall in Hall.
    apply Hall. apply extract_versions_spec.
    apply groups_spec in Hg as [_ Hg]. by apply Hg.
Qed.

(** The records 1.2.0 / 1.6.0 and 2.0.0 / 2.2.0 hold releases of three
    components. *)
Lemma test_ver_candidates_included_witness :
  let data := [record "1.2.0" "1.6.0"; record "2.0.0" "2.2.0"] in
  Forall (λ v, length (release v) ≤ 3)%nat (extract_versions data)
  ∧ ∃ out out',
      get_version_candidates data = Ok out
      ∧ generate_candidates data = Ok out'
      ∧ out ⊆ out'.
Proof.
  refine (conj _ (test_ver_candidates_included
            [record "1.2.0" "1.6.0"; record "2.0.0" "2.2.0"] _));
    vm_compute; repeat constructor.
Defined.

(** ** The size of the outputs *)

Lemma size_add_le (s : string) (X : gset string) :
  (size ({[s]} ∪ X) ≤ S (size X))%nat.
Proof.
  rewrite size_union_alt, size_singleton.
  apply le_n_S, subseteq_size. intros y Hy. by apply elem_of_difference in Hy as [? _].
Qed.

Lemma size_add_if_true_le r (X : gset string) :
  (size (add_if_true r X) ≤ S (size X))%nat.
Proof.
  unfold add_if_true. destruct r as [s|]; [|lia].
  case_bool_decide; [lia|apply size_add_le].
Qed.

Lemma size_from_option_le r (X : gset string) :
  (size (from_option (λ s, {[s]} ∪ X) X r) ≤ S (size X))%nat.
Proof. destruct r as [s|]; simpl; [apply size_add_le|lia]. Qed.

Lemma vv_group_step_size fc item fc' :
  VerifyVersions.group_step fc item = Ok fc' →
  (size fc' ≤ size fc + 4)%nat.
Proof.
  unfold VerifyVersions.group_step. destruct item as [major [|x g]]; simpl.
  { intros [= <-]. lia. }
  destruct (VerifyVersions.pre_min_of _) as [pre_min|]; [|done].
  rewrite bind_Ok.
  destruct (VerifyVersions.mid_of _ _) as [mid_v|]; [|done].
  rewrite bind_Ok. intros [= <-].
  etrans; [apply size_from_option_le|].
  pose proof (size_add_if_true_le pre_min
    ({[str (foldl (λ m y, if Vgtb y m then y else m) x g)]}
     ∪ ({[str (foldl (λ m y, if Vltb y m then y else m) x g)]} ∪ fc))).
  pose proof (size_add_le (str (foldl (λ m y, if Vgtb y m then y else m) x g))
    ({[str (foldl (λ m y, if Vltb y m then y else m) x g)]} ∪ fc)).
  pose proof (size_add_le
    (str (foldl (λ m y, if Vltb y m then y else m) x g)) fc).
  lia.
Qed.

Lemma tv_group_step_size fc item fc' :
  TestVer.group_step fc item = Ok fc' →
  (size fc' ≤ size fc + 3)%nat.
Proof.
  unfold TestVer.group_step. destruct item as [major [|x g]]; simpl.
  { intros [= <-]. lia. }
  destruct (TestVer.pre_min_of _) as [pre_min|]; [|done].
  rewrite bind_Ok.
  destruct (TestVer.mid_of _ _) as [mid_v|]; [|done].
  rewrite bind_Ok. intros [= <-].
  etrans; [apply size_from_option_le|].
  pose proof (size_add_le (str (foldl (λ m y, if Vgtb y m then y else m) x g))
    (add_if_true pre_min fc)).
  pose proof (size_add_if_true_le pre_min fc).
  lia.
Qed.

Lemma foldlM_size {B} (step : gset string → B → result (gset string)) n :
  (∀ fc x fc', step fc x = Ok fc' → (size fc' ≤ size fc + n)%nat) →
  ∀ l fc fc', foldlM step fc l = Ok fc' →
    (size fc' ≤ size fc + n * length l)%nat.
Proof.
  intros Hstep l. induction l as [|x l IH]; intros fc fc'; cbn [foldlM].
  - intros [= <-]. lia.
  - destruct (step fc x) as [fc1|] eqn:H1; [|done]. rewrite bind_Ok.
    intros H2. apply Hstep in H1. apply IH in H2. simpl. lia.
Qed.

(** X17. At most four strings are returned for every major-version group by
    [generate_candidates], at most three by [get_version_candidates]. *)
Theorem output_size_bound data :
  ∃ out out',
    generate_candidates data = Ok out
    ∧ get_version_candidates data = Ok out'
    ∧ (length out ≤ 4 * size (groups data))%nat
    ∧ (length out' ≤ 3 * size (groups data))%nat.
Proof.
  destruct (generate_candidates_spec data) as (out & Hout & _).
  destruct (get_version_candidates_spec data) as (out' & Hout' & _).
  exists out, out'. split_and!; [done..| |].
  - revert Hout. unfold generate_candidates.
    destruct (extract_versions data) as [|x l] eqn:Hvs.
    { intros [= <-]. simpl. lia. }
    rewrite <- Hvs. fold (groups data).
    destruct (foldlM _ _ _) as [fc|] eqn:Hfc; [|done]. rewrite bind_Ok.
    intros ->%sorted_by_version_perm.
    apply (foldlM_size _ 4 vv_group_step_size) in Hfc.
    rewrite size_empty, length_map_to_list in Hfc. exact Hfc.
  - revert Hout'. unfold get_version_candidates.
    destruct (extract_versions data) as [|x l] eqn:Hvs.
    { intros [= <-]. simpl. lia. }
    rewrite <- Hvs. fold (groups data).
    destruct (foldlM _ _ _) as [fc|] eqn:Hfc; [|done]. rewrite bind_Ok.
    intros [= <-]. rewrite merge_sort_Permutation.
    apply (foldlM_size _ 3 tv_group_step_size) in Hfc.
    rewrite size_empty, length_map_to_list in Hfc. exact Hfc.
Qed.

(** ** No candidate above the maximum *)

Lemma Vlt_epoch_zero m M : Vlt m M → epoch M = 0%N → epoch m = 0%N.
Proof.
  intros Hlt HM. destruct (decide (epoch m = 0%N)) as [|Hne]; [done|].
  unfold Vlt in Hlt. rewrite Vcmp_epoch in Hlt.
  - rewrite HM in Hlt.
    assert (epoch m < 0)%N by (by apply N.compare_lt_iff). lia.
  - rewrite HM. intros Heq%N.compare_eq. done.
Qed.

Lemma Vle_key v w u : _cmpkey v = _cmpkey w → Vle v u → Vle w u.
Proof. unfold Vle, Vcmp. by intros ->. Qed.

Lemma vv_candidate_at_most_max data major g M k s :
  groups data !! major = Some g → py_max g = Ok M →
  vv_candidate k g s →
  ∃ v, parse_version s = Ok v ∧ Vle v M.
Proof.
  intros Hg HM (m & M' & Hm & HM' & Hk).
  rewrite HM in HM'. injection HM' as <-.
  assert (final m) as Hfm by (by eapply group_min_final).
  assert (Vle m M) as HmM.
  { eapply py_min_least; [done|]. by apply py_max_elem. }
  assert (final M) as HfM.
  { apply groups_spec in Hg as [_ Hin]. by apply Hin, py_max_elem. }
  destruct k.
  - destruct (vv_pre_min_of_spec m) as [[Hnone _]|(parts' & Heq & Hlow)];
      [apply Hfm|congruence|].
    rewrite Hk in Heq. injection Heq as ->. exists (plain parts'). split.
    + by eapply parse_join_dots, lowered_nonempty.
    + etrans; [|exact HmM]. by eapply Vlt_Vle, lowered_below.
  - subst s. exists m. split; [|done].
    destruct Hfm as (? & ? & ?). by apply parse_str.
  - subst s. exists M. split; [|apply Vle_refl].
    destruct HfM as (? & ? & ?). by apply parse_str.
  - destruct (vv_mid_of_spec m M)
      as [[Hnone _]|(i & a & b & Hlt & Hfd & Hmid)]; [congruence|].
    cbn zeta in Hmid. destruct Hmid as [Hne Heq].
    rewrite Hk in Heq. injection Heq as ->.
    eexists. split; [by apply parse_join_dots, trim_zeros_nonempty|].
    apply Vlt_Vle, plain_below_max. intros HepM.
    rewrite trim_zeros_strip.
    assert (a < b)%N as Hab.
    { apply (first_diff_gap_pos m M i a b Hfd Hlt).
      rewrite HepM. by apply (Vlt_epoch_zero m M). }
    destruct (1 <? Z.of_N b - Z.of_N a)%Z eqn:Hgap.
    + apply (halfway_below_max m M i a b Hfd). by apply Z.ltb_lt.
    + by apply (deeper_below_max m M i a b Hfd).
Qed.

(** X18. No candidate of a group is above the maximum of the group: every
    candidate of either script is read back as a version that is at most
    the maximum, whatever the epochs. *)
Theorem candidates_at_most_maximum data major g M s :
  groups data !! major = Some g → py_max g = Ok M →
  (∃ k, vv_candidate k g s) ∨ (∃ k, tv_candidate k g s) →
  ∃ v, parse_version s = Ok v ∧ Vle v M.
Proof.
  intros Hg HM [[k Hk]|[k Hk]].
  - by eapply vv_candidate_at_most_max.
  - destruct (tv_candidate_matched data major g k s Hg Hk)
      as (s' & v & v' & Hvv & Hv & Hv' & Heq & _).
    destruct (vv_candidate_at_most_max data major g M k s' Hg HM Hvv)
      as (w & Hw & Hle).
    rewrite Hv' in Hw. injection Hw as <-. exists v. split; [done|].
    apply Vcmp_Eq_key in Heq. by apply (Vle_key v' v).
Qed.

(** The group of major 1 of the record 1!1.0 / 1!1.5, whose midpoint "1.2"
    is below both. *)
Lemma candidates_at_most_maximum_witness :
  let m := mkVersion 1 [1; 0]%N None None None None in
  let M := mkVersion 1 [1; 5]%N None None None None in
  groups [record "1!1.0" "1!1.5"] !! 1%N = Some [m; M]
  ∧ py_max [m; M] = Ok M
  ∧ ((∃ k, vv_candidate k [m; M] "1.2") ∨ (∃ k, tv_candidate k [m; M] "1.2"))
  ∧ ∃ v, parse_version "1.2" = Ok v ∧ Vle v M.
Proof.
  refine (conj _ (conj _ (conj _ (candidates_at_most_maximum
    [record "1!1.0" "1!1.5"] 1%N
    [mkVersion 1 [1; 0]%N None None None None;
     mkVersion 1 [1; 5]%N None None None None]
    (mkVersion 1 [1; 5]%N None None None None) "1.2" _ _ _))));
    try (by vm_compute);
    left; exists Midpoint, (mkVersion 1 [1; 0]%N None None None None),
      (mkVersion 1 [1; 5]%N None None None None); by vm_compute.
Defined.

(** ** The order of the records *)











(** ** When a midpoint is produced *)

(** X20. A group has a midpoint candidate in verify_versions.py exactly
    when its minimum is below its maximum and their releases, zero-padded
    to the same length, differ (1.0 and 1.0.post1 have none); in
    test_ver.py exactly when, moreover, the first differing components
    differ by more than 1. *)
Theorem midpoint_produced_iff data major g m M :
  groups data !! major = Some g →
  py_min g = Ok m → py_max g = Ok M →
  ((∃ s, vv_candidate Midpoint g s)
   ↔ Vlt m M ∧ padded m (len_max m M) ≠ padded M (len_max m M))
  ∧ ((∃ s, tv_candidate Midpoint g s) ↔ Vlt m M ∧ gap_exceeds_one m M).
Proof.
  intros Hg Hm HM. split; split.
  - intros (s & m' & M' & Hm' & HM' & Hs).
    rewrite Hm in Hm'. rewrite HM in HM'. injection Hm' as <-.
    injection HM' as <-.
    destruct (vv_mid_of_spec m M) as [[Hnone _]|(k & a & b & Hlt & Hfd & _)];
      [congruence|].
    split; [done|]. by eapply first_diff_neq.
  - intros [Hlt Hne].
    destruct (vv_mid_of_spec m M)
      as [[_ [Hn|Heq]]|(k & a & b & _ & _ & Hmid)]; [done..|].
    cbn zeta in Hmid. destruct Hmid as [_ Hmid].
    eexists. exists m, M. split_and!; [done..|exact Hmid].
  - intros (s & m' & M' & Hm' & HM' & Hs).
    rewrite Hm in Hm'. rewrite HM in HM'. injection Hm' as <-.
    injection HM' as <-.
    destruct (tv_mid_of_spec m M)
      as [[Hnone _]|(k & a & b & Hlt & Hfd & Hgap & _)]; [congruence|].
    split; [done|]. by exists k, a, b.
  - intros [Hlt (k & a & b & Hfd & Hgap)].
    eexists. exists m, M. split_and!; [done..|].
    by apply (tv_mid_of_halfway m M k a b).
Qed.

(** The group of the record 1.0 / 1.0.post1: the minimum is below the
    maximum, and the releases are the same. *)
Lemma midpoint_produced_iff_witness :
  let m := plain [1; 0]%N in
  let M := mkVersion 0 [1; 0]%N None (Some 1%N) None None in
  groups [record "1.0" "1.0.post1"] !! 1%N = Some [m; M]
  ∧ py_min [m; M] = Ok m ∧ py_max [m; M] = Ok M
  ∧ ((∃ s, vv_candidate Midpoint [m; M] s)
     ↔ Vlt m M ∧ padded m (len_max m M) ≠ padded M (len_max m M))
  ∧ ((∃ s, tv_candidate Midpoint [m; M] s) ↔ Vlt m M ∧ gap_exceeds_one m M).
Proof.
  refine (conj _ (conj _ (conj _ (midpoint_produced_iff
    [record "1.0" "1.0.post1"] 1%N
    [plain [1; 0]%N; mkVersion 0 [1; 0]%N None (Some 1%N) None None]
    (plain [1; 0]%N) (mkVersion 0 [1; 0]%N None (Some 1%N) None None)
    _ _ _)))); by vm_compute.
Defined.

(** * Properties of the harness *)

(** ** Strings and lists of characters *)

Lemma chars_of_list l : chars (string_of_list_ascii l) = l.
Proof. apply list_ascii_of_string_of_list_ascii. Qed.

Lemma of_list_chars s : string_of_list_ascii (chars s) = s.
Proof. apply string_of_list_ascii_of_string. Qed.

Lemma chars_inj s t : chars s = chars t → s = t.
Proof. intros H. by rewrite <- (of_list_chars s), H, of_list_chars. Qed.

Lemma chars_append s t : chars (s +:+ t) = chars s ++ chars t.
Proof. induction s as [|c s IH]; [done|]. simpl. by rewrite <- IH. Qed.

Lemma of_list_app l k :
  string_of_list_ascii (l ++ k)
  = string_of_list_ascii l +:+ string_of_list_ascii k.
Proof. apply chars_inj. by rewrite chars_append, !chars_of_list. Qed.

(** ** [replace] *)

Lemma replace_from_skip old new skip s :
  replace_from old new skip s = replace_from old new 0 (drop skip s).
Proof.
  revert s. induction skip as [|skip IH]; intros s; [done|].
  destruct s as [|c s]; [done|]. simpl. apply IH.
Qed.

(** Replacing one character by another is a map over the characters. *)
Lemma replace_from_char c d s :
  replace_from [c] [d] 0 s = (λ x, if bool_decide (x = c) then d else x) <$> s.
Proof.
  induction s as [|x s IH]; [done|]. cbn [replace_from fmap list_fmap].
  case_bool_decide as Hpre; case_bool_decide as Hx; simpl.
  - by rewrite IH.
  - apply prefix_cons_inv_1 in Hpre. congruence.
  - subst x. exfalso. apply Hpre. apply prefix_cons, prefix_nil.
  - by rewrite IH.
Qed.

Lemma chars_py_replace_char s c d :
  chars (py_replace s (String c EmptyString) (String d EmptyString))
  = (λ x, if bool_decide (x = c) then d else x) <$> chars s.
Proof. unfold py_replace. rewrite chars_of_list. apply replace_from_char. Qed.

(** Replacing where nothing occurs changes nothing. *)
Lemma replace_from_absent old new s :
  find_from old s = None → replace_from old new 0 s = s.
Proof.
  induction s as [|c s IH]; [done|]. cbn [find_from replace_from].
  case_bool_decide; [done|]. intros Hs. f_equal. apply IH.
  by destruct (find_from old s).
Qed.

(** The first occurrence is replaced, and the search goes on behind it. *)
Lemma replace_from_first old new s i :
  old ≠ [] → find_from old s = Some i →
  replace_from old new 0 s
  = take i s ++ new ++ replace_from old new 0 (drop (i + length old) s).
Proof.
  intros Hold. revert i. induction s as [|c s IH]; intros i.
  - cbn [find_from]. case_bool_decide as Hpre; [|done].
    apply prefix_nil_inv in Hpre. done.
  - cbn [find_from replace_from]. case_bool_decide as Hpre.
    + intros [= <-]. simpl. f_equal. rewrite replace_from_skip. f_equal.
      destruct old; [done|]. simpl. by rewrite Nat.sub_0_r.
    + destruct (find_from old s) as [j|] eqn:Hj; [|done].
      intros [= <-]. simpl. f_equal. by apply IH.
Qed.

(** ** [sanitize_dirname] *)

Lemma dash_valid : "-"%char ∉ invalid.
Proof. apply (bool_decide_unpack _). by vm_compute. Qed.

(** Replacing the characters of [chs] one after the other is one pass over
    the name, as the dash is not one of them. *)
Lemma chars_replace_each chs name :
  "-"%char ∉ chs →
  chars (foldl (λ name char, py_replace name (String char EmptyString) "-")
               name chs)
  = (λ c, if bool_decide (c ∈ chs) then "-"%char else c) <$> chars name.
Proof.
  revert name. induction chs as [|ch chs IH]; intros name Hdash.
  - simpl. rewrite <- (list_fmap_id (chars name)) at 1.
    by apply list_fmap_ext.
  - apply not_elem_of_cons in Hdash as [Hne Hdash]. cbn [foldl].
    rewrite IH by done. rewrite chars_py_replace_char, <- list_fmap_compose.
    apply list_fmap_ext. intros i c _. cbv beta. unfold compose.
    destruct (decide (c = ch)) as [->|Hc].
    + rewrite !(bool_decide_eq_true_2 (ch = ch)) by done.
      rewrite (bool_decide_eq_false_2 ("-"%char ∈ chs)) by done.
      rewrite bool_decide_eq_true_2; [done|left].
    + rewrite !(bool_decide_eq_false_2 (c = ch)) by done.
      rewrite (bool_decide_ext (c ∈ ch :: chs) (c ∈ chs)); [done|].
      rewrite elem_of_cons. split; [by intros [?|?]|by right].
Qed.

Lemma chars_sanitize_dirname name :
  chars (sanitize_dirname name) = sanitize_char <$> chars name.
Proof. apply chars_replace_each, dash_valid. Qed.

Lemma sanitize_char_valid c : sanitize_char c ∉ invalid.
Proof.
  unfold sanitize_char. case_bool_decide; [apply dash_valid|done].
Qed.

Lemma sanitize_char_id c : c ∉ invalid → sanitize_char c = c.
Proof. intros H. unfold sanitize_char. by rewrite bool_decide_eq_false_2. Qed.

(** X21. The nine replacements of [sanitize_dirname] come to one pass over
    the name: every character that is not allowed becomes a dash and every
    other character is kept, so the length is kept too. *)
Theorem sanitize_dirname_pointwise name :
  chars (sanitize_dirname name)
  = (λ c, if bool_decide (c ∈ invalid) then "-"%char else c) <$> chars name.
Proof. unfold sanitize_dirname. apply chars_replace_each, dash_valid. Qed.

(** X22. No character of a sanitized name is one that is not allowed, and
    sanitizing a second time changes nothing. *)
Theorem sanitize_dirname_valid name :
  Forall (λ c, c ∉ invalid) (chars (sanitize_dirname name))
  ∧ sanitize_dirname (sanitize_dirname name) = sanitize_dirname name.
Proof.
  split.
  - rewrite chars_sanitize_dirname. apply Forall_fmap, Forall_true.
    intros c. apply sanitize_char_valid.
  - apply chars_inj. rewrite !chars_sanitize_dirname, <- list_fmap_compose.
    apply list_fmap_ext. intros i c _. simpl.
    apply sanitize_char_id, sanitize_char_valid.
Qed.

(** ** [sanitize_path_component] *)

Lemma sanitize_path_component_eq s :
  JavaCreateEnvs.sanitize_path_component (Some s)
  = py_replace (sanitize_dirname s) " " "_".
Proof.
  unfold JavaCreateEnvs.sanitize_path_component. f_equal.
  apply chars_inj. by rewrite chars_of_list, chars_sanitize_dirname.
Qed.

(** X23. On a string, [sanitize_path_component] of create_envs.py is
    [sanitize_dirname] of run_eval.py followed by the replacement of every
    space by an underscore; its result holds no character that is not
    allowed and no space. *)
Theorem sanitize_path_component_spec s :
  JavaCreateEnvs.sanitize_path_component (Some s)
  = py_replace (sanitize_dirname s) " " "_"
  ∧ Forall (λ c, (c ∉ invalid) ∧ c ≠ space)
           (chars (JavaCreateEnvs.sanitize_path_component (Some s))).
Proof.
  split; [apply sanitize_path_component_eq|].
  rewrite sanitize_path_component_eq, chars_py_replace_char.
  rewrite chars_sanitize_dirname, <- list_fmap_compose.
  apply Forall_fmap, Forall_true. intros c.
  simpl. pose proof (sanitize_char_valid c) as Hc.
  case_bool_decide as Hsp; [|done]. split; [|done].
  apply (bool_decide_unpack _). by vm_compute.
Qed.

Lemma py_replace_char_absent s c d :
  c ∉ chars s → py_replace s (String c EmptyString) (String d EmptyString) = s.
Proof.
  intros Hc. apply chars_inj. rewrite chars_py_replace_char.
  rewrite <- (list_fmap_id (chars s)) at 2. apply list_fmap_ext.
  intros i x Hx. simpl. rewrite bool_decide_eq_false_2; [done|].
  intros ->. apply Hc. by eapply list_elem_of_lookup_2.
Qed.

Lemma sanitize_dirname_id s :
  Forall (λ c, c ∉ invalid) (chars s) → sanitize_dirname s = s.
Proof.
  intros Hall. apply chars_inj. rewrite chars_sanitize_dirname.
  rewrite <- (list_fmap_id (chars s)) at 2. apply list_fmap_ext.
  intros i x Hx. simpl. apply sanitize_char_id.
  rewrite Forall_forall in Hall. apply Hall. by eapply list_elem_of_lookup_2.
Qed.

(** ** [env_dir_for] *)

(** X24. create_envs.py and run_eval.py name the same directory for a
    record whose library holds no space and whose version holds neither a
    space nor a character that is not allowed. *)
Theorem env_dir_for_agree (entry : entry) library version :
  entry !! "library"%string = Some library →
  entry !! "version"%string = Some version →
  space ∉ chars library →
  Forall (λ c, (c ∉ invalid) ∧ c ≠ space) (chars version) →
  JavaRunEval.env_dir_for entry = Some (JavaCreateEnvs.env_dir_for entry).
Proof.
  intros Hlib Hver Hsp Hclean.
  unfold JavaRunEval.env_dir_for, JavaCreateEnvs.env_dir_for.
  rewrite Hlib, Hver.
  rewrite !sanitize_path_component_eq.
  cbn [fmap option_fmap option_map mbind option_bind str_field].
  rewrite (sanitize_dirname_id version).
  2:{ eapply Forall_impl; [done|]. by intros c [? _]. }
  rewrite (py_replace_char_absent version).
  2:{ intros Hin. rewrite Forall_forall in Hclean.
      by destruct (Hclean _ Hin) as [_ ?]. }
  rewrite py_replace_char_absent; [done|].
  rewrite chars_sanitize_dirname. intros Hin.
  apply list_elem_of_fmap in Hin as (c & Hc & Hin).
  unfold sanitize_char in Hc. case_bool_decide; [done|]. by subst c.
Qed.

(** A Maven coordinate and a version. *)
Lemma env_dir_for_agree_witness :
  let entry : entry :=
    {[ "library" := "com.google.guava:guava"; "version" := "31.1-jre";
       "java_version" := "17" ]}%string in
  entry !! "library"%string = Some "com.google.guava:guava"%string
  ∧ entry !! "version"%string = Some "31.1-jre"%string
  ∧ (space ∉ chars "com.google.guava:guava")
  ∧ Forall (λ c, (c ∉ invalid) ∧ c ≠ space) (chars "31.1-jre")
  ∧ JavaRunEval.env_dir_for entry = Some (JavaCreateEnvs.env_dir_for entry).
Proof.
  refine (conj _ (conj _ (conj _ (conj _ (env_dir_for_agree
    ({[ "library" := "com.google.guava:guava"; "version" := "31.1-jre";
        "java_version" := "17" ]}%string)
    "com.google.guava:guava" "31.1-jre" _ _ _ _)))));
    first [by vm_compute|apply (bool_decide_unpack _); by vm_compute].
Defined.

(** ** [split] and [parse_maven_coord] *)

Lemma split_on_nonempty sep s : split_on sep s ≠ [].
Proof.
  destruct s as [|c s]; [done|]. simpl. case_bool_decide; [done|].
  by destruct (split_on sep s).
Qed.

Lemma split_on_absent sep p : sep ∉ p → split_on sep p = [p].
Proof.
  induction p as [|c p IH]; [done|]. intros [Hc Hp]%not_elem_of_cons.
  simpl. rewrite bool_decide_eq_false_2 by done. by rewrite IH.
Qed.

Lemma split_on_app sep p r :
  sep ∉ p → split_on sep (p ++ sep :: r) = p :: split_on sep r.
Proof.
  induction p as [|c p IH]; simpl.
  - intros _. by rewrite bool_decide_eq_true_2.
  - intros [Hc Hp]%not_elem_of_cons.
    rewrite bool_decide_eq_false_2 by done. by rewrite IH.
Qed.

Lemma split_on_join sep parts :
  parts ≠ [] → Forall (λ p, sep ∉ p) parts →
  split_on sep (join [sep] parts) = parts.
Proof.
  intros Hne Hall. induction Hall as [|p parts Hp Hall IH]; [done|].
  destruct parts as [|q parts].
  - by apply split_on_absent.
  - change (join [sep] (p :: q :: parts))
      with (p ++ sep :: join [sep] (q :: parts)).
    rewrite split_on_app by done. by rewrite IH.
Qed.

Lemma join_split_on sep s :
  join [sep] (split_on sep s) = s ∧ Forall (λ p, sep ∉ p) (split_on sep s).
Proof.
  induction s as [|c s [IHj IHf]]; simpl.
  - split; [done|]. constructor; [apply not_elem_of_nil|done].
  - pose proof (split_on_nonempty sep s) as Hne.
    destruct (split_on sep s) as [|p ps]; [done|]. case_bool_decide as Hc.
    + subst c. split.
      * change (join [sep] ([] :: p :: ps)) with (sep :: join [sep] (p :: ps)).
        by rewrite IHj.
      * constructor; [apply not_elem_of_nil|done].
    + split.
      * rewrite <- IHj. by destruct ps.
      * inversion IHf; subst. constructor; [|done].
        by apply not_elem_of_cons.
Qed.

Lemma length_split_on sep s :
  length (split_on sep s) = S (count_occ ascii_dec s sep).
Proof.
  induction s as [|c s IH]; [done|]. simpl.
  pose proof (split_on_nonempty sep s) as Hne.
  destruct (ascii_dec c sep) as [->|Hc].
  - rewrite bool_decide_eq_true_2 by done. simpl. by rewrite IH.
  - rewrite bool_decide_eq_false_2 by done.
    destruct (split_on sep s) as [|p ps]; [done|]. by rewrite <- IH.
Qed.

(** X25. [parse_maven_coord] returns the two sides of the colon of a string
    with exactly one colon, and raises ValueError for every other string. *)
Theorem parse_maven_coord_spec coord :
  (∀ group_id artifact_id,
     JavaCreateEnvs.parse_maven_coord coord = Ok (group_id, artifact_id)
     ↔ coord = group_id +:+ ":" +:+ artifact_id
       ∧ (":"%char ∉ chars group_id) ∧ (":"%char ∉ chars artifact_id))
  ∧ (JavaCreateEnvs.parse_maven_coord coord = Raise ValueError
     ↔ count_occ ascii_dec (chars coord) ":"%char ≠ 1%nat).
Proof.
  unfold JavaCreateEnvs.parse_maven_coord, py_split.
  destruct (join_split_on ":"%char (chars coord)) as [Hjoin Hall].
  pose proof (length_split_on ":"%char (chars coord)) as Hlen.
  split.
  - intros g a. split.
    + destruct (split_on _ _) as [|p [|q [|r l]]]; try done.
      cbn [fmap list_fmap]. intros [= <- <-].
      inversion Hall as [|? ? Hp Hall']; subst.
      inversion Hall' as [|? ? Hq _]; subst.
      rewrite !chars_of_list. split_and!; [|done..].
      apply chars_inj. rewrite !chars_append, !chars_of_list.
      by rewrite <- Hjoin.
    + intros (-> & Hg & Ha). rewrite !chars_append.
      change (chars ":") with [":"%char].
      change (chars g ++ [":"%char] ++ chars a)
        with (join [":"%char] [chars g; chars a]).
      rewrite split_on_join; [|done|by repeat constructor].
      cbn [fmap list_fmap]. by rewrite !of_list_chars.
  - destruct (split_on _ _) as [|p [|q [|r l]]]; simpl in *; split;
      first [done|lia|intros; lia|idtac].
    all: try (intros _; lia).
Qed.

(** ** [write_answer_main] *)

Lemma length_chars s : length (chars s) = String.length s.
Proof. induction s as [|c s IH]; [done|]. simpl. by rewrite IH. Qed.

Lemma chars_py_replace s old new :
  old ≠ ""%string →
  chars (py_replace s old new)
  = replace_from (chars old) (chars new) 0 (chars s).
Proof.
  intros Hold. unfold py_replace, replace_chars. rewrite chars_of_list.
  by destruct old.
Qed.

(** One marker in a text: the text before it, the replacement, and the
    text behind it, when the marker does not occur again there. *)
Lemma replace_one s old new before behind :
  old ≠ ""%string →
  s = before +:+ old +:+ behind →
  py_find s old = Some (String.length before) →
  py_find behind old = None →
  py_replace s old new = before +:+ new +:+ behind.
Proof.
  intros Hold -> Hfirst Hnone. apply chars_inj.
  rewrite chars_py_replace by done. unfold py_find in *.
  rewrite !chars_append in *. rewrite <- length_chars in Hfirst.
  assert (chars old ≠ []) as Hold' by (by destruct old).
  rewrite (replace_from_first _ _ _ _ Hold' Hfirst).
  rewrite take_app_length.
  rewrite drop_app_add, drop_app_length.
  by rewrite replace_from_absent.
Qed.

(** X26. When each marker occurs once, the start marker before the end
    marker, and the solution brings no end marker of its own before the one
    of the text, the answer is the text with the solution in the place of
    the start marker and with the end marker removed; the text between the
    two markers is kept. *)
Theorem write_answer_main_splice pre mid post solution :
  let starting_code :=
    (pre +:+ "// SOLUTION_START" +:+ mid +:+ "// SOLUTION_END" +:+ post)%string in
  py_find starting_code "// SOLUTION_START" = Some (String.length pre) →
  py_find (mid +:+ "// SOLUTION_END" +:+ post) "// SOLUTION_START" = None →
  py_find (pre +:+ solution +:+ mid +:+ "// SOLUTION_END" +:+ post)
          "// SOLUTION_END"
  = Some (String.length (pre +:+ solution +:+ mid)) →
  py_find post "// SOLUTION_END" = None →
  JavaRunEval.write_answer_main starting_code solution
  = (pre +:+ solution +:+ mid +:+ post)%string.
Proof.
  intros code Hstart Hstart' Hend Hend'.
  unfold JavaRunEval.write_answer_main.
  rewrite (replace_one code "// SOLUTION_START" solution pre
             (mid +:+ "// SOLUTION_END" +:+ post)); [|done..].
  assert (∀ a b c : string, (a +:+ b +:+ c = (a +:+ b) +:+ c)%string)
    as Hassoc.
  { intros a b c. apply chars_inj. by rewrite !chars_append, app_assoc. }
  rewrite (replace_one _ "// SOLUTION_END" "" (pre +:+ solution +:+ mid) post);
    [|done| |done|done].
  - change ("" +:+ post)%string with post. by rewrite <- !Hassoc.
  - by rewrite <- !Hassoc.
Qed.

(** A class with the two markers on lines of their own. *)
Lemma write_answer_main_splice_witness :
  let pre := "class Main { void f() { "%string in
  let mid := " old(); "%string in
  let post := " } }"%string in
  let solution := "next(1); // done"%string in
  let starting_code :=
    (pre +:+ "// SOLUTION_START" +:+ mid +:+ "// SOLUTION_END" +:+ post)%string in
  py_find starting_code "// SOLUTION_START" = Some (String.length pre)
  ∧ py_find (mid +:+ "// SOLUTION_END" +:+ post) "// SOLUTION_START" = None
  ∧ py_find (pre +:+ solution +:+ mid +:+ "// SOLUTION_END" +:+ post)
            "// SOLUTION_END"
    = Some (String.length (pre +:+ solution +:+ mid))
  ∧ py_find post "// SOLUTION_END" = None
  ∧ JavaRunEval.write_answer_main starting_code solution
    = (pre +:+ solution +:+ mid +:+ post)%string.
Proof.
  refine (conj _ (conj _ (conj _ (conj _ (write_answer_main_splice
    "class Main { void f() { " " old(); " " } }" "next(1); // done"
    _ _ _ _))))); by vm_compute.
Defined.

(** X27. Without a start marker in the starting code the solution is not
    used: the answer is the starting code with its end markers removed. *)
Theorem write_answer_main_without_marker starting_code solution :
  py_find starting_code "// SOLUTION_START" = None →
  JavaRunEval.write_answer_main starting_code solution
  = py_replace starting_code "// SOLUTION_END" "".
Proof.
  intros Hnone. unfold JavaRunEval.write_answer_main. f_equal.
  apply chars_inj. rewrite chars_py_replace by done.
  by apply replace_from_absent.
Qed.

(** A starting code with the end marker only. *)
Lemma write_answer_main_without_marker_witness :
  py_find "int x; // SOLUTION_END" "// SOLUTION_START" = None
  ∧ JavaRunEval.write_answer_main "int x; // SOLUTION_END" "x = 1;"
    = py_replace "int x; // SOLUTION_END" "// SOLUTION_END" "".
Proof.
  refine (conj _ (write_answer_main_without_marker
            "int x; // SOLUTION_END" "x = 1;" _)); by vm_compute.
Defined.

(** ** [split] on a string, and the answer of CPPTest/run_eval.py *)

Lemma split_from_skip sep skip s :
  (skip ≤ length s)%nat →
  split_from sep skip s = split_from sep 0 (drop skip s).
Proof.
  revert s. induction skip as [|skip IH]; intros s Hlen; [done|].
  destruct s as [|c s]; [simpl in Hlen; lia|]. simpl. apply IH.
  simpl in Hlen. lia.
Qed.

Lemma split_from_nonempty sep skip s : split_from sep skip s ≠ [].
Proof.
  revert skip. induction s as [|c s IH]; intros skip; [done|]. simpl.
  destruct skip as [|skip]; [|apply IH].
  case_bool_decide; [done|]. by destruct (split_from sep 0 s).
Qed.

Lemma split_from_absent sep s :
  find_from sep s = None → split_from sep 0 s = [s].
Proof.
  induction s as [|c s IH]; [done|]. cbn [find_from split_from].
  case_bool_decide; [done|]. intros Hs. rewrite IH; [done|].
  by destruct (find_from sep s).
Qed.

Lemma split_from_first sep s i :
  sep ≠ [] → find_from sep s = Some i →
  split_from sep 0 s
  = take i s :: split_from sep 0 (drop (i + length sep) s).
Proof.
  intros Hsep. revert i. induction s as [|c s IH]; intros i.
  - cbn [find_from]. case_bool_decide as Hpre; [|done].
    by apply prefix_nil_inv in Hpre.
  - cbn [find_from split_from]. case_bool_decide as Hpre.
    + intros [= <-]. simpl. f_equal.
      destruct Hpre as [k Hk]. destruct sep as [|x sep]; [done|].
      simpl in Hk. injection Hk as -> ->. simpl.
      rewrite Nat.sub_0_r. apply split_from_skip.
      rewrite length_app. lia.
    + destruct (find_from sep s) as [j|] eqn:Hj; [|done].
      intros [= <-]. rewrite (IH j) by done. done.
Qed.


Lemma chars_py_split_str s sep :
  chars <$> py_split_str s sep = split_from (chars sep) 0 (chars s).
Proof.
  unfold py_split_str. rewrite <- list_fmap_compose.
  rewrite <- (list_fmap_id (split_from _ _ _)) at 2.
  apply list_fmap_ext. intros i l _. apply chars_of_list.
Qed.

Lemma py_split_str_first s sep before behind :
  sep ≠ ""%string → s = (before +:+ sep +:+ behind)%string →
  py_find s sep = Some (String.length before) →
  py_split_str s sep = before :: py_split_str behind sep.
Proof.
  intros Hsep -> Hfind. unfold py_split_str, py_find in *.
  rewrite !chars_append in *. rewrite <- length_chars in Hfind.
  assert (chars sep ≠ []) as Hsep' by (by destruct sep).
  rewrite (split_from_first _ _ _ Hsep' Hfind).
  rewrite take_app_length, drop_app_add, drop_app_length.
  cbn [fmap list_fmap]. by rewrite of_list_chars.
Qed.

Lemma py_split_str_absent s sep :
  py_find s sep = None → py_split_str s sep = [s].
Proof.
  unfold py_split_str, py_find. intros H. rewrite split_from_absent by done.
  simpl. by rewrite of_list_chars.
Qed.

Lemma getitem_0 {A} (x : A) l : getitem (x :: l) 0 = Ok x.
Proof. done. Qed.

Lemma getitem_1 {A} (x y : A) l : getitem (x :: y :: l) 1 = Ok y.
Proof. done. Qed.


Lemma find_from_app sub a s i :
  find_from sub s = Some i → is_Some (find_from sub (a ++ s)).
Proof.
  intros Hs. induction a as [|c a IH]; [by exists i|].
  cbn [app find_from]. case_bool_decide; [done|]. destruct IH as [j ->].
  done.
Qed.

Lemma py_in_behind sub before s i :
  py_find s sub = Some i → py_in sub (before +:+ s) = true.
Proof.
  unfold py_in, py_find. intros Hs. apply bool_decide_eq_true_2.
  rewrite chars_append. by eapply find_from_app.
Qed.

Lemma py_in_true sub s i : py_find s sub = Some i → py_in sub s = true.
Proof. unfold py_in. intros ->. by apply bool_decide_eq_true_2. Qed.

(** X28. When each marker occurs once, the start marker before the end
    marker, the answer of CPPTest/run_eval.py is the text before the start
    marker, the solution on lines of its own, and the text after the end
    marker; the text between the two markers is left out. *)
Theorem full_code_splice pre mid post solution :
  let starting_code :=
    (pre +:+ "// SOLUTION_START" +:+ mid +:+ "// SOLUTION_END" +:+ post)%string in
  py_find starting_code "// SOLUTION_START" = Some (String.length pre) →
  py_find (mid +:+ "// SOLUTION_END" +:+ post) "// SOLUTION_START" = None →
  py_find (mid +:+ "// SOLUTION_END" +:+ post) "// SOLUTION_END"
  = Some (String.length mid) →
  py_find post "// SOLUTION_END" = None →
  CppRunEval.full_code starting_code solution
  = Ok (pre +:+ newline +:+ solution +:+ newline +:+ post)%string.
Proof.
  intros code Hstart Hstart' Hend' Hend''. unfold CppRunEval.full_code.
  rewrite (py_in_true _ _ _ Hstart).
  assert (py_in "// SOLUTION_END" code = true) as ->.
  { unfold code.
    assert (∀ a b c : string, (a +:+ b +:+ c = (a +:+ b) +:+ c)%string)
      as Hassoc.
    { intros a b c. apply chars_inj. by rewrite !chars_append, app_assoc. }
    rewrite Hassoc. by eapply py_in_behind. }
  cbn [andb].
  rewrite (py_split_str_first code "// SOLUTION_START" pre
             (mid +:+ "// SOLUTION_END" +:+ post)); [|done..].
  rewrite (py_split_str_absent _ _ Hstart').
  rewrite getitem_0, bind_Ok, getitem_1, bind_Ok.
  rewrite (py_split_str_first _ "// SOLUTION_END" mid post); [|done..].
  rewrite (py_split_str_absent _ _ Hend'').
  by rewrite getitem_1, bind_Ok.
Qed.

(** The starting code of the dataset. *)
Lemma full_code_splice_witness :
  let pre := "int main() { "%string in
  let mid := " old(); "%string in
  let post := " return 0; }"%string in
  let starting_code :=
    (pre +:+ "// SOLUTION_START" +:+ mid +:+ "// SOLUTION_END" +:+ post)%string in
  py_find starting_code "// SOLUTION_START" = Some (String.length pre)
  ∧ py_find (mid +:+ "// SOLUTION_END" +:+ post) "// SOLUTION_START" = None
  ∧ py_find (mid +:+ "// SOLUTION_END" +:+ post) "// SOLUTION_END"
    = Some (String.length mid)
  ∧ py_find post "// SOLUTION_END" = None
  ∧ CppRunEval.full_code starting_code "f();"
    = Ok (pre +:+ newline +:+ "f();" +:+ newline +:+ post)%string.
Proof.
  refine (conj _ (conj _ (conj _ (conj _ (full_code_splice
    "int main() { " " old(); " " return 0; }" "f();" _ _ _ _)))));
    by vm_compute.
Defined.


